(** * kirjava: constant pool, MUTF-8 codec and instruction blocks

    A shallow embedding of [kirjava/classfile/constants.pyx] (the constant
    taxonomy and [ConstantPool]) and of [kirjava/analysis/_block.pxi]
    ([InsnBlock]), together with the properties the specification states
    about them.

    Conventions.
    - A byte is an integer in [0, 255]; [bytes] objects are lists of them.
    - A Python [str] is the list of its code points.
    - A readable [IO[bytes]] buffer is the list of bytes still ahead of the
      cursor; a writable one is the list of bytes written so far.
    - A call that can raise returns a [result]; the constructors of [error]
      carry the names of the specification's error taxonomy and record the
      Python exception they stand for.
    - A Python [int] is an integer; a field declared [cdef int] is an integer
      whose 32 bits are written out where the code meets them: storing a
      Python [int] into it raises [OverflowError] when it does not fit, and
      C arithmetic on it wraps around. *)

From Stdlib Require Import ZArith List Lia Bool.
From stdpp Require Import base option list gmap.

Local Open Scope Z_scope.

(* ===================================================================== *)
(** * Part I: definitions                                                 *)
(* ===================================================================== *)

(** ** Versions and the variant table *)

(** Modelled from the spec: the class [Version] of [kirjava.version] is not
    among the sources.  A version is a pair (major, minor), written 45.0,
    51.0, ... in the specification's table; [constant.since > version] is
    the lexicographic order on it. *)
Record Version := mkVersion { major : Z; minor : Z }.

Definition Version_gt (a b : Version) : bool :=
  (major b <? major a) || ((major a =? major b) && (minor b <? minor a)).

(** The classes listed in [CONSTANTS]. *)
Inductive Variant :=
| VUTF8 | VInteger | VFloat | VLong | VDouble | VClass | VString
| VFieldRef | VMethodRef | VInterfaceMethodRef | VNameAndType
| VMethodHandle | VMethodType | VDynamic | VInvokeDynamic
| VModule | VPackage.

Global Instance Variant_eq_dec : EqDecision Variant.
Proof. solve_decision. Defined.

Definition CONSTANTS : list Variant :=
  [VUTF8; VInteger; VFloat; VLong; VDouble; VClass; VString; VFieldRef;
   VMethodRef; VInterfaceMethodRef; VNameAndType; VMethodHandle;
   VMethodType; VDynamic; VInvokeDynamic; VModule; VPackage].

(** The class attribute [tag]. *)
Definition tag (v : Variant) : Z :=
  match v with
  | VUTF8 => 1 | VInteger => 3 | VFloat => 4 | VLong => 5 | VDouble => 6
  | VClass => 7 | VString => 8 | VFieldRef => 9 | VMethodRef => 10
  | VInterfaceMethodRef => 11 | VNameAndType => 12 | VMethodHandle => 15
  | VMethodType => 16 | VDynamic => 17 | VInvokeDynamic => 18
  | VModule => 19 | VPackage => 20
  end.

(** The class attribute [wide] ([False] unless overridden). *)
Definition wide (v : Variant) : bool :=
  match v with
  | VLong | VDouble => true
  | _ => false
  end.

(** The class attribute [since]. *)
Definition since (v : Variant) : Version :=
  match v with
  | VMethodHandle | VMethodType | VInvokeDynamic => mkVersion 51 0
  | VDynamic => mkVersion 55 0
  | VModule | VPackage => mkVersion 53 0
  | _ => mkVersion 45 0
  end.

(** [_constant_map = {constant.tag: constant for constant in CONSTANTS}],
    looked up with [.get(tag, None)]. *)
Definition _constant_map (t : Z) : option Variant :=
  List.find (fun v => tag v =? t) CONSTANTS.

(** ** Errors *)

Inductive error :=
| Truncated
    (* struct.error from unpack_* on a short read, or ValueError from
       [tag, = buffer.read(1)] at the end of the buffer *)
| PackRange
    (* struct.error from pack_* on a value outside the format's range *)
| UnicodeEncodeError
    (* str.encode("utf-8") on a surrogate code point *)
| UnknownConstantTag (t : Z)
    (* ValueError("Unknown constant tag: %i.") *)
| VersionTooLow (variant : Variant) (actual : Version)
    (* ValueError("Constant %r is not supported in version %s.") *)
| KindMismatch
    (* TypeError("Expected type %r, got %r.") *)
| NotDereferenceable
    (* Exception("Tried to dereference ...") *)
| SlotOccupied (index : Z)
    (* named by the specification; no statement of the source raises it *)
| IndexUndefined (index : Z)
    (* IndexError("Constant pool index %i is not defined.") *)
| IllegalInstruction
    (* ValueError("Cannot add a ... instruction directly, ...") *)
| NotAnInstruction
    (* ValueError("Expected an instruction, got %r.") *)
| Overflow.
    (* OverflowError: a Python int that does not fit the C integer it is
       converted to *)

Inductive result (A : Type) :=
| Ok (a : A)
| Err (e : error).
Arguments Ok {A} a.
Arguments Err {A} e.

Definition bind {A B} (r : result A) (k : A -> result B) : result B :=
  match r with
  | Ok a => k a
  | Err e => Err e
  end.

Notation "'do' x <- r ; k" := (bind r (fun x => k))
  (at level 10, x name, r at level 100, k at level 200).
Notation "'do' ' p <- r ; k" := (bind r (fun x => let 'p := x in k))
  (at level 10, p strict pattern, r at level 100, k at level 200).

(** ** BinaryCodec *)

Definition byte := Z.
Definition pystr := list Z.

(** [buffer.read(n)]: at most [n] bytes, fewer at the end of the stream. *)
Definition buffer_read (n : Z) (buffer : list byte) : list byte * list byte :=
  (take (Z.to_nat n) buffer, drop (Z.to_nat n) buffer).

(** Modelled from the spec: the packers and unpackers of
    [kirjava.classfile._struct] are not among the sources.  They are the
    big-endian primitives of the BinaryCodec: an unpacker fails on a read
    that came back short, and a value outside the range of its format cannot
    be packed.

    [pack_H]/[unpack_H]: unsigned 16 bits. *)
Definition pack_H (n : Z) : result (list byte) :=
  if (0 <=? n) && (n <=? 65535) then Ok [n / 256; n mod 256] else Err PackRange.

Definition unpack_H (data : list byte) : result Z :=
  match data with
  | [a; b] => Ok (a * 256 + b)
  | _ => Err Truncated
  end.

(** [unpack_HH]: two unsigned 16-bit values. *)
Definition unpack_HH (data : list byte) : result (Z * Z) :=
  match data with
  | [a; b; c; d] => Ok (a * 256 + b, c * 256 + d)
  | _ => Err Truncated
  end.

(** [unpack_BH]: an unsigned byte, then an unsigned 16-bit value. *)
Definition unpack_BH (data : list byte) : result (Z * Z) :=
  match data with
  | [k; a; b] => Ok (k, a * 256 + b)
  | _ => Err Truncated
  end.

(** Big-endian unsigned value of a byte string. *)
Fixpoint be_unsigned (acc : Z) (data : list byte) : Z :=
  match data with
  | [] => acc
  | b :: rest => be_unsigned (acc * 256 + b) rest
  end.

(** Two's complement reading of a [w]-bit pattern. *)
Definition to_signed (w : Z) (u : Z) : Z :=
  if u <? 2 ^ (w - 1) then u else u - 2 ^ w.

(** [unpack_i] and [unpack_q]: signed 32 and 64 bits. *)
Definition unpack_i (data : list byte) : result Z :=
  if Nat.eqb (length data) 4 then Ok (to_signed 32 (be_unsigned 0 data))
  else Err Truncated.

Definition unpack_q (data : list byte) : result Z :=
  if Nat.eqb (length data) 8 then Ok (to_signed 64 (be_unsigned 0 data))
  else Err Truncated.

(** [unpack_f] and [unpack_d]: IEEE-754, 32 and 64 bits.  A floating point
    payload is kept as its bit pattern. *)
Definition unpack_f (data : list byte) : result Z :=
  if Nat.eqb (length data) 4 then Ok (be_unsigned 0 data) else Err Truncated.

Definition unpack_d (data : list byte) : result Z :=
  if Nat.eqb (length data) 8 then Ok (be_unsigned 0 data) else Err Truncated.

(** *** UTF-8 *)

Definition is_surrogate (c : Z) : bool := (0xD800 <=? c) && (c <=? 0xDFFF).

(** The code points a [str] can hold. *)
Definition is_code_point (c : Z) : Prop := 0 <= c <= 0x10FFFF.

(** A string without (unpaired) surrogates: a [str] is a sequence of code
    points, so any surrogate in it stands alone. *)
Definition no_surrogates (s : pystr) : Prop :=
  Forall (fun c => is_code_point c /\ is_surrogate c = false) s.

(** UTF-8 form of one code point; the strict codec rejects surrogates. *)
Definition utf8_encode_cp (c : Z) : result (list byte) :=
  if c <? 0x80 then Ok [c]
  else if c <? 0x800 then Ok [0xC0 + c / 64; 0x80 + c mod 64]
  else if c <? 0x10000 then
    if is_surrogate c then Err UnicodeEncodeError
    else Ok [0xE0 + c / 4096; 0x80 + (c / 64) mod 64; 0x80 + c mod 64]
  else Ok [0xF0 + c / 262144; 0x80 + (c / 4096) mod 64;
           0x80 + (c / 64) mod 64; 0x80 + c mod 64].

(** [s.encode("utf-8")]. *)
Fixpoint str_encode_utf8 (s : pystr) : result (list byte) :=
  match s with
  | [] => Ok []
  | c :: rest =>
      do bs <- utf8_encode_cp c;
      do tl <- str_encode_utf8 rest;
      Ok (bs ++ tl)
  end.

Definition is_cont (b : Z) : bool := (0x80 <=? b) && (b <=? 0xBF).

(** Admissible second byte of a three-byte sequence led by [b0]. *)
Definition second_ok3 (b0 b1 : Z) : bool :=
  if b0 =? 0xE0 then (0xA0 <=? b1) && (b1 <=? 0xBF)
  else if b0 =? 0xED then (0x80 <=? b1) && (b1 <=? 0x9F)
  else is_cont b1.

(** Admissible second byte of a four-byte sequence led by [b0]. *)
Definition second_ok4 (b0 b1 : Z) : bool :=
  if b0 =? 0xF0 then (0x90 <=? b1) && (b1 <=? 0xBF)
  else if b0 =? 0xF4 then (0x80 <=? b1) && (b1 <=? 0x8F)
  else is_cont b1.

(** [data.decode("utf-8", errors="ignore")]: an ill-formed sequence is
    dropped up to (not including) the first byte that cannot continue it, a
    sequence cut off by the end of the data is dropped whole. *)
Fixpoint bytes_decode_utf8_ignore (data : list byte) : pystr :=
  match data with
  | [] => []
  | b0 :: r0 =>
      if b0 <? 0x80 then b0 :: bytes_decode_utf8_ignore r0
      else if b0 <? 0xC2 then bytes_decode_utf8_ignore r0
      else if b0 <? 0xE0 then
        match r0 with
        | [] => []
        | b1 :: r1 =>
            if is_cont b1
            then (b0 mod 32 * 64 + b1 mod 64) :: bytes_decode_utf8_ignore r1
            else bytes_decode_utf8_ignore r0
        end
      else if b0 <? 0xF0 then
        match r0 with
        | [] => []
        | b1 :: r1 =>
            if second_ok3 b0 b1 then
              match r1 with
              | [] => []
              | b2 :: r2 =>
                  if is_cont b2
                  then (b0 mod 16 * 4096 + b1 mod 64 * 64 + b2 mod 64)
                         :: bytes_decode_utf8_ignore r2
                  else bytes_decode_utf8_ignore r1
              end
            else bytes_decode_utf8_ignore r0
        end
      else if b0 <? 0xF5 then
        match r0 with
        | [] => []
        | b1 :: r1 =>
            if second_ok4 b0 b1 then
              match r1 with
              | [] => []
              | b2 :: r2 =>
                  if is_cont b2 then
                    match r2 with
                    | [] => []
                    | b3 :: r3 =>
                        if is_cont b3
                        then (b0 mod 8 * 262144 + b1 mod 64 * 4096
                              + b2 mod 64 * 64 + b3 mod 64)
                               :: bytes_decode_utf8_ignore r3
                        else bytes_decode_utf8_ignore r2
                    end
                  else bytes_decode_utf8_ignore r1
              end
            else bytes_decode_utf8_ignore r0
        end
      else bytes_decode_utf8_ignore r0
  end.

(** [bytes.startswith]. *)
Fixpoint starts_with (pat data : list byte) : bool :=
  match pat, data with
  | [], _ => true
  | _ :: _, [] => false
  | p :: pat', b :: data' => (p =? b) && starts_with pat' data'
  end.

(** [data.replace(old, new)] for a non-empty [old]: occurrences are replaced
    from left to right without overlap.  [skip] counts the bytes of the
    occurrence just replaced that are still to be passed over. *)
Fixpoint replace_from (old new : list byte) (skip : nat) (data : list byte)
  : list byte :=
  match data with
  | [] => []
  | b :: rest =>
      match skip with
      | S k => replace_from old new k rest
      | O =>
          if starts_with old data
          then new ++ replace_from old new (Nat.pred (length old)) rest
          else b :: replace_from old new O rest
      end
  end.

Definition bytes_replace (old new data : list byte) : list byte :=
  replace_from old new O data.

(** The payload codec of [UTF8.write] and [UTF8.read]. *)
Definition encode_mutf8 (s : pystr) : result (list byte) :=
  do raw <- str_encode_utf8 s;
  Ok (bytes_replace [0x00] [0xC0; 0x80] raw).

Definition decode_mutf8 (data : list byte) : pystr :=
  bytes_decode_utf8_ignore (bytes_replace [0xC0; 0x80] [0x00] data).

(** [UTF8.write(self, class_file, buffer)] for [self.value = value]; the
    result is the buffer after the two writes. *)
Definition UTF8_write (value : pystr) (buffer : list byte) : result (list byte) :=
  do value' <- encode_mutf8 value;
  do len <- pack_H (Z.of_nat (length value'));
  Ok (buffer ++ len ++ value').

(** [UTF8.read(buffer)]: the decoded string and the rest of the buffer. *)
Definition UTF8_read_value (buffer : list byte) : result (pystr * list byte) :=
  let '(hdr, buffer1) := buffer_read 2 buffer in
  do n <- unpack_H hdr;
  let '(data, buffer2) := buffer_read n buffer1 in
  Ok (decode_mutf8 data, buffer2).

(** ** ConstantTaxonomy *)

(** The payloads of a [Class] and of a [NameAndType] constant; [FieldRef] and
    its siblings hold one of each ([cdef readonly Class class_],
    [cdef readonly NameAndType name_and_type]).  The attribute [Class.type]
    is computed from [name] by the descriptor parser and is not kept. *)
Record ClassC := mkClass { class_name : pystr }.
Record NameAndTypeC := mkNameAndType { nt_name : pystr; nt_descriptor : pystr }.

(** Instances of the subclasses of [ConstantInfo].  [Class_], [String_] and
    [Module_] stand for [Class], [String] and [Module].  [MethodType] keeps
    its descriptor only (the parsed types are computed from it). *)
Inductive ConstantInfo :=
| Index (index : Z)
| UTF8 (value : pystr)
| Integer (value : Z)
| Float (bits : Z)
| Long (value : Z)
| Double (bits : Z)
| Class_ (c : ClassC)
| String_ (value : pystr)
| FieldRef (class_ : ClassC) (name_and_type : NameAndTypeC)
| MethodRef (class_ : ClassC) (name_and_type : NameAndTypeC)
| InterfaceMethodRef (class_ : ClassC) (name_and_type : NameAndTypeC)
| NameAndType (nt : NameAndTypeC)
| MethodHandle (reference_kind : Z) (reference : ConstantInfo)
| MethodType (descriptor : pystr)
| Dynamic (bootstrap_method_attr_index : Z) (name_and_type : NameAndTypeC)
| InvokeDynamic (bootstrap_method_attr_index : Z) (name_and_type : NameAndTypeC)
| Module_ (name : pystr)
| Package (name : pystr).

Global Instance ClassC_eq_dec : EqDecision ClassC.
Proof. solve_decision. Defined.
Global Instance NameAndTypeC_eq_dec : EqDecision NameAndTypeC.
Proof. solve_decision. Defined.
Global Instance ConstantInfo_eq_dec : EqDecision ConstantInfo.
Proof. solve_decision. Defined.

(** [type(c)], when it is one of [CONSTANTS]. *)
Definition variant_of (c : ConstantInfo) : option Variant :=
  match c with
  | Index _ => None
  | UTF8 _ => Some VUTF8
  | Integer _ => Some VInteger
  | Float _ => Some VFloat
  | Long _ => Some VLong
  | Double _ => Some VDouble
  | Class_ _ => Some VClass
  | String_ _ => Some VString
  | FieldRef _ _ => Some VFieldRef
  | MethodRef _ _ => Some VMethodRef
  | InterfaceMethodRef _ _ => Some VInterfaceMethodRef
  | NameAndType _ => Some VNameAndType
  | MethodHandle _ _ => Some VMethodHandle
  | MethodType _ => Some VMethodType
  | Dynamic _ _ => Some VDynamic
  | InvokeDynamic _ _ => Some VInvokeDynamic
  | Module_ _ => Some VModule
  | Package _ => Some VPackage
  end.

(** [c.wide]; [Index] inherits [ConstantInfo.wide = False]. *)
Definition constant_wide (c : ConstantInfo) : bool :=
  match variant_of c with
  | Some v => wide v
  | None => false
  end.

(** [type(c) is Index]. *)
Definition is_Index (c : ConstantInfo) : bool :=
  match c with
  | Index _ => true
  | _ => false
  end.

(** Modelled from the spec: [Constant.__eq__] and [Constant.__hash__] (the
    base class in [kirjava.abc.constant]) are not among the sources; the
    specification fixes them as structural equality on the resolved form,
    which is the equality of [ConstantInfo].  The encoding below makes
    constants usable as dictionary keys. *)
Definition constant_encode_leaf := (Z + list Z)%type.

Fixpoint constant_encode (c : ConstantInfo) : gen_tree constant_encode_leaf :=
  let z (n : Z) := GenLeaf (inl n : constant_encode_leaf) in
  let s (x : pystr) := GenLeaf (inr x : constant_encode_leaf) in
  match c with
  | Index n => GenNode 0 [z n]
  | UTF8 v => GenNode 1 [s v]
  | Integer v => GenNode 2 [z v]
  | Float v => GenNode 3 [z v]
  | Long v => GenNode 4 [z v]
  | Double v => GenNode 5 [z v]
  | Class_ c => GenNode 6 [s (class_name c)]
  | String_ v => GenNode 7 [s v]
  | FieldRef c nt => GenNode 8 [s (class_name c); s (nt_name nt); s (nt_descriptor nt)]
  | MethodRef c nt => GenNode 9 [s (class_name c); s (nt_name nt); s (nt_descriptor nt)]
  | InterfaceMethodRef c nt =>
      GenNode 10 [s (class_name c); s (nt_name nt); s (nt_descriptor nt)]
  | NameAndType nt => GenNode 11 [s (nt_name nt); s (nt_descriptor nt)]
  | MethodHandle k r => GenNode 12 [z k; constant_encode r]
  | MethodType d => GenNode 13 [s d]
  | Dynamic b nt => GenNode 14 [z b; s (nt_name nt); s (nt_descriptor nt)]
  | InvokeDynamic b nt => GenNode 15 [z b; s (nt_name nt); s (nt_descriptor nt)]
  | Module_ n => GenNode 16 [s n]
  | Package n => GenNode 17 [s n]
  end.

Fixpoint constant_decode (t : gen_tree constant_encode_leaf) : option ConstantInfo :=
  match t with
  | GenNode 0 [GenLeaf (inl n)] => Some (Index n)
  | GenNode 1 [GenLeaf (inr v)] => Some (UTF8 v)
  | GenNode 2 [GenLeaf (inl v)] => Some (Integer v)
  | GenNode 3 [GenLeaf (inl v)] => Some (Float v)
  | GenNode 4 [GenLeaf (inl v)] => Some (Long v)
  | GenNode 5 [GenLeaf (inl v)] => Some (Double v)
  | GenNode 6 [GenLeaf (inr n)] => Some (Class_ (mkClass n))
  | GenNode 7 [GenLeaf (inr v)] => Some (String_ v)
  | GenNode 8 [GenLeaf (inr c); GenLeaf (inr n); GenLeaf (inr d)] =>
      Some (FieldRef (mkClass c) (mkNameAndType n d))
  | GenNode 9 [GenLeaf (inr c); GenLeaf (inr n); GenLeaf (inr d)] =>
      Some (MethodRef (mkClass c) (mkNameAndType n d))
  | GenNode 10 [GenLeaf (inr c); GenLeaf (inr n); GenLeaf (inr d)] =>
      Some (InterfaceMethodRef (mkClass c) (mkNameAndType n d))
  | GenNode 11 [GenLeaf (inr n); GenLeaf (inr d)] =>
      Some (NameAndType (mkNameAndType n d))
  | GenNode 12 [GenLeaf (inl k); r] =>
      match constant_decode r with
      | Some r' => Some (MethodHandle k r')
      | None => None
      end
  | GenNode 13 [GenLeaf (inr d)] => Some (MethodType d)
  | GenNode 14 [GenLeaf (inl b); GenLeaf (inr n); GenLeaf (inr d)] =>
      Some (Dynamic b (mkNameAndType n d))
  | GenNode 15 [GenLeaf (inl b); GenLeaf (inr n); GenLeaf (inr d)] =>
      Some (InvokeDynamic b (mkNameAndType n d))
  | GenNode 16 [GenLeaf (inr n)] => Some (Module_ n)
  | GenNode 17 [GenLeaf (inr n)] => Some (Package n)
  | _ => None
  end.

Lemma constant_decode_encode (c : ConstantInfo) :
  constant_decode (constant_encode c) = Some c.
Proof.
  induction c as [| | | | | | [?] | | [?] [??] | [?] [??] | [?] [??] | [??]
                  | k r IH | | ? [??] | ? [??] | |]; simpl; try reflexivity.
  now rewrite IH.
Qed.

Global Instance ConstantInfo_countable : Countable ConstantInfo :=
  inj_countable constant_encode constant_decode constant_decode_encode.

(** What [read] returns for a reference-bearing variant: one pool index, or
    a pair ([unpack_HH] gives two indices, [unpack_BH] a kind and an index). *)
Inductive Info :=
| Info1 (i : Z)
| Info2 (a b : Z).

(** [constant.read(buffer)]: a constant ([isinstance(info, ConstantInfo)]) or
    the info to dereference later, and the buffer after the read. *)
Definition Variant_read (constant : Variant) (buffer : list byte)
  : result ((ConstantInfo + Info) * list byte) :=
  let fixed (n : Z) {A} (unpack : list byte -> result A)
            (make : A -> ConstantInfo + Info) :=
    let '(data, buffer') := buffer_read n buffer in
    do x <- unpack data;
    Ok (make x, buffer') in
  match constant with
  | VUTF8 =>
      do '(value, buffer') <- UTF8_read_value buffer;
      Ok (inl (UTF8 value), buffer')
  | VInteger => fixed 4 unpack_i (fun x => inl (Integer x))
  | VFloat => fixed 4 unpack_f (fun x => inl (Float x))
  | VLong => fixed 8 unpack_q (fun x => inl (Long x))
  | VDouble => fixed 8 unpack_d (fun x => inl (Double x))
  | VClass | VString | VMethodType | VModule | VPackage =>
      fixed 2 unpack_H (fun i => inr (Info1 i))
  | VFieldRef | VMethodRef | VInterfaceMethodRef | VNameAndType
  | VDynamic | VInvokeDynamic =>
      fixed 4 unpack_HH (fun '(a, b) => inr (Info2 a b))
  | VMethodHandle =>
      fixed 3 unpack_BH (fun '(k, r) => inr (Info2 k r))
  end.

(** [info] has the form [constant.read] produces for [constant]. *)
Definition info_shape (constant : Variant) (info : Info) : bool :=
  match constant, info with
  | (VClass | VString | VMethodType | VModule | VPackage), Info1 _ => true
  | (VFieldRef | VMethodRef | VInterfaceMethodRef | VNameAndType
     | VDynamic | VInvokeDynamic | VMethodHandle), Info2 _ _ => true
  | _, _ => false
  end.

(** [constant.dereference(lookups, info)].  [Ok None] is the Python [None]
    ("can't yet be dereferenced"), [Ok (Some c)] the dereferenced constant.
    [KindMismatch] is the [TypeError] of the [isinstance] checks; subscripting
    an integer [info], or looking a tuple [info] up as if it were an index,
    also ends in a [TypeError], and so does the [raise] of
    [MethodHandle.dereference], whose message lacks the [%] operator. *)
Definition dereference (constant : Variant) (lookups : gmap Z ConstantInfo)
    (info : Info) : result (option ConstantInfo) :=
  let utf8_at (i : Z) (k : pystr -> result (option ConstantInfo)) :=
    match lookups !! i with
    | Some (UTF8 value) => k value
    | _ => Err KindMismatch
    end in
  let one_utf8 (make : pystr -> ConstantInfo) :=
    match info with
    | Info1 i => utf8_at i (fun value => Ok (Some (make value)))
    | Info2 _ _ => Err KindMismatch
    end in
  let class_and_name_and_type (make : ClassC -> NameAndTypeC -> ConstantInfo) :=
    match info with
    | Info2 a b =>
        match lookups !! a with
        | None => Ok None
        | Some (Class_ class_) =>
            match lookups !! b with
            | None => Ok None
            | Some (NameAndType name_and_type) =>
                Ok (Some (make class_ name_and_type))
            | Some _ => Err KindMismatch
            end
        | Some _ => Err KindMismatch
        end
    | Info1 _ => Err KindMismatch
    end in
  let index_and_name_and_type (make : Z -> NameAndTypeC -> ConstantInfo) :=
    match info with
    | Info2 a b =>
        match lookups !! b with
        | None => Ok None
        | Some (NameAndType name_and_type) => Ok (Some (make a name_and_type))
        | Some _ => Err KindMismatch
        end
    | Info1 _ => Err KindMismatch
    end in
  match constant with
  | VUTF8 | VInteger | VFloat | VLong | VDouble => Err NotDereferenceable
  | VClass => one_utf8 (fun name => Class_ (mkClass name))
  | VString => one_utf8 String_
  | VMethodType => one_utf8 MethodType
  | VModule => one_utf8 Module_
  | VPackage => one_utf8 Package
  | VNameAndType =>
      match info with
      | Info2 a b =>
          utf8_at a (fun name =>
          utf8_at b (fun descriptor =>
          Ok (Some (NameAndType (mkNameAndType name descriptor)))))
      | Info1 _ => Err KindMismatch
      end
  | VFieldRef => class_and_name_and_type FieldRef
  | VMethodRef => class_and_name_and_type MethodRef
  | VInterfaceMethodRef => class_and_name_and_type InterfaceMethodRef
  | VMethodHandle =>
      match info with
      | Info2 kind r =>
          match lookups !! r with
          | None => Ok None
          | Some ((FieldRef _ _ | MethodRef _ _ | InterfaceMethodRef _ _) as reference) =>
              Ok (Some (MethodHandle kind reference))
          | Some _ => Err KindMismatch
          end
      | Info1 _ => Err KindMismatch
      end
  | VDynamic => index_and_name_and_type Dynamic
  | VInvokeDynamic => index_and_name_and_type InvokeDynamic
  end.

(** ** ConstantPool *)

(** The C integers of the class.  [ConstantPool._index] and [Index.index]
    are declared [cdef int]: 32 bits, two's complement.  Assigning a Python
    [int] to such a field converts it and raises [OverflowError] when it
    does not fit; arithmetic on the field itself ([self._index += 1]) is C
    arithmetic, which wraps around. *)
Definition fits_int (z : Z) : bool := (- 2 ^ 31 <=? z) && (z <? 2 ^ 31).

Definition as_int (z : Z) : result Z :=
  if fits_int z then Ok z else Err Overflow.

Definition wrap_int (z : Z) : Z := (z + 2 ^ 31) mod 2 ^ 32 - 2 ^ 31.

(** [Index(index)]: the constructor stores [index] in a C [int]. *)
Definition Index_init (index : Z) : result ConstantInfo :=
  do i <- as_int index; Ok (Index i).

(** The three fields of the class. *)
Record ConstantPool := mkPool {
  _index : Z;
  _forward_entries : gmap Z ConstantInfo;
  _backward_entries : gmap ConstantInfo Z
}.

(** [ConstantPool.__init__]. *)
Definition ConstantPool_init : ConstantPool :=
  {| _index := 1; _forward_entries := ∅; _backward_entries := ∅ |}.

(** The pair of assignments
    [_forward_entries[offset] = c; _backward_entries[c] = offset]. *)
Definition bind_entry (pool : ConstantPool) (offset : Z) (c : ConstantInfo)
  : ConstantPool :=
  {| _index := _index pool;
     _forward_entries := <[offset := c]> (_forward_entries pool);
     _backward_entries := <[c := offset]> (_backward_entries pool) |}.

Definition set_index (pool : ConstantPool) (index : Z) : ConstantPool :=
  {| _index := index;
     _forward_entries := _forward_entries pool;
     _backward_entries := _backward_entries pool |}.

(** An element of [uncomputed]. *)
Definition entry := (Z * Variant * Info)%type.

(** The variables of the first loop of [ConstantPool.read]. *)
Record read_state := mkReadState {
  rs_pool : ConstantPool;
  rs_uncomputed : list entry;
  rs_offset : Z;
  rs_buffer : list byte
}.

(** The body of [while offset < constants_count]: one tag and one entry. *)
Definition read_entry (version : Version) (s : read_state) : result read_state :=
  match buffer_read 1 (rs_buffer s) with
  | ([t], buffer1) =>
      match _constant_map t with
      | None => Err (UnknownConstantTag t)
      | Some constant =>
          if Version_gt (since constant) version
          then Err (VersionTooLow constant version)
          else
            do '(info, buffer2) <- Variant_read constant buffer1;
            let offset' := rs_offset s + 1 + (if wide constant then 1 else 0) in
            match info with
            | inl c =>
                Ok (mkReadState (bind_entry (rs_pool s) (rs_offset s) c)
                                (rs_uncomputed s) offset' buffer2)
            | inr i =>
                Ok (mkReadState (rs_pool s)
                                (rs_uncomputed s ++ [(rs_offset s, constant, i)])
                                offset' buffer2)
            end
      end
  | _ => Err Truncated
  end.

(** The first loop of [ConstantPool.read].  One unit of [fuel] pays for one
    iteration; [None] means the fuel ran out before the loop ended. *)
Fixpoint read_loop (fuel : nat) (version : Version) (constants_count : Z)
    (s : read_state) : option (result read_state) :=
  if rs_offset s <? constants_count then
    match fuel with
    | O => None
    | S fuel' =>
        match read_entry version s with
        | Err e => Some (Err e)
        | Ok s' => read_loop fuel' version constants_count s'
        end
    end
  else Some (Ok s).

(** The second loop of [ConstantPool.read], [while uncomputed]. *)
Fixpoint fixup_loop (fuel : nat) (constant_pool : ConstantPool)
    (uncomputed : list entry) {struct fuel} : option (result ConstantPool) :=
  match uncomputed with
  | [] => Some (Ok constant_pool)
  | (offset, constant, info) :: rest =>
      match fuel with
      | O => None
      | S fuel' =>
          match dereference constant (_forward_entries constant_pool) info with
          | Err e => Some (Err e)
          | Ok None =>
              fixup_loop fuel' constant_pool (rest ++ [(offset, constant, info)])
          | Ok (Some value) =>
              fixup_loop fuel' (bind_entry constant_pool offset value) rest
          end
      end
  end.

(** [ConstantPool.read(version, buffer)], each loop running on [fuel]. *)
Definition ConstantPool_read (fuel : nat) (version : Version)
    (buffer : list byte) : option (result ConstantPool) :=
  let '(hdr, buffer1) := buffer_read 2 buffer in
  match unpack_H hdr with
  | Err e => Some (Err e)
  | Ok constants_count =>
      match read_loop fuel version constants_count
                      (mkReadState ConstantPool_init [] 1 buffer1) with
      | None => None
      | Some (Err e) => Some (Err e)
      | Some (Ok s) =>
          fixup_loop fuel (set_index (rs_pool s) (rs_offset s)) (rs_uncomputed s)
      end
  end.

(** An argument that is either a [str] or a [ConstantInfo]. *)
Inductive item :=
| Str (s : pystr)
| Const (c : ConstantInfo).

(** [len(pool)]. *)
Definition ConstantPool_len (pool : ConstantPool) : nat :=
  size (_forward_entries pool).

(** [pool[item]] for an integer [item]: the constant of a bound index, a
    new [Index] for a free one. *)
Definition getitem (pool : ConstantPool) (item : Z) : result ConstantInfo :=
  match _forward_entries pool !! item with
  | Some constant => Ok constant
  | None => Index_init item
  end.

(** [pool[index] = item]: the pool after the call, and whether the call
    returned or raised.  An [item] that is no [ConstantInfo] (here: a [str])
    is skipped by the outer [isinstance].  The two dictionaries are written
    first; [self._index = index + 1] then converts a Python [int] and can
    raise, and [self._index += 1] is C arithmetic. *)
Definition setitem_run (pool : ConstantPool) (index : Z) (i : item)
  : ConstantPool * result unit :=
  match i with
  | Const c =>
      if is_Index c then (pool, Ok tt)
      else
        let pool' := bind_entry pool index c in
        if _index pool <=? index then
          match as_int (index + 1) with
          | Err e => (pool', Err e)
          | Ok next =>
              (set_index pool'
                 (if constant_wide c then wrap_int (next + 1) else next),
               Ok tt)
          end
        else (pool', Ok tt)
  | Str _ => (pool, Ok tt)
  end.

(** [pool[index] = item] when it returns: the pool afterwards. *)
Definition setitem (pool : ConstantPool) (index : Z) (i : item)
  : result ConstantPool :=
  do _ <- snd (setitem_run pool index i);
  Ok (fst (setitem_run pool index i)).

(** [pool.get(index, default, do_raise)]. *)
Definition get (pool : ConstantPool) (index : Z) (default : option ConstantInfo)
    (do_raise : bool) : result ConstantInfo :=
  match _forward_entries pool !! index with
  | Some constant => Ok constant
  | None =>
      match default with
      | Some d => Ok d
      | None => if do_raise then Err (IndexUndefined index) else Index_init index
      end
  end.

(** [pool.clear()]. *)
Definition clear (pool : ConstantPool) : ConstantPool := ConstantPool_init.

(** The coercion at the head of [add]: [if type(constant) is str:
    constant = UTF8(constant)]. *)
Definition coerce (constant : item) : ConstantInfo :=
  match constant with
  | Str s => UTF8 s
  | Const c => c
  end.

(** [pool.add(constant)]: the returned index and the pool afterwards. *)
Definition add (pool : ConstantPool) (constant : item) : Z * ConstantPool :=
  match constant with
  | Const (Index n) => (n, pool)
  | _ =>
      let c := coerce constant in
      match _backward_entries pool !! c with
      | Some index => (index, pool)
      | None =>
          let next := wrap_int (_index pool + 1) in
          (_index pool,
           set_index (bind_entry pool (_index pool) c)
                     (if constant_wide c then wrap_int (next + 1) else next))
      end
  end.

Definition add_utf8 (pool : ConstantPool) (value : pystr) := add pool (Str value).
Definition add_class (pool : ConstantPool) (name : pystr) :=
  add pool (Const (Class_ (mkClass name))).
Definition add_string (pool : ConstantPool) (value : pystr) :=
  add pool (Const (String_ value)).

(** The pools a program can hold: the fields are private to the class, so a
    pool is built by the constructor or by [read] and changes through the
    methods only.  A call of [__setitem__] that raised has changed the pool
    all the same. *)
Inductive reachable : ConstantPool -> Prop :=
| reachable_init : reachable ConstantPool_init
| reachable_read fuel version buffer pool :
    ConstantPool_read fuel version buffer = Some (Ok pool) -> reachable pool
| reachable_add pool constant :
    reachable pool -> reachable (snd (add pool constant))
| reachable_setitem pool index i :
    reachable pool -> reachable (fst (setitem_run pool index i))
| reachable_clear pool : reachable pool -> reachable (clear pool).

(** ** InsnBlock *)

Module Block.

(** The instruction classes live in [kirjava.classfile.instructions], which
    the block code imports; what [InsnBlock] asks of them is gathered here. *)
Class InstructionSet := {
  Instruction : Type;
  MetaInstruction : Type;
  (** [meta()]: instantiating an instruction class without operands;
      "should throw at this point, if invalid". *)
  instantiate : MetaInstruction -> result Instruction;
  (** [isinstance(instruction, JumpInstruction)] *)
  is_JumpInstruction : Instruction -> bool;
  (** [isinstance(instruction, ReturnInstruction)] *)
  is_ReturnInstruction : Instruction -> bool;
  (** [instruction == instructions.athrow] *)
  eq_athrow : Instruction -> bool
}.

(** The argument [instruction: Union[MetaInstruction, Instruction]]; any
    other object is refused. *)
Inductive insn_arg {IS : InstructionSet} :=
| Meta (m : MetaInstruction)
| Insn (i : Instruction)
| Other.

Record InsnBlock {IS : InstructionSet} := mkInsnBlock {
  label : Z;
  _instructions : list Instruction;
  inline_ : bool
}.

(** A jump, a return or [athrow]. *)
Definition terminates_control_flow {IS : InstructionSet} (i : Instruction) : bool :=
  is_JumpInstruction i || is_ReturnInstruction i || eq_athrow i.

(** [InsnBlock._check_instruction]. *)
Definition _check_instruction {IS : InstructionSet} (instruction : Instruction)
  : result unit :=
  if is_JumpInstruction instruction then Err IllegalInstruction
  else if is_ReturnInstruction instruction then Err IllegalInstruction
  else if eq_athrow instruction then Err IllegalInstruction
  else Ok tt.

(** The prologue shared by [append] and [insert]. *)
Definition as_instruction {IS : InstructionSet} (instruction : insn_arg)
  : result Instruction :=
  match instruction with
  | Meta m => instantiate m
  | Insn i => Ok i
  | Other => Err NotAnInstruction
  end.

(** The methods of [list] take an index as a [Py_ssize_t] (64 bits): the
    conversion raises [OverflowError] when the [int] does not fit. *)
Definition fits_ssize (z : Z) : bool := (- 2 ^ 63 <=? z) && (z <? 2 ^ 63).

(** [list.insert(index, x)]: the index is converted to a [Py_ssize_t]; a
    negative index counts from the end, and the position is clamped to the
    list. *)
Definition list_insert_py {A} (index : Z) (x : A) (l : list A)
  : result (list A) :=
  if fits_ssize index then
    let n := Z.of_nat (length l) in
    let i := if index <? 0 then Z.max 0 (index + n) else Z.min index n in
    Ok (take (Z.to_nat i) l ++ x :: drop (Z.to_nat i) l)
  else Err Overflow.

Definition set_instructions {IS : InstructionSet} (self : InsnBlock)
    (l : list Instruction) : InsnBlock :=
  {| label := label self; _instructions := l; inline_ := inline_ self |}.

(** [InsnBlock.append(instruction, do_raise)]: the returned instruction and
    the block afterwards. *)
Definition append {IS : InstructionSet} (self : InsnBlock) (instruction : insn_arg)
    (do_raise : bool) : result (Instruction * InsnBlock) :=
  do i <- as_instruction instruction;
  do _ <- (if do_raise then _check_instruction i else Ok tt);
  Ok (i, set_instructions self (_instructions self ++ [i])).

(** [InsnBlock.insert(index, instruction, do_raise)]. *)
Definition insert {IS : InstructionSet} (self : InsnBlock) (index : Z)
    (instruction : insn_arg) (do_raise : bool)
  : result (Instruction * InsnBlock) :=
  do i <- as_instruction instruction;
  do _ <- (if do_raise then _check_instruction i else Ok tt);
  do l <- list_insert_py index i (_instructions self);
  Ok (i, set_instructions self l).

(** The block a caller holds after a call: the mutated one if the call
    returned, the one it had if the call raised. *)
Definition block_after {IS : InstructionSet} (self : InsnBlock)
    (r : result (Instruction * InsnBlock)) : InsnBlock :=
  match r with
  | Ok (_, self') => self'
  | Err _ => self
  end.

End Block.

(** A small instruction set to run the block operations on. *)
Inductive sample_insn := nop | iload (n : Z) | goto (offset : Z) | ireturn | athrow.

Definition sample_instructions : Block.InstructionSet := {|
  Block.Instruction := sample_insn;
  Block.MetaInstruction := sample_insn;
  Block.instantiate := fun m => Ok m;
  Block.is_JumpInstruction := fun i => match i with goto _ => true | _ => false end;
  Block.is_ReturnInstruction := fun i => match i with ireturn => true | _ => false end;
  Block.eq_athrow := fun i => match i with athrow => true | _ => false end
|}.

(** ** Notions used by the properties *)

Definition hello : pystr := [104; 101; 108; 108; 111].

(** Every occupied index lies below [_index]. *)
Definition pool_wf (pool : ConstantPool) : Prop :=
  forall k c, _forward_entries pool !! k = Some c -> k < _index pool.

(** The pool holding the single constant [UTF8] of the letter [a] at index 1. *)
Definition pool_a : ConstantPool := snd (add ConstantPool_init (Str [97])).

(** The pool of the specification's scenario: four narrow constants, so that
    the next free index is 5. *)
Definition pool_5 : ConstantPool :=
  snd (add (snd (add (snd (add (snd (add ConstantPool_init (Str [97])))
    (Str [98]))) (Str [99]))) (Str [100])).

Definition sample_block : @Block.InsnBlock sample_instructions :=
  Block.mkInsnBlock sample_instructions 0 [nop; iload 1] false.

(** [s'] is the state of the first loop of [read] after [n] iterations from
    [s], each of which passed the loop test and returned normally. *)
Inductive reads_to (version : Version) (constants_count : Z)
  : read_state -> nat -> read_state -> Prop :=
| reads_to_here s : reads_to version constants_count s 0 s
| reads_to_next s s1 n s' :
    rs_offset s < constants_count ->
    read_entry version s = Ok s1 ->
    reads_to version constants_count s1 n s' ->
    reads_to version constants_count s (S n) s'.

(** An entry of [uncomputed] that [pool] cannot resolve yet. *)
Definition pending (pool : ConstantPool) (e : entry) : Prop :=
  dereference e.1.2 (_forward_entries pool) e.2 = Ok None.

Definition is_UTF8 (c : ConstantInfo) : bool :=
  match c with UTF8 _ => true | _ => false end.
Definition is_Class (c : ConstantInfo) : bool :=
  match c with Class_ _ => true | _ => false end.
Definition is_NameAndType (c : ConstantInfo) : bool :=
  match c with NameAndType _ => true | _ => false end.
(** [isinstance(c, FieldRef) or isinstance(c, MethodRef)];
    [InterfaceMethodRef] is a subclass of [MethodRef]. *)
Definition is_reference (c : ConstantInfo) : bool :=
  match c with
  | FieldRef _ _ | MethodRef _ _ | InterfaceMethodRef _ _ => true
  | _ => false
  end.

(** The referents a deferred entry requires, as the specification lists them:
    the pool index of each with the kind it must have, in the order in which
    they are needed. *)
Definition required_referents (constant : Variant) (info : Info)
  : list (Z * (ConstantInfo -> bool)) :=
  match constant, info with
  | (VClass | VString | VMethodType | VModule | VPackage), Info1 i => [(i, is_UTF8)]
  | VNameAndType, Info2 a b => [(a, is_UTF8); (b, is_UTF8)]
  | (VFieldRef | VMethodRef | VInterfaceMethodRef), Info2 a b =>
      [(a, is_Class); (b, is_NameAndType)]
  | VMethodHandle, Info2 _ r => [(r, is_reference)]
  | (VDynamic | VInvokeDynamic), Info2 _ r => [(r, is_NameAndType)]
  | _, _ => []
  end.

(** The variants whose referents may still be in the queue when they are
    dereferenced; the referents of the others are [UTF8] constants, which the
    first loop of [read] has all bound. *)
Definition waits_for_referents (constant : Variant) : bool :=
  match constant with
  | VFieldRef | VMethodRef | VInterfaceMethodRef | VMethodHandle
  | VDynamic | VInvokeDynamic => true
  | _ => false
  end.

(** The state of the first required referent that is not a present constant
    of the right kind: absent, or present with the wrong kind. *)
Inductive unmet :=
| Absent
| WrongKind (c : ConstantInfo).

Fixpoint first_unmet (lookups : gmap Z ConstantInfo)
    (referents : list (Z * (ConstantInfo -> bool))) : option unmet :=
  match referents with
  | [] => None
  | (i, kind) :: rest =>
      match lookups !! i with
      | None => Some Absent
      | Some c => if kind c then first_unmet lookups rest else Some (WrongKind c)
      end
  end.

Ltac zdm := Z.to_euclidean_division_equations; lia.

(** Decide the integer comparisons of the goal, discarding the branches the
    hypotheses exclude. *)
Ltac cmp_cases :=
  repeat match goal with
         | |- context [?a <? ?b] => destruct (Z.ltb_spec a b); try (exfalso; zdm)
         | |- context [?a <=? ?b] => destruct (Z.leb_spec a b); try (exfalso; zdm)
         | |- context [?a =? ?b] => destruct (Z.eqb_spec a b); try (exfalso; zdm)
         end.

Definition valid_cp (c : Z) : Prop := is_code_point c /\ is_surrogate c = false.

(** The string of 65536 letters [a]. *)
Definition long_string : pystr := replicate (Z.to_nat 65536) 97.

(** ** Further operations of the pool *)

(** The exceptions of the operations below that the error taxonomy does not
    name. *)
Inductive exception :=
| Core (e : error)
| KeyError_offset (offset : Z)
    (* self._forward_entries[offset] on an unbound offset *)
| KeyError_constant (c : ConstantInfo)
    (* self._backward_entries[item] on an unknown constant *)
| BadKey
    (* TypeError("Type %r is not a valid index for %r.") *)
| NotInPool (index : Z)
    (* ValueError("Index %i not in constant pool.") *)
| NotUTF8 (index : Z)
    (* TypeError("Index %i is not a valid UTF-8 constant.") *)
| BadTagByte
    (* ValueError of bytes((constant.tag,)) for the tag -1 *)
| ListIndexError.
    (* IndexError of list indexing, assignment, deletion and pop *)

Inductive outcome (A : Type) :=
| Returns (a : A)
| Raises (e : exception).
Arguments Returns {A} a.
Arguments Raises {A} e.

(** A subscript or membership operand: an [int], a [ConstantInfo], or an
    object of another type. *)
Inductive key :=
| KInt (i : Z)
| KConst (c : ConstantInfo)
| KOther.

(** [item in pool]. *)
Definition contains (pool : ConstantPool) (item : key) : bool :=
  match item with
  | KInt i => bool_decide (is_Some (_forward_entries pool !! i))
  | KConst c => bool_decide (is_Some (_backward_entries pool !! c))
  | KOther => false
  end.

(** [pool[item]] in full: a constant for an index, an index for a constant. *)
Definition getitem_key (pool : ConstantPool) (item : key)
  : outcome (ConstantInfo + Z) :=
  match item with
  | KInt i =>
      match getitem pool i with
      | Ok c => Returns (inl c)
      | Err e => Raises (Core e)
      end
  | KConst (Index n) => Returns (inr n)
  | KConst c =>
      match _backward_entries pool !! c with
      | Some index => Returns (inr index)
      | None => Raises (KeyError_constant c)
      end
  | KOther => Raises BadKey
  end.

(** [pool.get_utf8(index, default)]. *)
Definition get_utf8 (pool : ConstantPool) (index : Z) (default : option pystr)
  : outcome pystr :=
  match _forward_entries pool !! index with
  | None =>
      match default with
      | Some d => Returns d
      | None => Raises (NotInPool index)
      end
  | Some (UTF8 value) => Returns value
  | Some _ =>
      match default with
      | Some d => Returns d
      | None => Raises (NotUTF8 index)
      end
  end.

(** Modelled from the spec: the packers of [kirjava.classfile._struct], the
    counterparts of the unpackers above.  [be_bytes n u] is the big-endian
    form of [u] on [n] bytes. *)
Fixpoint be_bytes (n : nat) (u : Z) : list byte :=
  match n with
  | O => []
  | S k => be_bytes k (u / 256) ++ [u mod 256]
  end.

Definition pack_HH (a b : Z) : result (list byte) :=
  do x <- pack_H a;
  do y <- pack_H b;
  Ok (x ++ y).

Definition pack_BH (k a : Z) : result (list byte) :=
  if (0 <=? k) && (k <=? 255)
  then do y <- pack_H a; Ok (k :: y)
  else Err PackRange.

Definition pack_i (v : Z) : result (list byte) :=
  if (- 2 ^ 31 <=? v) && (v <? 2 ^ 31)
  then Ok (be_bytes 4 (v mod 2 ^ 32))
  else Err PackRange.

Definition pack_q (v : Z) : result (list byte) :=
  if (- 2 ^ 63 <=? v) && (v <? 2 ^ 63)
  then Ok (be_bytes 8 (v mod 2 ^ 64))
  else Err PackRange.

Definition pack_f (bits : Z) : result (list byte) :=
  if (0 <=? bits) && (bits <? 2 ^ 32) then Ok (be_bytes 4 bits) else Err PackRange.

Definition pack_d (bits : Z) : result (list byte) :=
  if (0 <=? bits) && (bits <? 2 ^ 64) then Ok (be_bytes 8 bits) else Err PackRange.

(** [constant.write(class_file, buffer)], [class_file.constant_pool] being
    [pool]: the pool and the buffer afterwards.  The arguments of a packer are
    evaluated from left to right, so the referents are added in that order.
    [Index.write] does nothing. *)
Definition constant_write (constant : ConstantInfo) (pool : ConstantPool)
    (buffer : list byte) : result (ConstantPool * list byte) :=
  let emit (pool' : ConstantPool) (packed : result (list byte)) :=
    do data <- packed; Ok (pool', buffer ++ data) in
  let utf8_index (s : pystr) :=
    let '(i, pool') := add_utf8 pool s in emit pool' (pack_H i) in
  let class_and_name_and_type (class_ : ClassC) (name_and_type : NameAndTypeC) :=
    let '(i, pool1) := add pool (Const (Class_ class_)) in
    let '(j, pool2) := add pool1 (Const (NameAndType name_and_type)) in
    emit pool2 (pack_HH i j) in
  let index_and_name_and_type (b : Z) (name_and_type : NameAndTypeC) :=
    let '(j, pool1) := add pool (Const (NameAndType name_and_type)) in
    emit pool1 (pack_HH b j) in
  match constant with
  | Index _ => Ok (pool, buffer)
  | UTF8 value => do buffer' <- UTF8_write value buffer; Ok (pool, buffer')
  | Integer value => emit pool (pack_i value)
  | Float bits => emit pool (pack_f bits)
  | Long value => emit pool (pack_q value)
  | Double bits => emit pool (pack_d bits)
  | Class_ c => utf8_index (class_name c)
  | String_ value => utf8_index value
  | MethodType d => utf8_index d
  | Module_ name => utf8_index name
  | Package name => utf8_index name
  | NameAndType nt =>
      let '(i, pool1) := add_utf8 pool (nt_name nt) in
      let '(j, pool2) := add_utf8 pool1 (nt_descriptor nt) in
      emit pool2 (pack_HH i j)
  | FieldRef c nt => class_and_name_and_type c nt
  | MethodRef c nt => class_and_name_and_type c nt
  | InterfaceMethodRef c nt => class_and_name_and_type c nt
  | MethodHandle kind reference =>
      let '(i, pool1) := add pool (Const reference) in
      emit pool1 (pack_BH kind i)
  | Dynamic b nt => index_and_name_and_type b nt
  | InvokeDynamic b nt => index_and_name_and_type b nt
  end.

(** [bytes((constant.tag,))]: one byte, unless the tag is the [-1] that
    [Index] inherits. *)
Definition tag_byte (constant : ConstantInfo) : outcome (list byte) :=
  match variant_of constant with
  | Some v => Returns [tag v]
  | None => Raises BadTagByte
  end.

(** The loop of [ConstantPool.write], [while offset < self._index]; the test
    reads [_index] anew on every pass, after the writes that may have added
    referents to the pool.  [offset] is a C [int] like [_index]: being below
    [_index] when it is advanced, it leaves the C [int] only past a wide
    constant at index 2^31 - 2, the last index but one, which the loop
    reaches only after writing a pool of 2^30 constants or more. *)
Fixpoint write_loop (fuel : nat) (pool : ConstantPool) (offset : Z)
    (buffer : list byte) : option (outcome (ConstantPool * Z * list byte)) :=
  if offset <? _index pool then
    match fuel with
    | O => None
    | S fuel' =>
        match _forward_entries pool !! offset with
        | None => Some (Raises (KeyError_offset offset))
        | Some constant =>
            match tag_byte constant with
            | Raises e => Some (Raises e)
            | Returns t =>
                match constant_write constant pool (buffer ++ t) with
                | Err e => Some (Raises (Core e))
                | Ok (pool', buffer') =>
                    write_loop fuel' pool'
                      (offset + 1 + (if constant_wide constant then 1 else 0))
                      buffer'
                end
            end
        end
    end
  else Some (Returns (pool, offset, buffer)).

(** [pool.write(class_file, buffer)], the cursor of [buffer] standing at its
    end: two placeholder bytes, the entries, then the placeholder overwritten
    with the final offset. *)
Definition ConstantPool_write (fuel : nat) (pool : ConstantPool)
    (buffer : list byte) : option (outcome (ConstantPool * list byte)) :=
  let start := length buffer in
  match write_loop fuel pool 1 (buffer ++ [0x00; 0x00]) with
  | None => None
  | Some (Raises e) => Some (Raises e)
  | Some (Returns (pool', offset, written)) =>
      match pack_H offset with
      | Err e => Some (Raises (Core e))
      | Ok count =>
          Some (Returns (pool', take start written ++ count
                                ++ drop (start + 2)%nat written))
      end
  end.

(** The pools built without [__setitem__]: by the constructor, [read],
    [clear], and calls of [add] made while [_index] is below 2^31 - 2, so
    that the C [int] does not wrap around. *)
Inductive built : ConstantPool -> Prop :=
| built_init : built ConstantPool_init
| built_read fuel version buffer pool :
    ConstantPool_read fuel version buffer = Some (Ok pool) -> built pool
| built_add pool constant :
    built pool -> _index pool + 2 < 2 ^ 31 -> built (snd (add pool constant))
| built_clear pool : built pool -> built (clear pool).

(** ** Further operations of the block *)

Module BlockItems.
Import Block.

(** The position a list of length [n] gives to the index [i]: negative
    indices count from the end; [None] when out of range. *)
Definition list_index (n : nat) (i : Z) : option nat :=
  if (0 <=? i) && (i <? Z.of_nat n) then Some (Z.to_nat i)
  else if (- Z.of_nat n <=? i) && (i <? 0) then Some (Z.to_nat (i + Z.of_nat n))
  else None.

(** [len(block)]. *)
Definition len {IS : InstructionSet} (self : InsnBlock) : nat :=
  length (_instructions self).

(** [block[item]] for an integer [item]. *)
Definition getitem {IS : InstructionSet} (self : InsnBlock) (item : Z)
  : outcome Instruction :=
  match list_index (len self) item with
  | Some k =>
      match _instructions self !! k with
      | Some i => Returns i
      | None => Raises ListIndexError
      end
  | None => Raises ListIndexError
  end.

(** [block[key] = value] for an integer [key]: the value is checked
    unconditionally, then assigned. *)
Definition setitem {IS : InstructionSet} (self : InsnBlock) (key : Z)
    (value : insn_arg) : outcome InsnBlock :=
  match as_instruction value with
  | Err e => Raises (Core e)
  | Ok i =>
      match _check_instruction i with
      | Err e => Raises (Core e)
      | Ok _ =>
          match list_index (len self) key with
          | Some k => Returns (set_instructions self (<[k := i]> (_instructions self)))
          | None => Raises ListIndexError
          end
      end
  end.

(** [del block[item]] for an integer [item]. *)
Definition delitem {IS : InstructionSet} (self : InsnBlock) (item : Z)
  : outcome InsnBlock :=
  match list_index (len self) item with
  | Some k => Returns (set_instructions self (delete k (_instructions self)))
  | None => Raises ListIndexError
  end.

(** [block.pop(index)]: [list.pop] converts its index to a [Py_ssize_t], as
    [list.insert] does. *)
Definition pop {IS : InstructionSet} (self : InsnBlock) (index : Z)
  : outcome (Instruction * InsnBlock) :=
  if fits_ssize index then
    match list_index (len self) index with
    | Some k =>
        match _instructions self !! k with
        | Some i => Returns (i, set_instructions self (delete k (_instructions self)))
        | None => Raises ListIndexError
        end
    | None => Raises ListIndexError
    end
  else Raises (Core Overflow).

(** [block.clear()]. *)
Definition clear {IS : InstructionSet} (self : InsnBlock) : InsnBlock :=
  set_instructions self [].

End BlockItems.

(** ** Notions used by the further properties *)

(** What the pools built without [__setitem__] keep: [_index] is at least 1,
    occupied indices lie in [1, _index), and a constant recorded in the
    backward dictionary sits at its index in the forward one. *)
Definition pool_sound (pool : ConstantPool) : Prop :=
  1 <= _index pool
  /\ (forall k c, _forward_entries pool !! k = Some c -> 1 <= k < _index pool)
  /\ (forall c i, _backward_entries pool !! c = Some i ->
        _forward_entries pool !! i = Some c).

(** The queue of the fix-up loop waits for free offsets of the pool below
    [bound], each queued once. *)
Definition queue_fresh (pool : ConstantPool) (bound : Z) (uncomputed : list entry)
  : Prop :=
  Forall (fun e : entry =>
            1 <= e.1.1 < bound /\ _forward_entries pool !! e.1.1 = None)
         uncomputed
  /\ NoDup (map (fun e : entry => e.1.1) uncomputed).

Definition read_state_sound (s : read_state) : Prop :=
  pool_sound (set_index (rs_pool s) (rs_offset s))
  /\ queue_fresh (rs_pool s) (rs_offset s) (rs_uncomputed s).

(** A constant of a variant that the class-file version [version] has. *)
Definition supported (version : Version) (c : ConstantInfo) : Prop :=
  exists v, variant_of c = Some v /\ Version_gt (since v) version = false.

(** The queued entries come from [read]: their variant is one of [version]
    and their info has the form that variant reads. *)
Definition queue_read (version : Version) (uncomputed : list entry) : Prop :=
  Forall (fun e : entry =>
            Version_gt (since e.1.2) version = false
            /\ info_shape e.1.2 e.2 = true)
         uncomputed.

(** The errors [ConstantPool.read] can raise. *)
Definition read_error (e : error) : Prop :=
  e = Truncated
  \/ (exists t, e = UnknownConstantTag t /\ forall v, tag v <> t)
  \/ (exists v version, e = VersionTooLow v version
                        /\ Version_gt (since v) version = true)
  \/ e = KindMismatch.

(** The pool indices a queued entry requires. *)
Definition awaited (e : entry) : list Z :=
  map fst (required_referents e.1.2 e.2).

(** The references of the queue are well founded: every index an entry
    requires is bound already, or is the offset of a queued entry of
    strictly smaller rank. *)
Definition ranked (pool : ConstantPool) (uncomputed : list entry)
    (rank : Z -> nat) : Prop :=
  forall e, e ∈ uncomputed ->
  forall i, i ∈ awaited e ->
    is_Some (_forward_entries pool !! i)
    \/ exists e', e' ∈ uncomputed /\ e'.1.1 = i /\ (rank i < rank e.1.1)%nat.

(** The constants [read] resolves at once and whose payload is an integer or
    a string of code points. *)
Definition exact_primitive (c : ConstantInfo) : Prop :=
  match c with
  | UTF8 s => Forall is_code_point s
  | Integer _ | Long _ => True
  | _ => False
  end.

(** The reference-bearing constants, a [MethodHandle] holding one of the
    three kinds of reference. *)
Definition reference_bearing (c : ConstantInfo) : bool :=
  match c with
  | Class_ _ | String_ _ | MethodType _ | Module_ _ | Package _
  | NameAndType _ | FieldRef _ _ | MethodRef _ _ | InterfaceMethodRef _ _
  | Dynamic _ _ | InvokeDynamic _ _ => true
  | MethodHandle _ reference => is_reference reference
  | _ => false
  end.

(** The tags of [CONSTANTS]. *)
Definition known_tags : list Z := map tag CONSTANTS.

(** The number of payload bytes [read] asks for, for the classes whose
    payload has a fixed width. *)
Definition payload_width (v : Variant) : option nat :=
  match v with
  | VUTF8 => None
  | VInteger | VFloat => Some 4%nat
  | VLong | VDouble => Some 8%nat
  | VClass | VString | VMethodType | VModule | VPackage => Some 2%nat
  | VMethodHandle => Some 3%nat
  | _ => Some 4%nat
  end.

(** The slots follow one another: the slot after a bound constant (two
    further for a wide one) and after a queued offset is bound, queued, or
    the bound [next] itself, and so is slot 1. *)
Definition layout (forward : gmap Z ConstantInfo) (queued : list Z) (next : Z)
  : Prop :=
  (forall k c, forward !! k = Some c ->
     let n := k + 1 + (if constant_wide c then 1 else 0) in
     n = next \/ is_Some (forward !! n) \/ n ∈ queued)
  /\ (forall q, q ∈ queued ->
        q + 1 = next \/ is_Some (forward !! (q + 1)) \/ q + 1 ∈ queued)
  /\ (1 = next \/ is_Some (forward !! 1) \/ 1 ∈ queued).

(** [pool'] comes from [pool] by calls of [add] made while [_index] is
    below 2^31 - 2. *)
Inductive grown (pool : ConstantPool) : ConstantPool -> Prop :=
| grown_refl : grown pool pool
| grown_add pool' constant :
    grown pool pool' -> _index pool' + 2 < 2 ^ 31 ->
    grown pool (snd (add pool' constant)).

(** The offsets of the queued entries. *)
Definition queued_offsets (uncomputed : list entry) : list Z :=
  map (fun e : entry => e.1.1) uncomputed.

(** The offsets met when walking the slots from 1: past a bound constant
    (two further for a wide one) and past a queued offset. *)
Inductive on_chain (forward : gmap Z ConstantInfo) (queued : list Z) : Z -> Prop :=
| on_chain_first : on_chain forward queued 1
| on_chain_bound k c :
    on_chain forward queued k -> forward !! k = Some c ->
    on_chain forward queued (k + 1 + (if constant_wide c then 1 else 0))
| on_chain_queued k :
    on_chain forward queued k -> k ∈ queued ->
    on_chain forward queued (k + 1).

(** Every slot in use, and the bound [next], is met on that walk. *)
Definition chained (forward : gmap Z ConstantInfo) (queued : list Z) (next : Z)
  : Prop :=
  on_chain forward queued next
  /\ forall k, is_Some (forward !! k) \/ k ∈ queued -> on_chain forward queued k.

(** The constants the round trip of [write] and [read] covers. *)
Definition writable (c : ConstantInfo) : Prop :=
  exact_primitive c \/ reference_bearing c = true.

(** [body] holds the entries of the slots [slots] of [forward], from
    [offset] up to [next], as [read] takes them: the tag, then bytes that
    [read] of the class turns into the constant of the slot, or into an info
    that dereferences to it. *)
Inductive encoded (forward : gmap Z ConstantInfo) (next : Z)
  : Z -> list Z -> list byte -> Prop :=
| encoded_end : encoded forward next next [] []
| encoded_entry offset c v data r slots body :
    offset < next ->
    forward !! offset = Some c ->
    variant_of c = Some v ->
    (forall rest, Variant_read v (data ++ rest) = Ok (r, rest)) ->
    (r = inl c
     \/ exists info, r = inr info /\ dereference v forward info = Ok (Some c)) ->
    encoded forward next (offset + 1 + (if constant_wide c then 1 else 0))
            slots body ->
    encoded forward next offset (offset :: slots) (tag v :: data ++ body).

(** A queued entry that dereferences, against [forward], to the constant
    [forward] has at its offset. *)
Definition entry_agrees (forward : gmap Z ConstantInfo) (e : entry) : Prop :=
  exists c, forward !! e.1.1 = Some c
            /\ dereference e.1.2 forward e.2 = Ok (Some c).

(** The pool and the queue of [read] hold nothing but what [forward] has. *)
Definition agrees (forward : gmap Z ConstantInfo) (pool : ConstantPool)
    (uncomputed : list entry) : Prop :=
  (forall k c, _forward_entries pool !! k = Some c -> forward !! k = Some c)
  /\ Forall (entry_agrees forward) uncomputed.

(** Slot [k] is bound in the pool or queued. *)
Definition held (pool : ConstantPool) (uncomputed : list entry) (k : Z) : Prop :=
  is_Some (_forward_entries pool !! k) \/ k ∈ queued_offsets uncomputed.

(** [agrees], and every slot of [forward] is held. *)
Definition agrees_fully (forward : gmap Z ConstantInfo) (pool : ConstantPool)
    (uncomputed : list entry) : Prop :=
  agrees forward pool uncomputed
  /\ forall k, is_Some (forward !! k) -> held pool uncomputed k.

(** How deep the references of a class go: a [MethodHandle] names a
    reference, which names a [Class] and a [NameAndType], which name [UTF8]
    constants. *)
Definition variant_level (v : Variant) : nat :=
  match v with
  | VUTF8 | VInteger | VFloat | VLong | VDouble => 0
  | VClass | VString | VMethodType | VModule | VPackage | VNameAndType => 1
  | VFieldRef | VMethodRef | VInterfaceMethodRef | VDynamic | VInvokeDynamic => 2
  | VMethodHandle => 3
  end.

Definition slot_rank (forward : gmap Z ConstantInfo) (k : Z) : nat :=
  match forward !! k with
  | Some c => match variant_of c with Some v => variant_level v | None => 0 end
  | None => 0
  end.

(** The invariants of [read] taken together. *)
Definition read_state_chained (s : read_state) : Prop :=
  read_state_sound s
  /\ chained (_forward_entries (rs_pool s)) (queued_offsets (rs_uncomputed s))
             (rs_offset s).

Definition fixup_chained (pool : ConstantPool) (uncomputed : list entry) : Prop :=
  (pool_sound pool /\ queue_fresh pool (_index pool) uncomputed)
  /\ chained (_forward_entries pool) (queued_offsets uncomputed) (_index pool).


(** Modelled from the spec: the descriptor parser of
    [kirjava.classfile.descriptor] is not among the sources; the
    specification takes it as a pure function.  [Class.__init__] runs it on
    a name that starts with an opening square bracket, and on no other
    name. *)
Definition plain_class_name (name : pystr) : bool := negb (starts_with [91] name).

(** The constants that [write] of a constant adds to the pool, which are
    those [dereference] builds it from. *)
Definition referents (c : ConstantInfo) : list ConstantInfo :=
  match c with
  | Class_ class_ => [UTF8 (class_name class_)]
  | String_ s | MethodType s | Module_ s | Package s => [UTF8 s]
  | NameAndType nt => [UTF8 (nt_name nt); UTF8 (nt_descriptor nt)]
  | FieldRef class_ nt | MethodRef class_ nt | InterfaceMethodRef class_ nt =>
      [Class_ class_; NameAndType nt]
  | MethodHandle _ reference => [reference]
  | Dynamic _ nt | InvokeDynamic _ nt => [NameAndType nt]
  | _ => []
  end.

(** Every constant of the pool, and every constant it refers to, has an
    index in the backward dictionary. *)
Definition closed (pool : ConstantPool) : Prop :=
  forall k c, _forward_entries pool !! k = Some c ->
  forall r, r ∈ c :: referents c -> is_Some (_backward_entries pool !! r).

(** [InsnBlock(label, instructions_)]; the instructions given to the
    constructor are not checked. *)
Definition InsnBlock_init {IS : Block.InstructionSet} (label : Z)
    (instructions_ : option (list Block.Instruction)) : Block.InsnBlock :=
  Block.mkInsnBlock IS label (default [] instructions_) false.

(** The blocks obtained from [InsnBlock(label)] through [append] and
    [insert] under the default [do_raise=True], item assignment, item
    deletion, [pop] and [clear]. *)
Inductive checked {IS : Block.InstructionSet} : Block.InsnBlock -> Prop :=
| checked_init label : checked (InsnBlock_init label None)
| checked_append b arg i b' :
    checked b -> Block.append b arg true = Ok (i, b') -> checked b'
| checked_insert b index arg i b' :
    checked b -> Block.insert b index arg true = Ok (i, b') -> checked b'
| checked_setitem b key arg b' :
    checked b -> BlockItems.setitem b key arg = Returns b' -> checked b'
| checked_delitem b item b' :
    checked b -> BlockItems.delitem b item = Returns b' -> checked b'
| checked_pop b index i b' :
    checked b -> BlockItems.pop b index = Returns (i, b') -> checked b'
| checked_clear b : checked b -> checked (BlockItems.clear b).

(* ===================================================================== *)
(** * Part II: properties                                                 *)
(* ===================================================================== *)

(** ** C integers *)

Lemma fits_int_spec z : fits_int z = true <-> - 2 ^ 31 <= z < 2 ^ 31.
Proof. unfold fits_int. rewrite andb_true_iff, Z.leb_le, Z.ltb_lt. tauto. Qed.

Lemma as_int_fits z : - 2 ^ 31 <= z < 2 ^ 31 -> as_int z = Ok z.
Proof. intros H. unfold as_int. now rewrite (proj2 (fits_int_spec z) H). Qed.

Lemma as_int_overflow z : 2 ^ 31 <= z -> as_int z = Err Overflow.
Proof.
  intros H. unfold as_int. destruct (fits_int z) eqn:E; [| reflexivity].
  apply fits_int_spec in E. lia.
Qed.

Lemma wrap_int_fits z : - 2 ^ 31 <= z < 2 ^ 31 -> wrap_int z = z.
Proof. intros H. unfold wrap_int. rewrite Z.mod_small; lia. Qed.

Lemma wrap_int_range z : - 2 ^ 31 <= wrap_int z < 2 ^ 31.
Proof. unfold wrap_int. pose proof (Z.mod_pos_bound (z + 2 ^ 31) (2 ^ 32)). lia. Qed.

(** ** ConstantPool: lookups and mutation *)

Lemma getitem_empty pool index :
  _forward_entries pool !! index = None ->
  - 2 ^ 31 <= index < 2 ^ 31 ->
  getitem pool index = Ok (Index index).
Proof.
  unfold getitem, Index_init. intros -> H. now rewrite (as_int_fits _ H).
Qed.

Lemma getitem_bound pool index c :
  _forward_entries pool !! index = Some c -> getitem pool index = Ok c.
Proof. unfold getitem. now intros ->. Qed.

Lemma constant_wide_Long_Double c :
  constant_wide c = true <-> (exists v, c = Long v) \/ (exists v, c = Double v).
Proof.
  split.
  - destruct c; simpl; try discriminate; eauto.
  - intros [[v ->] | [v ->]]; reflexivity.
Qed.

(** *** The occupancy invariant *)

Lemma pool_wf_init : pool_wf ConstantPool_init.
Proof. intros k c H. simpl in H. now rewrite lookup_empty in H. Qed.

Lemma pool_wf_bind_entry pool offset c index :
  pool_wf pool -> _index pool <= index -> offset < index ->
  pool_wf (set_index (bind_entry pool offset c) index).
Proof.
  intros Hwf Hle Hlt k c' H. simpl in *.
  destruct (decide (offset = k)) as [-> | Hne].
  - exact Hlt.
  - rewrite lookup_insert_ne in H by exact Hne.
    specialize (Hwf _ _ H). lia.
Qed.

(** *** [get] *)

(** C10: on an empty slot, [get] with a default that is not [None] returns
    the default whatever [do_raise] is; [do_raise] decides only when no
    default is given, between raising and the [Index] sentinel (which, as a
    C [int], exists for an index of 32 bits only). *)
Theorem get_default_precedes_do_raise pool index :
  _forward_entries pool !! index = None ->
  (forall d do_raise, get pool index (Some d) do_raise = Ok d)
  /\ get pool index None true = Err (IndexUndefined index)
  /\ get pool index None false
     = (if fits_int index then Ok (Index index) else Err Overflow).
Proof. intros H. unfold get, Index_init, as_int. rewrite H. now destruct (fits_int index). Qed.

Lemma get_default_precedes_do_raise_witness :
  get ConstantPool_init 3 (Some (Integer 7)) true = Ok (Integer 7).
Proof.
  apply (proj1 (get_default_precedes_do_raise ConstantPool_init 3 ltac:(reflexivity))).
Defined.

(** *** [__setitem__] *)

Lemma setitem_run_Const pool index c :
  is_Index c = false ->
  setitem_run pool index (Const c) =
    if _index pool <=? index then
      match as_int (index + 1) with
      | Err e => (bind_entry pool index c, Err e)
      | Ok next =>
          (set_index (bind_entry pool index c)
             (if constant_wide c then wrap_int (next + 1) else next),
           Ok tt)
      end
    else (bind_entry pool index c, Ok tt).
Proof. intros Hc. unfold setitem_run. now rewrite Hc. Qed.

(** Whether it returns or raises, [pool[index] = c] has written both
    dictionaries. *)
Lemma setitem_run_entries pool index c :
  is_Index c = false ->
  _forward_entries (fst (setitem_run pool index (Const c)))
    = <[index := c]> (_forward_entries pool)
  /\ _backward_entries (fst (setitem_run pool index (Const c)))
     = <[c := index]> (_backward_entries pool).
Proof.
  intros Hc. rewrite setitem_run_Const by exact Hc.
  destruct (_index pool <=? index); [| now split].
  destruct (as_int (index + 1)); now split.
Qed.

(** C2, refuted as stated: index 1 of [pool_a] is bound to a resolved
    constant, yet assigning another non-Index constant to it returns
    normally and rebinds the slot. *)
Lemma setitem_rebinds_occupied_slot :
  _forward_entries pool_a !! 1 = Some (UTF8 [97])
  /\ is_Index (UTF8 [98]) = false
  /\ setitem pool_a 1 (Const (UTF8 [98])) <> Err (SlotOccupied 1)
  /\ exists pool',
       setitem pool_a 1 (Const (UTF8 [98])) = Ok pool'
       /\ getitem pool' 1 = Ok (UTF8 [98])
       /\ pool' <> pool_a.
Proof.
  split; [reflexivity |]. split; [reflexivity |]. split; [discriminate |].
  eexists. split; [reflexivity |]. split; [reflexivity |].
  intros H. apply (f_equal (fun p => _forward_entries p !! 1)) in H.
  vm_compute in H. discriminate.
Qed.

(** C2, as the code has it: [pool[index] = c] on an index bound to a
    resolved constant does not fail with [SlotOccupied].  For a constant [c]
    other than an [Index] it rebinds [index] to [c] in both dictionaries and
    leaves every other index as it was.  When [index] is below [_index] the
    call returns and [_index] stays; the one exception the call can raise is
    the [OverflowError] of an index that is not below [_index] and whose
    successor does not fit the C [int]. *)
Theorem setitem_binds pool index old c :
  _forward_entries pool !! index = Some old ->
  is_Index c = false ->
  let after := fst (setitem_run pool index (Const c)) in
  _forward_entries after !! index = Some c
  /\ _backward_entries after !! c = Some index
  /\ (forall j, j <> index ->
        _forward_entries after !! j = _forward_entries pool !! j)
  /\ (forall e, setitem pool index (Const c) = Err e ->
        e = Overflow /\ _index pool <= index /\ fits_int (index + 1) = false)
  /\ (index < _index pool ->
        setitem pool index (Const c) = Ok after /\ _index after = _index pool).
Proof.
  intros _ Hc. cbv zeta.
  destruct (setitem_run_entries pool index c Hc) as [Hfw Hbw].
  rewrite Hfw, Hbw, !lookup_insert_eq.
  split; [reflexivity |]. split; [reflexivity |].
  split; [intros j Hj; now rewrite lookup_insert_ne by congruence |].
  unfold setitem. rewrite setitem_run_Const by exact Hc.
  destruct (Z.leb_spec (_index pool) index) as [Hle | Hlt].
  - unfold as_int. destruct (fits_int (index + 1)) eqn:Hfit; simpl.
    + split; [discriminate | intros; lia].
    + split; [| intros; lia].
      intros e [= <-]. auto.
  - simpl. split; [discriminate |]. intros _. split; reflexivity.
Qed.

Lemma setitem_binds_witness :
  exists pool',
    setitem pool_a 1 (Const (UTF8 [98])) = Ok pool'
    /\ _forward_entries pool' !! 1 = Some (UTF8 [98]).
Proof.
  destruct (setitem_binds pool_a 1 (UTF8 [97]) (UTF8 [98])
              ltac:(reflexivity) ltac:(reflexivity))
    as (H1 & _ & _ & _ & H5).
  destruct H5 as [H5 _]; [reflexivity |].
  eexists. split; [exact H5 | exact H1].
Defined.

(** *** [add] *)

Lemma add_Index pool n : add pool (Const (Index n)) = (n, pool).
Proof. reflexivity. Qed.

Lemma add_not_Index pool constant :
  is_Index (coerce constant) = false ->
  add pool constant =
    match _backward_entries pool !! coerce constant with
    | Some index => (index, pool)
    | None =>
        (_index pool,
         set_index (bind_entry pool (_index pool) (coerce constant))
           (if constant_wide (coerce constant)
            then wrap_int (wrap_int (_index pool + 1) + 1)
            else wrap_int (_index pool + 1)))
    end.
Proof. destruct constant as [s | c]; [reflexivity |]. now destruct c. Qed.

(** While [_index] stays within the C [int], [add] advances it by one, or
    by two for a wide constant. *)
Lemma add_in_range pool constant :
  is_Index (coerce constant) = false ->
  - 2 ^ 31 <= _index pool -> _index pool + 2 < 2 ^ 31 ->
  add pool constant =
    match _backward_entries pool !! coerce constant with
    | Some index => (index, pool)
    | None =>
        (_index pool,
         set_index (bind_entry pool (_index pool) (coerce constant))
           (_index pool + 1 + (if constant_wide (coerce constant) then 1 else 0)))
    end.
Proof.
  intros Hi Hlo Hhi. rewrite add_not_Index by exact Hi.
  destruct (_backward_entries pool !! coerce constant); [reflexivity |].
  rewrite (wrap_int_fits (_index pool + 1)) by lia.
  rewrite (wrap_int_fits (_index pool + 1 + 1)) by lia.
  destruct (constant_wide (coerce constant)); do 2 f_equal; lia.
Qed.

Lemma pool_wf_add pool constant :
  pool_wf pool -> - 2 ^ 31 <= _index pool -> _index pool + 2 < 2 ^ 31 ->
  pool_wf (snd (add pool constant)).
Proof.
  intros Hwf Hlo Hhi. destruct (is_Index (coerce constant)) eqn:Hi.
  { destruct constant as [s | c]; [discriminate |]. destruct c; try discriminate.
    exact Hwf. }
  rewrite add_in_range by assumption.
  destruct (_backward_entries pool !! coerce constant); simpl; [exact Hwf |].
  apply pool_wf_bind_entry; [exact Hwf | |];
    destruct (constant_wide (coerce constant)); lia.
Qed.

Lemma add_records pool constant :
  is_Index (coerce constant) = false ->
  _backward_entries (snd (add pool constant)) !! coerce constant
    = Some (fst (add pool constant)).
Proof.
  intros H. rewrite add_not_Index by exact H.
  destruct (_backward_entries pool !! coerce constant) eqn:E; simpl.
  - exact E.
  - apply lookup_insert_eq.
Qed.

(** C6, refuted as stated: after [pool[2147483646] = UTF8("a")] the next
    index is 2147483647, the largest C [int]; [add("b")] assigns it and the
    next index wraps around to -2147483648 instead of advancing by 1. *)
Lemma add_wraps_next_index :
  exists pool,
    setitem ConstantPool_init 2147483646 (Const (UTF8 [97])) = Ok pool
    /\ _backward_entries pool !! UTF8 [98] = None
    /\ constant_wide (UTF8 [98]) = false
    /\ fst (add pool (Str [98])) = _index pool
    /\ _index (snd (add pool (Str [98]))) = - 2147483648
    /\ _index (snd (add pool (Str [98]))) <> _index pool + 1.
Proof.
  eexists. split; [reflexivity |]. split; [reflexivity |].
  split; [reflexivity |]. split; [reflexivity |]. split; [reflexivity |].
  discriminate.
Qed.

(** C6: adding a constant equal to the one just added (a [str] counts as the
    [UTF8] constant it is coerced to) returns the same index and changes
    nothing, so the entry count and [_index] stay as they were; a constant
    that is not yet in the pool gets the index [_index] and is recorded in
    both directions, and [_index] then advances by 1, or by 2 for a wide
    constant, as long as the advanced value fits the C [int]. *)
Theorem add_deduplicates pool (c c' : item) :
  (coerce c = coerce c' ->
     let pool1 := snd (add pool c) in
     fst (add pool1 c') = fst (add pool c)
     /\ snd (add pool1 c') = pool1
     /\ ConstantPool_len (snd (add pool1 c')) = ConstantPool_len pool1
     /\ _index (snd (add pool1 c')) = _index pool1)
  /\ (is_Index (coerce c) = false ->
      _backward_entries pool !! coerce c = None ->
      fst (add pool c) = _index pool
      /\ _forward_entries (snd (add pool c)) !! _index pool = Some (coerce c)
      /\ _backward_entries (snd (add pool c)) !! coerce c = Some (_index pool)
      /\ (- 2 ^ 31 <= _index pool ->
          _index pool + (if constant_wide (coerce c) then 2 else 1) < 2 ^ 31 ->
          _index (snd (add pool c)) =
            _index pool + (if constant_wide (coerce c) then 2 else 1))).
Proof.
  split.
  - intros Heq. cbv zeta.
    assert (Hsame : fst (add (snd (add pool c)) c') = fst (add pool c)
                    /\ snd (add (snd (add pool c)) c') = snd (add pool c)).
    { destruct (is_Index (coerce c)) eqn:Hi.
      - destruct c as [s | k]; [discriminate |].
        destruct k; try discriminate.
        destruct c' as [s' | k']; [discriminate |]. simpl in Heq. subst k'.
        split; reflexivity.
      - pose proof (add_records pool c Hi) as Hrec.
        rewrite (add_not_Index _ c') by (rewrite <- Heq; exact Hi).
        rewrite <- Heq, Hrec. split; reflexivity. }
    destruct Hsame as [H1 H2]. rewrite H2. auto.
  - intros Hi Hnone. rewrite add_not_Index by exact Hi. rewrite Hnone. simpl.
    rewrite !lookup_insert_eq.
    split; [reflexivity |]. split; [reflexivity |]. split; [reflexivity |].
    intros Hlo Hhi. destruct (constant_wide (coerce c)).
    + rewrite (wrap_int_fits (_index pool + 1)) by lia.
      rewrite wrap_int_fits by lia. lia.
    + rewrite wrap_int_fits by lia. lia.
Qed.

Lemma add_deduplicates_witness :
  fst (add ConstantPool_init (Str hello)) = 1
  /\ fst (add (snd (add ConstantPool_init (Str hello))) (Const (UTF8 hello))) = 1
  /\ ConstantPool_len
       (snd (add (snd (add ConstantPool_init (Str hello))) (Const (UTF8 hello)))) = 1%nat
  /\ _index (snd (add ConstantPool_init (Str hello))) = 2.
Proof.
  destruct (add_deduplicates ConstantPool_init (Str hello) (Const (UTF8 hello)))
    as [Hdup Hnew].
  destruct (Hdup ltac:(reflexivity)) as (H1 & H2 & H3 & H4).
  destruct (Hnew ltac:(reflexivity) ltac:(reflexivity)) as (N1 & N2 & N3 & N4).
  split; [exact N1 |]. split; [rewrite H1; exact N1 |].
  split; [rewrite H3; reflexivity |].
  apply N4; simpl; lia.
Defined.

(** C7, refuted as stated: after [pool[2147483645] = UTF8("a")] a [Long]
    gets the index [i = 2147483646] and the next index wraps around to
    -2147483648: it is not [i + 2]. *)
Lemma add_wide_wraps_next_index :
  exists pool,
    setitem ConstantPool_init 2147483645 (Const (UTF8 [97])) = Ok pool
    /\ _backward_entries pool !! Long 9 = None
    /\ constant_wide (Long 9) = true
    /\ fst (add pool (Const (Long 9))) = 2147483646
    /\ _index (snd (add pool (Const (Long 9)))) = - 2147483648
    /\ _index (snd (add pool (Const (Long 9))))
       <> fst (add pool (Const (Long 9))) + 2.
Proof.
  eexists. split; [reflexivity |]. split; [reflexivity |].
  split; [reflexivity |]. split; [reflexivity |]. split; [reflexivity |].
  discriminate.
Qed.

(** Nor is the slot after a new wide constant free in every pool a program
    can hold: once [__setitem__] has made the next index wrap around, an
    occupied index can lie above it. *)
Example add_wide_next_slot_occupied :
  let pool1 := fst (setitem_run ConstantPool_init 5 (Const (UTF8 [97]))) in
  let pool2 := fst (setitem_run pool1 2147483646 (Const (Long 7))) in
  let pool3 := fst (setitem_run pool2 3 (Const (UTF8 [98]))) in
  reachable pool3
  /\ _index pool3 = 4
  /\ fst (add pool3 (Const (Long 9))) = 4
  /\ _forward_entries (snd (add pool3 (Const (Long 9)))) !! 5 = Some (UTF8 [97]).
Proof.
  cbv zeta. split; [do 3 apply reachable_setitem; apply reachable_init |].
  split; [reflexivity |]. split; reflexivity.
Qed.

(** C7: in a pool whose occupied indices lie below [_index], with [_index]
    far enough from the end of the C [int], adding a wide constant (a [Long]
    or a [Double]) that is not yet present puts it at [i = _index], moves
    [_index] to [i + 2] and leaves [i + 1] unoccupied: [pool[i + 1]] is the
    sentinel [Index(i + 1)] and [get(i + 1, do_raise=True)] raises. *)
Theorem add_wide_stride pool c :
  pool_wf pool ->
  - 2 ^ 31 <= _index pool -> _index pool + 2 < 2 ^ 31 ->
  constant_wide c = true ->
  _backward_entries pool !! c = None ->
  let i := fst (add pool (Const c)) in
  let pool' := snd (add pool (Const c)) in
  i = _index pool
  /\ getitem pool' i = Ok c
  /\ _index pool' = i + 2
  /\ _forward_entries pool' !! (i + 1) = None
  /\ getitem pool' (i + 1) = Ok (Index (i + 1))
  /\ get pool' (i + 1) None true = Err (IndexUndefined (i + 1)).
Proof.
  intros Hwf Hlo Hhi Hwide Hnone.
  assert (Hi : is_Index (coerce (Const c)) = false) by (now destruct c).
  cbv zeta. rewrite add_in_range by assumption. simpl coerce.
  rewrite Hnone, Hwide. simpl.
  assert (Hfree : <[_index pool := c]> (_forward_entries pool) !! (_index pool + 1) = None).
  { rewrite lookup_insert_ne by lia.
    destruct (_forward_entries pool !! (_index pool + 1)) eqn:E; [| reflexivity].
    apply Hwf in E. lia. }
  unfold getitem, get, Index_init. simpl.
  rewrite Hfree, lookup_insert_eq, as_int_fits by lia.
  repeat split. lia.
Qed.

Lemma add_wide_stride_witness :
  fst (add pool_5 (Const (Long 9))) = 5
  /\ _index (snd (add pool_5 (Const (Long 9)))) = 7
  /\ getitem (snd (add pool_5 (Const (Long 9)))) 6 = Ok (Index 6)
  /\ get (snd (add pool_5 (Const (Long 9)))) 6 None true = Err (IndexUndefined 6).
Proof.
  assert (Hwf : pool_wf pool_5)
    by (unfold pool_5;
        repeat (apply pool_wf_add;
                [| vm_compute; discriminate | vm_compute; reflexivity]);
        apply pool_wf_init).
  destruct (add_wide_stride pool_5 (Long 9) Hwf
              ltac:(vm_compute; discriminate) ltac:(vm_compute; reflexivity)
              ltac:(reflexivity) ltac:(reflexivity))
    as (H1 & H2 & H3 & H4 & H5 & H6).
  assert (E : fst (add pool_5 (Const (Long 9))) = 5) by (rewrite H1; reflexivity).
  rewrite E in *. repeat split; assumption.
Defined.

(** ** InsnBlock: control-flow-terminating instructions *)

Lemma _check_instruction_terminating {IS : Block.InstructionSet}
    (x : Block.Instruction) :
  Block.terminates_control_flow x = true ->
  Block._check_instruction x = Err IllegalInstruction.
Proof.
  unfold Block.terminates_control_flow, Block._check_instruction.
  destruct (Block.is_JumpInstruction x); [reflexivity |].
  destruct (Block.is_ReturnInstruction x); [reflexivity |].
  destruct (Block.eq_athrow x); [reflexivity | discriminate].
Qed.

Lemma fits_ssize_spec z : - 2 ^ 63 <= z < 2 ^ 63 -> Block.fits_ssize z = true.
Proof.
  intros H. unfold Block.fits_ssize.
  apply andb_true_iff. rewrite Z.leb_le, Z.ltb_lt. exact H.
Qed.

Lemma list_insert_py_Ok {A} (index : Z) (x : A) (l : list A) :
  - 2 ^ 63 <= index < 2 ^ 63 ->
  exists l',
    Block.list_insert_py index x l = Ok l'
    /\ x ∈ l' /\ length l' = S (length l).
Proof.
  intros H. unfold Block.list_insert_py. rewrite fits_ssize_spec by exact H.
  eexists. split; [reflexivity |]. split.
  - apply elem_of_app. right. apply elem_of_cons. now left.
  - set (i := Z.to_nat _).
    rewrite length_app. simpl. rewrite length_take, length_drop. lia.
Qed.

(** C8, refuted as stated: [list.insert] takes its index as a 64-bit
    [Py_ssize_t], so [insert(2**63, athrow, do_raise=False)] raises
    [OverflowError] and does not add the instruction. *)
Lemma insert_rejects_huge_index :
  @Block.terminates_control_flow sample_instructions athrow = true
  /\ Block.insert sample_block (2 ^ 63) (@Block.Insn sample_instructions athrow) false
     = Err Overflow.
Proof. split; reflexivity. Qed.

(** C8: for a jump, a return or [athrow] [x] (given as an instruction, or as
    an instruction class that instantiates to [x]), [append] and [insert]
    with [do_raise=True] raise before touching the block, which stays as it
    was; with [do_raise=False] they return [x], [append] having put it at
    the end of the instruction list and [insert], for an index [k] that fits
    the [Py_ssize_t] of [list.insert], at position [k] (as [list.insert]
    places it). *)
Theorem block_refuses_terminating_instruction {IS : Block.InstructionSet}
    (b : Block.InsnBlock) (arg : Block.insn_arg) (x : Block.Instruction) (k : Z) :
  Block.as_instruction arg = Ok x ->
  Block.terminates_control_flow x = true ->
  (Block.append b arg true = Err IllegalInstruction
   /\ Block.block_after b (Block.append b arg true) = b)
  /\ (Block.insert b k arg true = Err IllegalInstruction
      /\ Block.block_after b (Block.insert b k arg true) = b)
  /\ (exists b', Block.append b arg false = Ok (x, b')
        /\ Block.block_after b (Block.append b arg false) = b'
        /\ Block._instructions b' = Block._instructions b ++ [x]
        /\ Block.label b' = Block.label b)
  /\ (- 2 ^ 63 <= k < 2 ^ 63 ->
      exists b', Block.insert b k arg false = Ok (x, b')
        /\ Block.block_after b (Block.insert b k arg false) = b'
        /\ Block.list_insert_py k x (Block._instructions b)
           = Ok (Block._instructions b')
        /\ x ∈ Block._instructions b'
        /\ length (Block._instructions b') = S (length (Block._instructions b))
        /\ Block.label b' = Block.label b).
Proof.
  intros Harg Hterm. apply _check_instruction_terminating in Hterm.
  unfold Block.append, Block.insert. rewrite Harg. simpl. rewrite Hterm. simpl.
  split; [split; reflexivity |]. split; [split; reflexivity |].
  split; [eexists; repeat split |].
  intros Hk.
  destruct (list_insert_py_Ok k x (Block._instructions b) Hk) as (l' & -> & Hin & Hlen).
  simpl. eexists. split; [reflexivity |]. simpl. auto.
Qed.

Lemma block_refuses_terminating_instruction_witness :
  Block.append sample_block (@Block.Insn sample_instructions (goto 3)) true
    = Err IllegalInstruction
  /\ (exists b',
       Block.append sample_block (@Block.Insn sample_instructions (goto 3)) false
         = Ok (goto 3, b')
       /\ Block._instructions b' = [nop; iload 1; goto 3])
  /\ exists b',
       Block.insert sample_block 0 (@Block.Insn sample_instructions (goto 3)) false
         = Ok (goto 3, b')
       /\ Block.list_insert_py 0 (goto 3) [nop; iload 1]
          = Ok (Block._instructions b').
Proof.
  destruct (@block_refuses_terminating_instruction sample_instructions sample_block
              (@Block.Insn sample_instructions (goto 3)) (goto 3) 0
              ltac:(reflexivity) ltac:(reflexivity))
    as ((H1 & _) & _ & (b' & H3 & _ & H4 & _) & Hins).
  destruct Hins as (b'' & H5 & _ & H6 & _); [lia |].
  split; [exact H1 |]. split; [exists b'; split; [exact H3 | exact H4] |].
  exists b''. split; [exact H5 | exact H6].
Defined.

(** ** ConstantPool.read: fuel *)

Lemma read_entry_offset version s s' :
  read_entry version s = Ok s' -> rs_offset s < rs_offset s'.
Proof.
  unfold read_entry.
  destruct (buffer_read 1 (rs_buffer s)) as [[| t [| ? ?]] buffer1]; try discriminate.
  destruct (_constant_map t) as [constant |]; [| discriminate].
  destruct (Version_gt (since constant) version); [discriminate |].
  destruct (Variant_read constant buffer1) as [[[c | i] buffer2] | e];
    [| | discriminate]; intros [= <-]; simpl; destruct (wide constant); lia.
Qed.

(** The first loop always ends: [constants_count - offset] iterations at
    most. *)
Lemma read_loop_ends fuel version constants_count s :
  (Z.to_nat (constants_count - rs_offset s) <= fuel)%nat ->
  exists r, read_loop fuel version constants_count s = Some r.
Proof.
  revert s. induction fuel as [| fuel IH]; intros s Hfuel; simpl.
  - destruct (Z.ltb_spec (rs_offset s) constants_count); [lia | eauto].
  - destruct (Z.ltb_spec (rs_offset s) constants_count); [| eauto].
    destruct (read_entry version s) as [s' | e] eqn:E; [| eauto].
    apply IH. apply read_entry_offset in E. lia.
Qed.

(** More fuel does not change a result. *)
Lemma read_loop_more_fuel fuel version constants_count s r :
  read_loop fuel version constants_count s = Some r ->
  read_loop (S fuel) version constants_count s = Some r.
Proof.
  revert s. induction fuel as [| fuel IH]; intros s.
  - simpl. destruct (rs_offset s <? constants_count); [discriminate | auto].
  - intros H. simpl in H. change (read_loop (S (S fuel)) version constants_count s)
      with (if rs_offset s <? constants_count
            then match read_entry version s with
                 | Err e => Some (Err e)
                 | Ok s' => read_loop (S fuel) version constants_count s'
                 end
            else Some (Ok s)).
    destruct (rs_offset s <? constants_count); [| exact H].
    destruct (read_entry version s) as [s' | e]; [| exact H].
    apply IH. exact H.
Qed.

Lemma fixup_loop_more_fuel fuel pool uncomputed r :
  fixup_loop fuel pool uncomputed = Some r ->
  fixup_loop (S fuel) pool uncomputed = Some r.
Proof.
  revert pool uncomputed. induction fuel as [| fuel IH]; intros pool uncomputed.
  - simpl. destruct uncomputed as [| [[offset constant] info] rest];
      [auto | discriminate].
  - intros H. simpl in H.
    destruct uncomputed as [| [[offset constant] info] rest]; [exact H |].
    change (fixup_loop (S (S fuel)) pool ((offset, constant, info) :: rest))
      with (match dereference constant (_forward_entries pool) info with
            | Err e => Some (Err e)
            | Ok None =>
                fixup_loop (S fuel) pool (rest ++ [(offset, constant, info)])
            | Ok (Some value) =>
                fixup_loop (S fuel) (bind_entry pool offset value) rest
            end).
    destruct (dereference constant (_forward_entries pool) info) as [[value |] | e];
      [apply IH; exact H | apply IH; exact H | exact H].
Qed.

(** A result of [read] does not depend on the fuel that produced it. *)
Lemma ConstantPool_read_more_fuel fuel version buffer r :
  ConstantPool_read fuel version buffer = Some r ->
  ConstantPool_read (S fuel) version buffer = Some r.
Proof.
  unfold ConstantPool_read.
  destruct (buffer_read 2 buffer) as [hdr buffer1].
  destruct (unpack_H hdr) as [constants_count | e]; [| auto].
  destruct (read_loop fuel version constants_count
              (mkReadState ConstantPool_init [] 1 buffer1)) as [r1 |] eqn:E;
    [| discriminate].
  rewrite (read_loop_more_fuel _ _ _ _ _ E).
  destruct r1 as [s | e]; [| auto].
  apply fixup_loop_more_fuel.
Qed.

(** A forward reference: the [Class] at index 1 names the [UTF8] at index 2,
    which follows it in the bytes; the fix-up loop resolves it. *)
Example read_forward_reference :
  match ConstantPool_read 3 (mkVersion 52 0)
          [0; 3; 7; 0; 2; 1; 0; 3; 70; 111; 111] with
  | Some (Ok pool) =>
      getitem pool 1 = Ok (Class_ (mkClass [70; 111; 111]))
      /\ getitem pool 2 = Ok (UTF8 [70; 111; 111])
      /\ _index pool = 3
      /\ ConstantPool_len pool = 2%nat
  | _ => False
  end.
Proof. vm_compute. repeat split. Qed.

(** A [FieldRef] read before its [Class] and [NameAndType], themselves read
    before their [UTF8] names: the queue is passed over more than once. *)
Example read_field_reference :
  match ConstantPool_read 9 (mkVersion 52 0)
          [0; 7;  9; 0; 2; 0; 3;  7; 0; 4;  12; 0; 5; 0; 6;
           1; 0; 1; 65;  1; 0; 1; 120;  1; 0; 1; 73] with
  | Some (Ok pool) =>
      getitem pool 1 = Ok (FieldRef (mkClass [65]) (mkNameAndType [120] [73]))
      /\ _index pool = 7
  | _ => False
  end.
Proof. vm_compute. repeat split. Qed.

(** ** ConstantPool.read: version gating *)

Lemma read_loop_reads_to version constants_count s n s' fuel :
  reads_to version constants_count s n s' ->
  read_loop (n + fuel) version constants_count s
    = read_loop fuel version constants_count s'.
Proof.
  induction 1 as [s | s s1 n s' Hlt Hentry _ IH]; [reflexivity |].
  simpl. apply Z.ltb_lt in Hlt. rewrite Hlt, Hentry. exact IH.
Qed.

Lemma _constant_map_tag constant : _constant_map (tag constant) = Some constant.
Proof. now destruct constant. Qed.

Lemma read_entry_version_too_low version constant s rest :
  Version_gt (since constant) version = true ->
  rs_buffer s = tag constant :: rest ->
  read_entry version s = Err (VersionTooLow constant version).
Proof.
  intros Hgt Hbuf. unfold read_entry. rewrite Hbuf. simpl.
  rewrite _constant_map_tag, Hgt. reflexivity.
Qed.

(** C9: when the variant of the tag that [read] meets has a [since] above
    the version of the file, [read] raises the version error at that tag:
    the loop body does, in whatever state it is entered, and so does
    [ConstantPool.read] once the entries before the tag have been read.  A
    [Module] constant (tag 19) is such a tag in every file whose major
    version is below 53. *)
Theorem read_refuses_newer_constant :
  (forall version constant,
     Version_gt (since constant) version = true ->
     (forall s rest,
        rs_buffer s = tag constant :: rest ->
        read_entry version s = Err (VersionTooLow constant version))
     /\ (forall hi lo body n s rest fuel,
           reads_to version (hi * 256 + lo)
             (mkReadState ConstantPool_init [] 1 body) n s ->
           rs_offset s < hi * 256 + lo ->
           rs_buffer s = tag constant :: rest ->
           (n < fuel)%nat ->
           ConstantPool_read fuel version (hi :: lo :: body)
             = Some (Err (VersionTooLow constant version))))
  /\ (forall version,
        major version < 53 ->
        tag VModule = 19 /\ Version_gt (since VModule) version = true).
Proof.
  split.
  - intros version constant Hgt. split.
    + intros s rest. now apply read_entry_version_too_low.
    + intros hi lo body n s rest fuel Hreads Hlt Hbuf Hfuel.
      unfold ConstantPool_read. simpl.
      replace fuel with (n + S (fuel - S n))%nat at 1 by lia.
      rewrite (read_loop_reads_to _ _ _ _ _ _ Hreads). simpl.
      apply Z.ltb_lt in Hlt. rewrite Hlt.
      now rewrite (read_entry_version_too_low _ _ _ _ Hgt Hbuf).
  - intros version Hlt. split; [reflexivity |].
    unfold Version_gt. simpl. apply Z.ltb_lt in Hlt. now rewrite Hlt.
Qed.

Lemma read_refuses_newer_constant_witness :
  ConstantPool_read 2 (mkVersion 52 0) [0; 3; 1; 0; 1; 97; 19; 0; 1]
    = Some (Err (VersionTooLow VModule (mkVersion 52 0))).
Proof.
  destruct read_refuses_newer_constant as [Hgen Hmodule].
  destruct (Hmodule (mkVersion 52 0) ltac:(reflexivity)) as [_ Hgt].
  destruct (Hgen (mkVersion 52 0) VModule Hgt) as [_ Hread].
  eapply (Hread 0 3 [1; 0; 1; 97; 19; 0; 1] 1%nat _ [0; 1] 2%nat).
  - eapply reads_to_next; [reflexivity | reflexivity | apply reads_to_here].
  - reflexivity.
  - reflexivity.
  - lia.
Defined.

(** ** ConstantPool.read: the fix-up loop *)

Lemma ConstantPool_read_header fuel version hi lo body :
  ConstantPool_read fuel version (hi :: lo :: body) =
    match read_loop fuel version (hi * 256 + lo)
            (mkReadState ConstantPool_init [] 1 body) with
    | None => None
    | Some (Err e) => Some (Err e)
    | Some (Ok s) =>
        fixup_loop fuel (set_index (rs_pool s) (rs_offset s)) (rs_uncomputed s)
    end.
Proof. reflexivity. Qed.

(** When every queued entry is pending, a pass over the queue changes
    neither the pool nor (up to rotation) the queue, and the loop never
    ends: no amount of fuel gives a result, be it a pool or an error. *)
Lemma fixup_loop_stuck pool fuel uncomputed :
  uncomputed <> [] ->
  Forall (pending pool) uncomputed ->
  fixup_loop fuel pool uncomputed = None.
Proof.
  revert uncomputed. induction fuel as [| fuel IH]; intros uncomputed Hne Hall.
  - destruct uncomputed as [| [[offset constant] info] rest]; [congruence | reflexivity].
  - destruct uncomputed as [| [[offset constant] info] rest]; [congruence |].
    apply Forall_cons in Hall as [Hhd Htl]. unfold pending in Hhd. simpl in Hhd.
    simpl. rewrite Hhd. apply IH.
    + intros H. now apply app_eq_nil in H as [_ H].
    + apply Forall_app. split; [exact Htl |]. constructor; [exact Hhd | constructor].
Qed.

(** C1, on the code: a pool of one [FieldRef] whose class index is its own
    index.  The first loop queues the entry, the fix-up loop finds it
    pending on every pass, and [read] neither returns nor raises. *)
Theorem read_diverges_on_self_reference :
  forall fuel,
    ConstantPool_read fuel (mkVersion 52 0) [0; 2; 9; 0; 1; 0; 1] = None.
Proof.
  intros [| fuel]; [reflexivity |].
  rewrite ConstantPool_read_header.
  assert (E : read_loop (S fuel) (mkVersion 52 0) (0 * 256 + 2)
                (mkReadState ConstantPool_init [] 1 [9; 0; 1; 0; 1])
              = Some (Ok (mkReadState ConstantPool_init
                            [(1, VFieldRef, Info2 1 1)] 2 []))).
  { destruct fuel; reflexivity. }
  rewrite E. apply fixup_loop_stuck; [discriminate |].
  constructor; [reflexivity | constructor].
Qed.

(** ** dereference *)


(** How [dereference] answers, by the first required referent that is unmet. *)
Lemma dereference_by_first_unmet constant lookups info :
  info_shape constant info = true ->
  match first_unmet lookups (required_referents constant info) with
  | None =>
      exists c, dereference constant lookups info = Ok (Some c)
                /\ variant_of c = Some constant
  | Some Absent =>
      dereference constant lookups info =
        if waits_for_referents constant then Ok None else Err KindMismatch
  | Some (WrongKind _) => dereference constant lookups info = Err KindMismatch
  end.
Proof.
  intros Hshape.
  destruct constant, info as [i | a b]; try discriminate Hshape; simpl;
    repeat match goal with
           | |- context [lookups !! ?k] =>
               let E := fresh "E" in
               destruct (lookups !! k) as [[] |] eqn:E; simpl
           end;
    try reflexivity; eexists; split; reflexivity.
Qed.




(** ** MUTF-8 *)

Lemma not_surrogate c : is_surrogate c = false -> c < 0xD800 \/ 0xDFFF < c.
Proof.
  unfold is_surrogate. intros H.
  apply andb_false_iff in H as [H | H]; apply Z.leb_gt in H; lia.
Qed.

Lemma utf8_encode_cp_defined c :
  valid_cp c -> exists bs, utf8_encode_cp c = Ok bs.
Proof.
  intros [_ Hs]. unfold utf8_encode_cp. rewrite Hs.
  repeat match goal with |- context [if ?b then _ else _] => destruct b end; eauto.
Qed.

(** The encoder emits a zero byte for U+0000 only, and never the byte C0. *)
Lemma utf8_encode_cp_bytes c bs :
  valid_cp c -> utf8_encode_cp c = Ok bs ->
  Forall (fun b => b <> 0xC0) bs
  /\ (c = 0 -> bs = [0])
  /\ (c <> 0 -> Forall (fun b => b <> 0) bs).
Proof.
  intros [[Hlo Hhi] Hs]. unfold utf8_encode_cp. rewrite Hs.
  apply not_surrogate in Hs.
  destruct (Z.ltb_spec c 0x80).
  { intros [= <-]. repeat split; [| congruence |]; repeat constructor; lia. }
  destruct (Z.ltb_spec c 0x800).
  { intros [= <-]. repeat split; [| lia |]; repeat constructor; zdm. }
  destruct (Z.ltb_spec c 0x10000).
  { intros [= <-]. repeat split; [| lia |]; repeat constructor; zdm. }
  intros [= <-]. repeat split; [| lia |]; repeat constructor; zdm.
Qed.

(** The lenient decoder reads the encoding of a code point back. *)
Lemma decode_encoded_cp c bs rest :
  valid_cp c -> utf8_encode_cp c = Ok bs ->
  bytes_decode_utf8_ignore (bs ++ rest) = c :: bytes_decode_utf8_ignore rest.
Proof.
  intros [[Hlo Hhi] Hs]. unfold utf8_encode_cp. rewrite Hs.
  apply not_surrogate in Hs.
  destruct (Z.ltb_spec c 0x80); [intros [= <-]; simpl; cmp_cases; reflexivity |].
  destruct (Z.ltb_spec c 0x800).
  { intros [= <-]. simpl app. cbn [bytes_decode_utf8_ignore]. unfold is_cont.
    cmp_cases. simpl. f_equal. zdm. }
  destruct (Z.ltb_spec c 0x10000).
  { intros [= <-]. simpl app. cbn [bytes_decode_utf8_ignore].
    unfold second_ok3, is_cont. cmp_cases; simpl; f_equal; zdm. }
  intros [= <-]. simpl app. cbn [bytes_decode_utf8_ignore].
  unfold second_ok4, is_cont. cmp_cases; simpl; f_equal; zdm.
Qed.

Lemma replace_from_miss old new b rest :
  starts_with old (b :: rest) = false ->
  replace_from old new O (b :: rest) = b :: replace_from old new O rest.
Proof. simpl. now intros ->. Qed.

Lemma replace_zero_skip new bs rest :
  Forall (fun b => b <> 0) bs ->
  bytes_replace [0] new (bs ++ rest) = bs ++ bytes_replace [0] new rest.
Proof.
  unfold bytes_replace. induction 1 as [| b bs Hb _ IH]; [reflexivity |].
  simpl app. rewrite replace_from_miss, IH; [reflexivity |].
  cbn [starts_with]. destruct (Z.eqb_spec 0 b); [congruence | reflexivity].
Qed.

Lemma replace_zero_hit new rest :
  bytes_replace [0] new (0 :: rest) = new ++ bytes_replace [0] new rest.
Proof. reflexivity. Qed.

Lemma replace_c080_skip new bs rest :
  Forall (fun b => b <> 0xC0) bs ->
  bytes_replace [0xC0; 0x80] new (bs ++ rest)
    = bs ++ bytes_replace [0xC0; 0x80] new rest.
Proof.
  unfold bytes_replace. induction 1 as [| b bs Hb _ IH]; [reflexivity |].
  simpl app. rewrite replace_from_miss, IH; [reflexivity |].
  cbn [starts_with]. destruct (Z.eqb_spec 0xC0 b); [congruence | reflexivity].
Qed.

Lemma replace_c080_hit new rest :
  bytes_replace [0xC0; 0x80] new (0xC0 :: 0x80 :: rest)
    = new ++ bytes_replace [0xC0; 0x80] new rest.
Proof. reflexivity. Qed.

(** The two replacements undo each other on the encoding of a string, and
    the decoder reads the encoding back. *)
Lemma str_encode_utf8_roundtrip s :
  no_surrogates s ->
  exists raw,
    str_encode_utf8 s = Ok raw
    /\ bytes_replace [0xC0; 0x80] [0] (bytes_replace [0] [0xC0; 0x80] raw) = raw
    /\ bytes_decode_utf8_ignore raw = s.
Proof.
  induction 1 as [| c s Hc _ (raw & Henc & Hrep & Hdec)].
  - exists []. repeat split.
  - destruct (utf8_encode_cp_defined c Hc) as [bs Hbs].
    destruct (utf8_encode_cp_bytes c bs Hc Hbs) as (HnoC0 & Hzero & Hnonzero).
    exists (bs ++ raw). simpl. rewrite Hbs, Henc. simpl. split; [reflexivity |].
    split.
    + destruct (decide (c = 0)) as [-> | Hne].
      * rewrite (Hzero eq_refl). simpl app.
        rewrite replace_zero_hit. simpl app.
        rewrite replace_c080_hit, Hrep. reflexivity.
      * rewrite replace_zero_skip by auto.
        rewrite replace_c080_skip by exact HnoC0.
        now rewrite Hrep.
    + rewrite (decode_encoded_cp c bs raw Hc Hbs). now rewrite Hdec.
Qed.

Lemma unpack_pack_H n data :
  pack_H n = Ok data -> length data = 2%nat /\ unpack_H data = Ok n.
Proof.
  unfold pack_H. destruct ((0 <=? n) && (n <=? 65535)); [| discriminate].
  intros [= <-]. split; [reflexivity |]. simpl. f_equal. zdm.
Qed.

Lemma UTF8_read_value_header hi lo rest :
  UTF8_read_value (hi :: lo :: rest) =
    do n <- unpack_H [hi; lo];
    let '(data, buffer2) := buffer_read n rest in
    Ok (decode_mutf8 data, buffer2).
Proof. reflexivity. Qed.

(** C4, refuted as stated: a string without surrogates whose encoding does
    not fit the two-byte length field; [UTF8.write] raises and there are no
    emitted bytes to read back. *)
Lemma UTF8_write_rejects_long_string :
  no_surrogates long_string /\ UTF8_write long_string [] = Err PackRange.
Proof.
  split.
  - apply Forall_replicate. split; [unfold is_code_point; lia | reflexivity].
  - vm_compute. reflexivity.
Qed.

(** C4, as the code has it: for a string [s] without surrogates the payload
    codec round-trips, [decode_mutf8 (encode_mutf8 s) = s]; when the encoded
    payload is at most 65535 bytes long, [UTF8.write] succeeds and
    [UTF8.read] of the emitted bytes yields [s] and stops right after them;
    and U+0000 is encoded as the two bytes C0 80. *)
Theorem mutf8_roundtrip s :
  no_surrogates s ->
  (exists data,
     encode_mutf8 s = Ok data
     /\ decode_mutf8 data = s
     /\ (Z.of_nat (length data) <= 65535 ->
         exists out,
           UTF8_write s [] = Ok out
           /\ forall rest, UTF8_read_value (out ++ rest) = Ok (s, rest)))
  /\ encode_mutf8 [0] = Ok [0xC0; 0x80].
Proof.
  intros Hs. split; [| reflexivity].
  destruct (str_encode_utf8_roundtrip s Hs) as (raw & Henc & Hrep & Hdec).
  exists (bytes_replace [0] [0xC0; 0x80] raw).
  assert (Hmutf8 : encode_mutf8 s = Ok (bytes_replace [0] [0xC0; 0x80] raw))
    by (unfold encode_mutf8; now rewrite Henc).
  assert (Hback : decode_mutf8 (bytes_replace [0] [0xC0; 0x80] raw) = s)
    by (unfold decode_mutf8; now rewrite Hrep).
  split; [exact Hmutf8 |]. split; [exact Hback |].
  intros Hlen. unfold UTF8_write. rewrite Hmutf8. simpl.
  set (data := bytes_replace [0] [0xC0; 0x80] raw) in *.
  destruct (pack_H (Z.of_nat (length data))) as [len | e] eqn:Hpack.
  - simpl. eexists. split; [reflexivity |]. intros rest.
    destruct (unpack_pack_H _ _ Hpack) as [Hlen2 Hunpack].
    destruct len as [| hi [| lo [| ? ?]]]; try discriminate Hlen2.
    change (([hi; lo] ++ data) ++ rest) with (hi :: lo :: data ++ rest).
    rewrite UTF8_read_value_header, Hunpack. simpl bind.
    unfold buffer_read. rewrite Nat2Z.id.
    rewrite take_app_length, drop_app_length. now rewrite Hback.
  - exfalso. unfold pack_H in Hpack.
    destruct (Z.leb_spec 0 (Z.of_nat (length data))); [| lia].
    destruct (Z.leb_spec (Z.of_nat (length data)) 65535); [discriminate | lia].
Qed.

Lemma mutf8_roundtrip_witness :
  exists out,
    UTF8_write [0x20AC; 0; 0x1F600] [] = Ok out
    /\ UTF8_read_value (out ++ [7]) = Ok ([0x20AC; 0; 0x1F600], [7]).
Proof.
  assert (Hs : no_surrogates [0x20AC; 0; 0x1F600]).
  { repeat constructor; unfold is_code_point; lia. }
  destruct (mutf8_roundtrip [0x20AC; 0; 0x1F600] Hs) as [(data & Henc & _ & Hwr) _].
  assert (Hlen : Z.of_nat (length data) <= 65535).
  { vm_compute in Henc. injection Henc as <-. vm_compute. discriminate. }
  destruct (Hwr Hlen) as (out & Hout & Hread).
  exists out. split; [exact Hout | apply Hread].
Defined.

(** C5, refuted as stated: the bytes written for the string [a], U+0000, [b]
    are not 00 03 61 C0 80 62, and the length field does not hold 5. *)
Lemma UTF8_write_nul_not_as_stated :
  UTF8_write [0x61; 0; 0x62] [] <> Ok [0x00; 0x03; 0x61; 0xC0; 0x80; 0x62]
  /\ ~ (exists payload, UTF8_write [0x61; 0; 0x62] [] = Ok ([0x00; 0x05] ++ payload)).
Proof.
  split; [discriminate |]. intros [payload H]. discriminate.
Qed.

(** C5, as the code has it: [UTF8.write] on the three-character string [a],
    U+0000, [b] emits 00 04 61 C0 80 62: the payload 61 C0 80 62 is four
    bytes long and the length field holds 4. *)
Theorem UTF8_write_nul :
  UTF8_write [0x61; 0; 0x62] [] = Ok [0x00; 0x04; 0x61; 0xC0; 0x80; 0x62]
  /\ encode_mutf8 [0x61; 0; 0x62] = Ok [0x61; 0xC0; 0x80; 0x62]
  /\ unpack_H [0x00; 0x04] = Ok (Z.of_nat (length [0x61; 0xC0; 0x80; 0x62])).
Proof. repeat split. Qed.

(* ===================================================================== *)
(** * Part III: further properties                                        *)
(* ===================================================================== *)

(** ** Pools built without [__setitem__] *)

Lemma pool_sound_init : pool_sound ConstantPool_init.
Proof.
  split; [simpl; lia |]. split.
  - intros k c H. simpl in H. now rewrite lookup_empty in H.
  - intros c i H. simpl in H. now rewrite lookup_empty in H.
Qed.

(** Binding a free offset below the new [_index] keeps a pool sound. *)
Lemma pool_sound_bind pool offset c index :
  pool_sound pool ->
  _forward_entries pool !! offset = None ->
  1 <= offset < index -> _index pool <= index ->
  pool_sound (set_index (bind_entry pool offset c) index).
Proof.
  intros (Hone & Hkeys & Hcons) Hfree Hoff Hidx.
  split; [simpl; lia |]. split.
  - intros k c' H. simpl in *.
    destruct (decide (offset = k)) as [<- | Hne]; [lia |].
    rewrite lookup_insert_ne in H by exact Hne.
    specialize (Hkeys _ _ H). lia.
  - intros c' i H. simpl in *.
    destruct (decide (c = c')) as [<- | Hne].
    + rewrite lookup_insert_eq in H. injection H as <-. apply lookup_insert_eq.
    + rewrite lookup_insert_ne in H by exact Hne.
      specialize (Hcons _ _ H).
      rewrite lookup_insert_ne by congruence. exact Hcons.
Qed.

Lemma pool_sound_free pool k :
  pool_sound pool -> _index pool <= k -> _forward_entries pool !! k = None.
Proof.
  intros (_ & Hkeys & _) Hk.
  destruct (_forward_entries pool !! k) eqn:E; [| reflexivity].
  apply Hkeys in E. lia.
Qed.

Lemma pool_sound_add pool constant :
  pool_sound pool -> _index pool + 2 < 2 ^ 31 ->
  pool_sound (snd (add pool constant)).
Proof.
  intros Hs Hhi.
  destruct (is_Index (coerce constant)) eqn:Hi.
  { destruct constant as [s | c]; [discriminate |]. destruct c; try discriminate.
    exact Hs. }
  rewrite add_in_range by (try exact Hi; destruct Hs; lia).
  destruct (_backward_entries pool !! coerce constant) as [i |] eqn:E; simpl;
    [exact Hs |].
  pose proof Hs as (Hone & _).
  apply pool_sound_bind; [exact Hs | | |].
  - apply pool_sound_free; [exact Hs | lia].
  - destruct (constant_wide (coerce constant)); lia.
  - destruct (constant_wide (coerce constant)); lia.
Qed.

Lemma set_index_bind_entry pool offset c :
  set_index (bind_entry pool offset c) (_index pool) = bind_entry pool offset c.
Proof. reflexivity. Qed.

Lemma read_entry_sound version s s' :
  read_state_sound s -> read_entry version s = Ok s' -> read_state_sound s'.
Proof.
  intros [Hs [Hq Hnd]]. unfold read_entry.
  destruct (buffer_read 1 (rs_buffer s)) as [[| t [| ? ?]] buffer1]; try discriminate.
  destruct (_constant_map t) as [constant |]; [| discriminate].
  destruct (Version_gt (since constant) version); [discriminate |].
  destruct (Variant_read constant buffer1) as [[info buffer2] | e]; [| discriminate].
  simpl.
  pose proof Hs as (Hone & Hkeys & _). simpl in Hone, Hkeys.
  assert (Hstep : rs_offset s < rs_offset s + 1 + (if wide constant then 1 else 0))
    by (destruct (wide constant); lia).
  assert (Hfree : _forward_entries (rs_pool s) !! rs_offset s = None).
  { apply (pool_sound_free _ _ Hs). simpl. lia. }
  assert (Hnotq : rs_offset s ∉ map (fun e : entry => e.1.1) (rs_uncomputed s)).
  { intros Hin. apply list_elem_of_fmap in Hin as (e & He & Hin).
    rewrite Forall_forall in Hq. apply Hq in Hin. lia. }
  destruct info as [c | i]; intros [= <-]; split; simpl.
  - apply (pool_sound_bind (set_index (rs_pool s) (rs_offset s)));
      [exact Hs | exact Hfree | lia | simpl; lia].
  - split; [| exact Hnd].
    eapply Forall_impl; [exact Hq |]. simpl. intros e [He1 He2].
    split; [lia |]. rewrite lookup_insert_ne by lia. exact He2.
  - destruct Hs as (_ & Hk & Hc). split; [simpl; lia |]. split; [| exact Hc].
    intros k c H. specialize (Hk _ _ H). simpl in *. lia.
  - split.
    + apply Forall_app. split.
      * eapply Forall_impl; [exact Hq |]. simpl. intros e [He1 He2]. split; [lia | exact He2].
      * constructor; [simpl; split; [lia | exact Hfree] | constructor].
    + rewrite map_app. apply NoDup_app. split; [exact Hnd |]. split.
      * intros x Hx Hx'. simpl in Hx'. apply list_elem_of_singleton in Hx'. subst x.
        exact (Hnotq Hx).
      * simpl. apply NoDup_singleton.
Qed.

Lemma read_loop_sound fuel version constants_count s s' :
  read_state_sound s ->
  read_loop fuel version constants_count s = Some (Ok s') ->
  read_state_sound s'.
Proof.
  revert s. induction fuel as [| fuel IH]; intros s Hs; simpl.
  - destruct (rs_offset s <? constants_count); [discriminate |]. now intros [= <-].
  - destruct (rs_offset s <? constants_count); [| now intros [= <-]].
    destruct (read_entry version s) as [s1 | e] eqn:E; [| discriminate].
    apply IH. eapply read_entry_sound; eauto.
Qed.

Lemma queue_fresh_rotate pool bound e rest :
  queue_fresh pool bound (e :: rest) -> queue_fresh pool bound (rest ++ [e]).
Proof.
  intros [Hq Hnd]. apply Forall_cons in Hq as [Hhd Htl].
  split.
  - apply Forall_app. split; [exact Htl | constructor; [exact Hhd | constructor]].
  - rewrite map_app. simpl in Hnd. apply NoDup_cons in Hnd as [Hnotin Hnd].
    apply NoDup_app. split; [exact Hnd |]. split; [| apply NoDup_singleton].
    intros x Hx Hx'. simpl in Hx'. apply list_elem_of_singleton in Hx'. subst x. exact (Hnotin Hx).
Qed.

Lemma fixup_loop_sound fuel pool uncomputed pool' :
  pool_sound pool ->
  queue_fresh pool (_index pool) uncomputed ->
  fixup_loop fuel pool uncomputed = Some (Ok pool') ->
  pool_sound pool'.
Proof.
  revert pool uncomputed.
  induction fuel as [| fuel IH]; intros pool uncomputed Hs Hq; simpl.
  - destruct uncomputed as [| [[offset constant] info] rest]; [| discriminate].
    now intros [= <-].
  - destruct uncomputed as [| [[offset constant] info] rest]; [now intros [= <-] |].
    destruct (dereference constant (_forward_entries pool) info) as [[value |] | e];
      [| | discriminate].
    + destruct Hq as [Hq Hnd]. apply Forall_cons in Hq as [[Hoff Hfree] Htl].
      simpl in Hoff, Hfree, Hnd. apply NoDup_cons in Hnd as [Hnotin Hnd].
      apply IH.
      * rewrite <- set_index_bind_entry.
        apply pool_sound_bind; [exact Hs | exact Hfree | lia | lia].
      * split; [| exact Hnd]. simpl.
        rewrite Forall_forall in Htl |- *. intros e He.
        destruct (Htl e He) as [He1 He2]. split; [exact He1 |].
        rewrite lookup_insert_ne; [exact He2 |].
        intros ->. apply Hnotin. apply list_elem_of_fmap. eauto.
    + apply IH; [exact Hs |]. now apply queue_fresh_rotate.
Qed.

Lemma pool_sound_read fuel version buffer pool :
  ConstantPool_read fuel version buffer = Some (Ok pool) -> pool_sound pool.
Proof.
  unfold ConstantPool_read.
  destruct (buffer_read 2 buffer) as [hdr buffer1].
  destruct (unpack_H hdr) as [constants_count | e]; [| discriminate].
  destruct (read_loop fuel version constants_count
              (mkReadState ConstantPool_init [] 1 buffer1)) as [[s | e] |] eqn:E;
    try discriminate.
  apply read_loop_sound in E as [Hs Hq].
  - apply fixup_loop_sound; [exact Hs | exact Hq].
  - split; [exact pool_sound_init |]. split; constructor.
Qed.

Lemma built_sound pool : built pool -> pool_sound pool.
Proof.
  induction 1 as [| fuel version buffer pool Hread | pool constant _ IH Hhi | pool _ _].
  - apply pool_sound_init.
  - eapply pool_sound_read; eauto.
  - now apply pool_sound_add.
  - apply pool_sound_init.
Qed.

(** The occupied indices of a built pool lie below [_index], and [_index]
    is positive. *)
Lemma built_wf pool : built pool -> pool_wf pool /\ - 2 ^ 31 <= _index pool.
Proof.
  intros Hb. destruct (built_sound pool Hb) as (Hidx & Hkeys & _).
  split; [| lia]. intros k c Hk. apply Hkeys in Hk. lia.
Qed.

(** ** What [read] puts into a pool *)

Lemma unpack_Truncated :
  (forall d e, unpack_H d = Err e -> e = Truncated)
  /\ (forall d e, unpack_HH d = Err e -> e = Truncated)
  /\ (forall d e, unpack_BH d = Err e -> e = Truncated)
  /\ (forall d e, unpack_i d = Err e -> e = Truncated)
  /\ (forall d e, unpack_q d = Err e -> e = Truncated)
  /\ (forall d e, unpack_f d = Err e -> e = Truncated)
  /\ (forall d e, unpack_d d = Err e -> e = Truncated).
Proof.
  repeat split; intros d e;
    [ unfold unpack_H | unfold unpack_HH | unfold unpack_BH | unfold unpack_i
    | unfold unpack_q | unfold unpack_f | unfold unpack_d ];
    repeat match goal with
           | |- context [match ?l with [] => _ | _ :: _ => _ end] => destruct l
           | |- context [if ?b then _ else _] => destruct b
           end; congruence.
Qed.

(** [constant.read] answers with a constant of its own class, or raises the
    error of a short read. *)
Lemma Variant_read_result constant buffer :
  match Variant_read constant buffer with
  | Ok (inl c, _) => variant_of c = Some constant
  | Ok (inr info, _) => info_shape constant info = true
  | Err e => e = Truncated
  end.
Proof.
  destruct unpack_Truncated as (H1 & H2 & H3 & H4 & H5 & H6 & H7).
  unfold Variant_read, UTF8_read_value.
  destruct constant; simpl;
    repeat match goal with
           | |- context [unpack_H ?d] =>
               let E := fresh in destruct (unpack_H d) eqn:E; [| apply H1 in E]
           | |- context [unpack_HH ?d] =>
               let E := fresh in destruct (unpack_HH d) as [[? ?] |] eqn:E; [| apply H2 in E]
           | |- context [unpack_BH ?d] =>
               let E := fresh in destruct (unpack_BH d) as [[? ?] |] eqn:E; [| apply H3 in E]
           | |- context [unpack_i ?d] =>
               let E := fresh in destruct (unpack_i d) eqn:E; [| apply H4 in E]
           | |- context [unpack_q ?d] =>
               let E := fresh in destruct (unpack_q d) eqn:E; [| apply H5 in E]
           | |- context [unpack_f ?d] =>
               let E := fresh in destruct (unpack_f d) eqn:E; [| apply H6 in E]
           | |- context [unpack_d ?d] =>
               let E := fresh in destruct (unpack_d d) eqn:E; [| apply H7 in E]
           end; simpl; auto.
Qed.

(** [constant.dereference] answers with a constant of its own class. *)
Lemma dereference_variant constant lookups info c :
  dereference constant lookups info = Ok (Some c) -> variant_of c = Some constant.
Proof.
  destruct constant, info as [i | a b]; simpl; try discriminate;
    repeat match goal with
           | |- context [lookups !! ?k] => destruct (lookups !! k) as [[] |]; simpl
           end;
    try discriminate; now intros [= <-].
Qed.

(** On an info of the form it reads, [dereference] raises the kind error
    only. *)
Lemma dereference_error constant lookups info e :
  info_shape constant info = true ->
  dereference constant lookups info = Err e -> e = KindMismatch.
Proof.
  intros Hshape.
  pose proof (dereference_by_first_unmet constant lookups info Hshape) as H.
  destruct (first_unmet lookups (required_referents constant info)) as [[| c] |].
  - rewrite H. destruct (waits_for_referents constant); congruence.
  - rewrite H. congruence.
  - destruct H as (c & -> & _). discriminate.
Qed.

Lemma tag_known_iff t : _constant_map t = None <-> forall v, tag v <> t.
Proof.
  split.
  - intros H v <-. rewrite _constant_map_tag in H. discriminate.
  - intros H. destruct (_constant_map t) as [v |] eqn:E; [| reflexivity].
    exfalso. apply (H v). unfold _constant_map in E.
    apply find_some in E as [_ E]. now apply Z.eqb_eq in E.
Qed.

Lemma read_entry_result version s :
  match read_entry version s with
  | Ok s' =>
      (forall k c, _forward_entries (rs_pool s) !! k = Some c -> supported version c) ->
      queue_read version (rs_uncomputed s) ->
      (forall k c, _forward_entries (rs_pool s') !! k = Some c -> supported version c)
      /\ queue_read version (rs_uncomputed s')
  | Err e => read_error e
  end.
Proof.
  unfold read_entry.
  destruct (buffer_read 1 (rs_buffer s)) as [[| t [| ? ?]] buffer1];
    try (left; reflexivity).
  destruct (_constant_map t) as [constant |] eqn:Et.
  2:{ right; left. exists t. split; [reflexivity |]. exact (proj1 (tag_known_iff t) Et). }
  destruct (Version_gt (since constant) version) eqn:Ev.
  { right; right; left. eauto. }
  pose proof (Variant_read_result constant buffer1) as Hr.
  destruct (Variant_read constant buffer1) as [[[c | info] buffer2] | e]; simpl.
  - intros Hfw Hq. split; [| exact Hq]. intros k c' H. simpl in H.
    destruct (decide (rs_offset s = k)) as [<- | Hne].
    + rewrite lookup_insert_eq in H. injection H as <-. exists constant. auto.
    + rewrite lookup_insert_ne in H by exact Hne. eauto.
  - intros Hfw Hq. split; [exact Hfw |].
    apply Forall_app. split; [exact Hq |]. constructor; [| constructor]. auto.
  - left. exact Hr.
Qed.

Lemma read_loop_result fuel version constants_count s :
  (forall k c, _forward_entries (rs_pool s) !! k = Some c -> supported version c) ->
  queue_read version (rs_uncomputed s) ->
  match read_loop fuel version constants_count s with
  | Some (Ok s') =>
      (forall k c, _forward_entries (rs_pool s') !! k = Some c -> supported version c)
      /\ queue_read version (rs_uncomputed s')
  | Some (Err e) => read_error e
  | None => True
  end.
Proof.
  revert s. induction fuel as [| fuel IH]; intros s Hfw Hq; simpl.
  - destruct (rs_offset s <? constants_count); [exact I | auto].
  - destruct (rs_offset s <? constants_count); [| auto].
    pose proof (read_entry_result version s) as Hr.
    destruct (read_entry version s) as [s1 | e]; [| exact Hr].
    destruct (Hr Hfw Hq) as [Hfw1 Hq1]. now apply IH.
Qed.

Lemma fixup_loop_result fuel version pool uncomputed :
  (forall k c, _forward_entries pool !! k = Some c -> supported version c) ->
  queue_read version uncomputed ->
  match fixup_loop fuel pool uncomputed with
  | Some (Ok pool') =>
      forall k c, _forward_entries pool' !! k = Some c -> supported version c
  | Some (Err e) => e = KindMismatch
  | None => True
  end.
Proof.
  revert pool uncomputed.
  induction fuel as [| fuel IH]; intros pool uncomputed Hfw Hq; simpl.
  - destruct uncomputed as [| [[offset constant] info] rest]; [exact Hfw | exact I].
  - destruct uncomputed as [| [[offset constant] info] rest]; [exact Hfw |].
    apply Forall_cons in Hq as [[Hv Hshape] Htl]. simpl in Hv, Hshape.
    destruct (dereference constant (_forward_entries pool) info) as [[value |] | e] eqn:E.
    + apply IH; [| exact Htl]. intros k c H. simpl in H.
      destruct (decide (offset = k)) as [<- | Hne].
      * rewrite lookup_insert_eq in H. injection H as <-.
        exists constant. split; [| exact Hv]. eapply dereference_variant; eauto.
      * rewrite lookup_insert_ne in H by exact Hne. eauto.
    + apply IH; [exact Hfw |].
      apply Forall_app. split; [exact Htl |]. constructor; [| constructor]. auto.
    + eapply dereference_error; eauto.
Qed.

Lemma ConstantPool_read_result fuel version buffer :
  match ConstantPool_read fuel version buffer with
  | Some (Ok pool) =>
      forall k c, _forward_entries pool !! k = Some c -> supported version c
  | Some (Err e) => read_error e
  | None => True
  end.
Proof.
  unfold ConstantPool_read.
  destruct (buffer_read 2 buffer) as [hdr buffer1].
  destruct (unpack_H hdr) as [constants_count | e] eqn:Eh.
  2:{ left. eapply (proj1 unpack_Truncated); eauto. }
  pose proof (read_loop_result fuel version constants_count
                (mkReadState ConstantPool_init [] 1 buffer1)) as Hr.
  destruct (read_loop fuel version constants_count
              (mkReadState ConstantPool_init [] 1 buffer1)) as [[s | e] |].
  - destruct Hr as [Hfw Hq].
    + intros k c H. simpl in H. now rewrite lookup_empty in H.
    + constructor.
    + pose proof (fixup_loop_result fuel version
                    (set_index (rs_pool s) (rs_offset s)) (rs_uncomputed s) Hfw Hq) as Hf.
      destruct (fixup_loop fuel (set_index (rs_pool s) (rs_offset s)) (rs_uncomputed s))
        as [[pool | e] |]; auto.
      subst e. right; right; right. reflexivity.
  - apply Hr; [| constructor].
    intros k c H. simpl in H. now rewrite lookup_empty in H.
  - exact I.
Qed.

(** ** Termination of the fix-up loop *)

(** An entry whose required indices are all bound is not pending. *)
Lemma dereference_not_pending constant lookups info :
  (forall i, i ∈ map fst (required_referents constant info) ->
             is_Some (lookups !! i)) ->
  dereference constant lookups info <> Ok None.
Proof.
  intros Hall.
  assert (Hin : forall i, lookups !! i = None ->
                          i ∉ map fst (required_referents constant info)).
  { intros i Hnone Hi. apply Hall in Hi as [c Hc]. congruence. }
  destruct constant, info as [i | a b]; simpl in *; try discriminate;
    repeat match goal with
           | |- context [lookups !! ?k] =>
               let E := fresh "E" in
               destruct (lookups !! k) as [[] |] eqn:E; simpl; try discriminate
           end;
    match goal with
    | E : lookups !! ?k = None |- _ =>
        exfalso; apply (Hin k E); apply list_elem_of_In; simpl; tauto
    end.
Qed.

Lemma least_rank (rank : Z -> nat) (q : list entry) :
  q <> [] ->
  exists e, e ∈ q /\ forall e', e' ∈ q -> (rank e.1.1 <= rank e'.1.1)%nat.
Proof.
  induction q as [| a q IH]; [congruence |]. intros _.
  destruct q as [| b q'].
  - exists a. split; [apply elem_of_cons; now left |]. intros e' He'.
    apply list_elem_of_singleton in He'. now subst.
  - destruct IH as (m & Hm & Hmin); [discriminate |].
    destruct (le_lt_dec (rank a.1.1) (rank m.1.1)) as [Hle | Hlt].
    + exists a. split; [apply elem_of_cons; now left |]. intros e' He'.
      apply elem_of_cons in He' as [-> | He']; [lia |].
      specialize (Hmin _ He'). lia.
    + exists m. split; [apply elem_of_cons; now right |]. intros e' He'.
      apply elem_of_cons in He' as [-> | He']; [lia | auto].
Qed.

(** A non-empty queue with well-founded references holds an entry that is
    not pending. *)
Lemma ranked_not_all_pending pool q rank :
  q <> [] -> ranked pool q rank -> ~ Forall (pending pool) q.
Proof.
  intros Hne Hr Hall.
  destruct (least_rank rank q Hne) as (e & He & Hmin).
  rewrite Forall_forall in Hall. specialize (Hall e He).
  unfold pending in Hall. revert Hall. apply dereference_not_pending.
  intros i Hi. destruct (Hr e He i Hi) as [Hsome | (e' & He' & <- & Hlt)];
    [exact Hsome |].
  specialize (Hmin e' He'). lia.
Qed.

Lemma ranked_resolved pool rank offset constant info value rest :
  ranked pool ((offset, constant, info) :: rest) rank ->
  ranked (bind_entry pool offset value) rest rank.
Proof.
  intros Hr e He i Hi.
  assert (He0 : e ∈ (offset, constant, info) :: rest) by (apply elem_of_cons; now right).
  destruct (Hr e He0 i Hi) as [Hsome | (e' & He' & Hoff & Hlt)].
  - left. simpl. destruct (decide (offset = i)) as [-> | Hne].
    + rewrite lookup_insert_eq. eauto.
    + now rewrite lookup_insert_ne.
  - apply elem_of_cons in He' as [-> | He'].
    + left. simpl in *. subst i. rewrite lookup_insert_eq. eauto.
    + right. eauto.
Qed.

Lemma ranked_same_entries pool rank q q' :
  (forall e, e ∈ q' <-> e ∈ q) -> ranked pool q rank -> ranked pool q' rank.
Proof.
  intros Hsame Hr e He i Hi. apply Hsame in He.
  destruct (Hr e He i Hi) as [Hsome | (e' & He' & Hoff & Hlt)]; [now left |].
  right. exists e'. split; [now apply Hsame | auto].
Qed.

Lemma fixup_loop_pass n :
  (forall pool q rank,
     (length q < n)%nat -> ranked pool q rank ->
     exists fuel r, fixup_loop fuel pool q = Some r) ->
  forall front back pool rank,
    length (front ++ back) = n ->
    ranked pool (front ++ back) rank ->
    Forall (pending pool) back ->
    exists fuel r, fixup_loop fuel pool (front ++ back) = Some r.
Proof.
  intros IHn front.
  induction front as [| [[offset constant] info] front IH];
    intros back pool rank Hlen Hr Hpend.
  - simpl in *. destruct back as [| e back'].
    + exists O. simpl. eauto.
    + exfalso. eapply ranked_not_all_pending; eauto. discriminate.
  - destruct (dereference constant (_forward_entries pool) info) as [[value |] | e] eqn:E.
    + destruct (IHn (bind_entry pool offset value) (front ++ back) rank) as (fuel & r & H).
      * simpl in Hlen. lia.
      * eapply ranked_resolved. exact Hr.
      * exists (S fuel), r. simpl. rewrite E. exact H.
    + destruct (IH (back ++ [(offset, constant, info)]) pool rank) as (fuel & r & H).
      * rewrite <- Hlen. rewrite !length_app. simpl. lia.
      * eapply ranked_same_entries; [| exact Hr]. intros e.
        simpl. rewrite !elem_of_app, elem_of_cons, elem_of_app, list_elem_of_singleton.
        tauto.
      * apply Forall_app. split; [exact Hpend |]. constructor; [exact E | constructor].
      * exists (S fuel), r. simpl. rewrite E.
        rewrite <- app_assoc. exact H.
    + exists 1%nat. simpl. rewrite E. eauto.
Qed.


(** ** Writing a constant and reading it back *)

Lemma be_unsigned_snoc acc data b :
  be_unsigned acc (data ++ [b]) = be_unsigned acc data * 256 + b.
Proof. revert acc. induction data as [| a data IH]; intros acc; simpl; auto. Qed.

Lemma length_be_bytes n u : length (be_bytes n u) = n.
Proof.
  revert u. induction n as [| n IH]; intros u; simpl; [reflexivity |].
  rewrite length_app, IH. simpl. lia.
Qed.

Lemma be_unsigned_be_bytes n u :
  0 <= u < 256 ^ Z.of_nat n -> be_unsigned 0 (be_bytes n u) = u.
Proof.
  revert u. induction n as [| n IH]; intros u Hu.
  - simpl in *. lia.
  - simpl be_bytes. rewrite be_unsigned_snoc, IH.
    + zdm.
    + rewrite Nat2Z.inj_succ, Z.pow_succ_r in Hu by lia. zdm.
Qed.

Lemma unpack_pack_i v data : pack_i v = Ok data -> unpack_i data = Ok v.
Proof.
  unfold pack_i, unpack_i.
  destruct (Z.leb_spec (- 2 ^ 31) v); cbn [andb]; [| discriminate].
  destruct (Z.ltb_spec v (2 ^ 31)); [| discriminate].
  remember (be_bytes 4 (v mod 2 ^ 32)) as bs eqn:Hbs.
  intros [= <-]. subst bs. rewrite length_be_bytes. simpl Nat.eqb. cbv iota.
  rewrite be_unsigned_be_bytes by (change (256 ^ Z.of_nat 4) with (2 ^ 32); zdm).
  f_equal. unfold to_signed. change (32 - 1) with 31.
  destruct (Z.ltb_spec (v mod 2 ^ 32) (2 ^ 31)); zdm.
Qed.

Lemma unpack_pack_q v data : pack_q v = Ok data -> unpack_q data = Ok v.
Proof.
  unfold pack_q, unpack_q.
  destruct (Z.leb_spec (- 2 ^ 63) v); cbn [andb]; [| discriminate].
  destruct (Z.ltb_spec v (2 ^ 63)); [| discriminate].
  remember (be_bytes 8 (v mod 2 ^ 64)) as bs eqn:Hbs.
  intros [= <-]. subst bs. rewrite length_be_bytes. simpl Nat.eqb. cbv iota.
  rewrite be_unsigned_be_bytes by (change (256 ^ Z.of_nat 8) with (2 ^ 64); zdm).
  f_equal. unfold to_signed. change (64 - 1) with 63.
  destruct (Z.ltb_spec (v mod 2 ^ 64) (2 ^ 63)); zdm.
Qed.

Lemma length_pack_i v data : pack_i v = Ok data -> length data = 4%nat.
Proof.
  unfold pack_i. destruct (_ && _); [| discriminate].
  remember (be_bytes 4 (v mod 2 ^ 32)) as bs eqn:Hbs.
  intros [= <-]. subst bs. apply length_be_bytes.
Qed.

Lemma length_pack_q v data : pack_q v = Ok data -> length data = 8%nat.
Proof.
  unfold pack_q. destruct (_ && _); [| discriminate].
  remember (be_bytes 8 (v mod 2 ^ 64)) as bs eqn:Hbs.
  intros [= <-]. subst bs. apply length_be_bytes.
Qed.

Lemma buffer_read_app n data rest :
  Z.to_nat n = length data -> buffer_read n (data ++ rest) = (data, rest).
Proof.
  intros H. unfold buffer_read. rewrite H.
  now rewrite take_app_length, drop_app_length.
Qed.

Lemma unpack_pack_HH a b data :
  pack_HH a b = Ok data -> length data = 4%nat /\ unpack_HH data = Ok (a, b).
Proof.
  unfold pack_HH.
  destruct (pack_H a) as [x |] eqn:Ex; [| discriminate].
  destruct (pack_H b) as [y |] eqn:Ey; [| discriminate].
  simpl. intros [= <-].
  destruct (unpack_pack_H _ _ Ex) as [Lx Ux], (unpack_pack_H _ _ Ey) as [Ly Uy].
  destruct x as [| x0 [| x1 [| ? ?]]]; try discriminate Lx.
  destruct y as [| y0 [| y1 [| ? ?]]]; try discriminate Ly.
  split; [reflexivity |].
  unfold unpack_H in Ux, Uy. injection Ux as <-. injection Uy as <-. reflexivity.
Qed.

Lemma unpack_pack_BH k a data :
  pack_BH k a = Ok data -> length data = 3%nat /\ unpack_BH data = Ok (k, a).
Proof.
  unfold pack_BH. destruct (_ && _); [| discriminate].
  destruct (pack_H a) as [y |] eqn:Ey; [| discriminate].
  simpl. intros [= <-].
  destruct (unpack_pack_H _ _ Ey) as [Ly Uy].
  destruct y as [| y0 [| y1 [| ? ?]]]; try discriminate Ly.
  split; [reflexivity |].
  unfold unpack_H in Uy. injection Uy as <-. reflexivity.
Qed.

Lemma str_encode_utf8_no_surrogates s raw :
  Forall is_code_point s -> str_encode_utf8 s = Ok raw -> no_surrogates s.
Proof.
  intros Hs. revert raw. induction Hs as [| c s Hc _ IH]; intros raw; [constructor |].
  simpl. destruct (utf8_encode_cp c) as [bs |] eqn:Ec; [| discriminate].
  destruct (str_encode_utf8 s) as [tl |]; [| discriminate]. intros _.
  constructor; [| eapply IH; eauto]. split; [exact Hc |].
  unfold utf8_encode_cp in Ec. unfold is_surrogate in *.
  destruct (c <? 128) eqn:E1.
  { apply Z.ltb_lt in E1. apply andb_false_iff. left. apply Z.leb_gt. lia. }
  destruct (c <? 2048) eqn:E2.
  { apply Z.ltb_lt in E2. apply andb_false_iff. left. apply Z.leb_gt. lia. }
  destruct (c <? 65536) eqn:E3.
  { destruct ((55296 <=? c) && (c <=? 57343)); [discriminate | reflexivity]. }
  apply Z.ltb_ge in E3. apply andb_false_iff. right. apply Z.leb_gt. lia.
Qed.

Lemma UTF8_write_read s buffer out rest :
  Forall is_code_point s ->
  UTF8_write s buffer = Ok out ->
  exists data, out = buffer ++ data /\ UTF8_read_value (data ++ rest) = Ok (s, rest).
Proof.
  intros Hs. unfold UTF8_write, encode_mutf8.
  destruct (str_encode_utf8 s) as [raw |] eqn:Eraw; [| discriminate]. simpl.
  destruct (pack_H _) as [len |] eqn:Hpack; [| discriminate]. simpl.
  intros [= <-].
  pose proof (str_encode_utf8_no_surrogates s raw Hs Eraw) as Hns.
  destruct (str_encode_utf8_roundtrip s Hns) as (raw' & Eraw' & Hrep & Hdec).
  rewrite Eraw in Eraw'. injection Eraw' as <-.
  exists (len ++ bytes_replace [0] [192; 128] raw). split; [reflexivity |].
  destruct (unpack_pack_H _ _ Hpack) as [Hlen2 Hunpack].
  destruct len as [| hi [| lo [| ? ?]]]; try discriminate Hlen2.
  change (([hi; lo] ++ bytes_replace [0] [192; 128] raw) ++ rest)
    with (hi :: lo :: bytes_replace [0] [192; 128] raw ++ rest).
  rewrite UTF8_read_value_header, Hunpack. simpl bind.
  unfold buffer_read. rewrite Nat2Z.id, take_app_length, drop_app_length.
  unfold decode_mutf8. now rewrite Hrep, Hdec.
Qed.

(** The index [add] returns holds the constant, and [add] keeps what the
    pool held, wherever [_index] stands. *)
Lemma add_lookup pool x :
  pool_sound pool -> is_Index (coerce x) = false ->
  _forward_entries (snd (add pool x)) !! fst (add pool x) = Some (coerce x)
  /\ (forall k y, _forward_entries pool !! k = Some y ->
                  _forward_entries (snd (add pool x)) !! k = Some y).
Proof.
  intros Hs Hi. rewrite add_not_Index by exact Hi.
  destruct (_backward_entries pool !! coerce x) as [i |] eqn:E; simpl.
  - split; [| auto]. destruct Hs as (_ & _ & Hcons). auto.
  - split; [apply lookup_insert_eq |]. intros k y H.
    destruct Hs as (_ & Hkeys & _). specialize (Hkeys _ _ H).
    rewrite lookup_insert_ne by lia. exact H.
Qed.

(** An [add] either finds the constant, and leaves the pool alone, or
    returns [_index]. *)
Lemma add_found_or_new pool x :
  snd (add pool x) = pool \/ fst (add pool x) = _index pool.
Proof.
  destruct (is_Index (coerce x)) eqn:Hi.
  { destruct x as [s | c]; [discriminate |]. destruct c; try discriminate. now left. }
  rewrite add_not_Index by exact Hi.
  destruct (_backward_entries pool !! coerce x); simpl; auto.
Qed.

(** An [add] that returns an index of 16 bits has not made [_index]
    overflow. *)
Lemma add_sound_lookup pool x :
  pool_sound pool -> is_Index (coerce x) = false ->
  fst (add pool x) <= 65535 ->
  pool_sound (snd (add pool x))
  /\ _forward_entries (snd (add pool x)) !! fst (add pool x) = Some (coerce x)
  /\ (forall k y, _forward_entries pool !! k = Some y ->
                  _forward_entries (snd (add pool x)) !! k = Some y).
Proof.
  intros Hs Hi Hle. split; [| now apply add_lookup].
  destruct (add_found_or_new pool x) as [-> | Heq]; [exact Hs |].
  apply pool_sound_add; [exact Hs | lia].
Qed.

Lemma pack_H_range i data : pack_H i = Ok data -> 0 <= i <= 65535.
Proof.
  unfold pack_H. destruct (Z.leb_spec 0 i), (Z.leb_spec i 65535);
    simpl; try discriminate. lia.
Qed.

Lemma pack_HH_range a b data :
  pack_HH a b = Ok data -> 0 <= a <= 65535 /\ 0 <= b <= 65535.
Proof.
  unfold pack_HH.
  destruct (pack_H a) eqn:Ea; [| discriminate].
  destruct (pack_H b) eqn:Eb; [| discriminate].
  intros _. split; eapply pack_H_range; eauto.
Qed.

Lemma pack_BH_range k a data : pack_BH k a = Ok data -> 0 <= a <= 65535.
Proof.
  unfold pack_BH. destruct (_ && _); [| discriminate].
  destruct (pack_H a) eqn:Ea; [| discriminate].
  intros _. eapply pack_H_range; eauto.
Qed.

Lemma Variant_read_packed_H v i data rest :
  info_shape v (Info1 i) = true ->
  pack_H i = Ok data ->
  Variant_read v (data ++ rest) = Ok (inr (Info1 i), rest).
Proof.
  intros Hv Hp. destruct (unpack_pack_H _ _ Hp) as [Hlen Hun].
  destruct v; try discriminate Hv; unfold Variant_read;
    rewrite buffer_read_app by (rewrite Hlen; reflexivity);
    rewrite Hun; reflexivity.
Qed.

Lemma Variant_read_packed_HH v a b data rest :
  info_shape v (Info2 a b) = true -> v <> VMethodHandle ->
  pack_HH a b = Ok data ->
  Variant_read v (data ++ rest) = Ok (inr (Info2 a b), rest).
Proof.
  intros Hv Hne Hp. destruct (unpack_pack_HH _ _ _ Hp) as [Hlen Hun].
  destruct v; try discriminate Hv; try congruence; unfold Variant_read;
    rewrite buffer_read_app by (rewrite Hlen; reflexivity);
    rewrite Hun; reflexivity.
Qed.

Lemma Variant_read_packed_BH k a data rest :
  pack_BH k a = Ok data ->
  Variant_read VMethodHandle (data ++ rest) = Ok (inr (Info2 k a), rest).
Proof.
  intros Hp. destruct (unpack_pack_BH _ _ _ Hp) as [Hlen Hun].
  unfold Variant_read. rewrite buffer_read_app by (rewrite Hlen; reflexivity).
  rewrite Hun. reflexivity.
Qed.

Lemma primitive_written c pool buffer pool' out :
  exact_primitive c ->
  constant_write c pool buffer = Ok (pool', out) ->
  pool' = pool
  /\ exists v data,
       variant_of c = Some v
       /\ out = buffer ++ data
       /\ forall rest, Variant_read v (data ++ rest) = Ok (inl c, rest).
Proof.
  intros Hc. destruct c; try contradiction; simpl constant_write.
  - destruct (UTF8_write value buffer) as [out' |] eqn:E; [| discriminate].
    simpl. intros [= <- <-]. split; [reflexivity |].
    destruct (UTF8_write_read value buffer out' [] Hc E) as (data & -> & _).
    exists VUTF8, data. repeat split. intros rest.
    assert (E' : UTF8_write value buffer = Ok (buffer ++ data)) by exact E.
    destruct (UTF8_write_read value buffer _ rest Hc E') as (data' & Heq & Hread).
    apply app_inv_head in Heq. subst data'.
    unfold Variant_read. rewrite Hread. reflexivity.
  - destruct (pack_i value) as [data |] eqn:E; [| discriminate].
    simpl. intros [= <- <-]. split; [reflexivity |].
    exists VInteger, data. repeat split. intros rest.
    unfold Variant_read.
    rewrite buffer_read_app by (rewrite (length_pack_i _ _ E); reflexivity).
    now rewrite (unpack_pack_i _ _ E).
  - destruct (pack_q value) as [data |] eqn:E; [| discriminate].
    simpl. intros [= <- <-]. split; [reflexivity |].
    exists VLong, data. repeat split. intros rest.
    unfold Variant_read.
    rewrite buffer_read_app by (rewrite (length_pack_q _ _ E); reflexivity).
    now rewrite (unpack_pack_q _ _ E).
Qed.

(** X17: an [Integer], a [Long] or a [UTF8] constant that [write] accepts is
    read back from the written bytes by [read] of its class, which stops
    right after them; writing it leaves the pool alone. *)
Theorem primitive_write_read c pool buffer pool' out :
  exact_primitive c ->
  constant_write c pool buffer = Ok (pool', out) ->
  pool' = pool
  /\ exists v data,
       variant_of c = Some v
       /\ out = buffer ++ data
       /\ forall rest, Variant_read v (data ++ rest) = Ok (inl c, rest).
Proof. apply primitive_written. Qed.

(** One [add] of [constant_write] whose index was then packed: name what
    it keeps. *)
Ltac add_facts Hs E Hle Hs' Hlook Hkeep :=
  match type of E with
  | add ?p ?x = (?i, ?p1) =>
      assert (Hs' : pool_sound p1
                    /\ _forward_entries p1 !! i = Some (coerce x)
                    /\ (forall k y, _forward_entries p !! k = Some y ->
                                    _forward_entries p1 !! k = Some y));
      [ pose proof (add_sound_lookup p x Hs eq_refl) as Hlook;
        rewrite E in Hlook; simpl in Hlook; apply Hlook; lia
      | destruct Hs' as (Hs' & Hlook & Hkeep); simpl in Hlook ]
  end.

Lemma write_utf8_index pool buffer s pool' out v (make : pystr -> ConstantInfo) :
  pool_sound pool ->
  info_shape v (Info1 0) = true ->
  (let '(i, pool1) := add_utf8 pool s in
   do data <- pack_H i; Ok (pool1, buffer ++ data)) = Ok (pool', out) ->
  pool_sound pool'
  /\ (forall k y, _forward_entries pool !! k = Some y ->
                  _forward_entries pool' !! k = Some y)
  /\ exists i data,
       out = buffer ++ data
       /\ (forall rest, Variant_read v (data ++ rest) = Ok (inr (Info1 i), rest))
       /\ _forward_entries pool' !! i = Some (UTF8 s).
Proof.
  intros Hs Hv. unfold add_utf8.
  destruct (add pool (Str s)) as [i pool1] eqn:E1.
  destruct (pack_H i) as [data |] eqn:Ep; [| discriminate].
  simpl. intros [= <- <-].
  pose proof (pack_H_range _ _ Ep) as Hi.
  add_facts Hs E1 Hi Hs1 Hlook Hkeep.
  split; [exact Hs1 |]. split; [exact Hkeep |].
  exists i, data. repeat split; [| exact Hlook].
  intros rest. apply Variant_read_packed_H; [| exact Ep].
  destruct v; try discriminate Hv; reflexivity.
Qed.

Lemma reference_written c pool buffer pool' out :
  pool_sound pool ->
  reference_bearing c = true ->
  constant_write c pool buffer = Ok (pool', out) ->
  pool_sound pool'
  /\ (forall k y, _forward_entries pool !! k = Some y ->
                  _forward_entries pool' !! k = Some y)
  /\ exists v data info,
       variant_of c = Some v
       /\ out = buffer ++ data
       /\ (forall rest, Variant_read v (data ++ rest) = Ok (inr info, rest))
       /\ dereference v (_forward_entries pool') info = Ok (Some c).
Proof.
  intros Hs Hc.
  assert (Hutf8 : forall v s (make : pystr -> ConstantInfo),
    info_shape v (Info1 0) = true ->
    (forall L i, L !! i = Some (UTF8 s) ->
                 dereference v L (Info1 i) = Ok (Some (make s))) ->
    variant_of (make s) = Some v ->
    (let '(i, pool1) := add_utf8 pool s in
     do data <- pack_H i; Ok (pool1, buffer ++ data)) = Ok (pool', out) ->
    pool_sound pool'
    /\ (forall k y, _forward_entries pool !! k = Some y ->
                    _forward_entries pool' !! k = Some y)
    /\ exists v' data info,
         variant_of (make s) = Some v'
         /\ out = buffer ++ data
         /\ (forall rest, Variant_read v' (data ++ rest) = Ok (inr info, rest))
         /\ dereference v' (_forward_entries pool') info = Ok (Some (make s))).
  { intros v s make Hv Hderef Hvar H.
    destruct (write_utf8_index pool buffer s pool' out v make Hs Hv H)
      as (Hs' & Hkeep & i & data & -> & Hread & Hlook).
    split; [exact Hs' |]. split; [exact Hkeep |].
    exists v, data, (Info1 i). repeat split; auto. }
  assert (Hpair : forall v (class_ : ClassC) (nt : NameAndTypeC)
                         (make : ClassC -> NameAndTypeC -> ConstantInfo),
    info_shape v (Info2 0 0) = true -> v <> VMethodHandle ->
    (forall L a b, L !! a = Some (Class_ class_) -> L !! b = Some (NameAndType nt) ->
                   dereference v L (Info2 a b) = Ok (Some (make class_ nt))) ->
    variant_of (make class_ nt) = Some v ->
    (let '(i, pool1) := add pool (Const (Class_ class_)) in
     let '(j, pool2) := add pool1 (Const (NameAndType nt)) in
     do data <- pack_HH i j; Ok (pool2, buffer ++ data)) = Ok (pool', out) ->
    pool_sound pool'
    /\ (forall k y, _forward_entries pool !! k = Some y ->
                    _forward_entries pool' !! k = Some y)
    /\ exists v' data info,
         variant_of (make class_ nt) = Some v'
         /\ out = buffer ++ data
         /\ (forall rest, Variant_read v' (data ++ rest) = Ok (inr info, rest))
         /\ dereference v' (_forward_entries pool') info = Ok (Some (make class_ nt))).
  { intros v class_ nt make Hv Hne Hderef Hvar.
    destruct (add pool (Const (Class_ class_))) as [i pool1] eqn:E1.
    destruct (add pool1 (Const (NameAndType nt))) as [j pool2] eqn:E2.
    destruct (pack_HH i j) as [data |] eqn:Ep; [| discriminate].
    simpl. intros [= <- <-].
    destruct (pack_HH_range _ _ _ Ep) as [Hi Hj].
    add_facts Hs E1 Hi Hs1 Hlook1 Hkeep1.
    add_facts Hs1 E2 Hj Hs2 Hlook2 Hkeep2.
    split; [assumption |]. split; [auto |].
    exists v, data, (Info2 i j). repeat split; auto.
    intros rest. apply Variant_read_packed_HH; auto. }
  assert (Hdyn : forall v (b : Z) (nt : NameAndTypeC)
                        (make : Z -> NameAndTypeC -> ConstantInfo),
    info_shape v (Info2 0 0) = true -> v <> VMethodHandle ->
    (forall L j, L !! j = Some (NameAndType nt) ->
                 dereference v L (Info2 b j) = Ok (Some (make b nt))) ->
    variant_of (make b nt) = Some v ->
    (let '(j, pool1) := add pool (Const (NameAndType nt)) in
     do data <- pack_HH b j; Ok (pool1, buffer ++ data)) = Ok (pool', out) ->
    pool_sound pool'
    /\ (forall k y, _forward_entries pool !! k = Some y ->
                    _forward_entries pool' !! k = Some y)
    /\ exists v' data info,
         variant_of (make b nt) = Some v'
         /\ out = buffer ++ data
         /\ (forall rest, Variant_read v' (data ++ rest) = Ok (inr info, rest))
         /\ dereference v' (_forward_entries pool') info = Ok (Some (make b nt))).
  { intros v b nt make Hv Hne Hderef Hvar.
    destruct (add pool (Const (NameAndType nt))) as [j pool1] eqn:E1.
    destruct (pack_HH b j) as [data |] eqn:Ep; [| discriminate].
    simpl. intros [= <- <-].
    destruct (pack_HH_range _ _ _ Ep) as [_ Hj].
    add_facts Hs E1 Hj Hs1 Hlook1 Hkeep1.
    split; [assumption |]. split; [auto |].
    exists v, data, (Info2 b j). repeat split; auto.
    intros rest. apply Variant_read_packed_HH; auto. }
  destruct c as [| | | | | | [cn] | | cl nt | cl nt | cl nt | [n d]
                 | kind reference | | b nt | b nt | |];
    try discriminate Hc; cbn [constant_write class_name].
  - apply (Hutf8 VClass cn (fun s => Class_ (mkClass s))); [reflexivity | | reflexivity].
    intros L i H. simpl. now rewrite H.
  - apply (Hutf8 VString value String_); [reflexivity | | reflexivity].
    intros L i H. simpl. now rewrite H.
  - apply (Hpair VFieldRef cl nt FieldRef); [reflexivity | discriminate | | reflexivity].
    intros L a b Ha Hb. simpl. now rewrite Ha, Hb.
  - apply (Hpair VMethodRef cl nt MethodRef); [reflexivity | discriminate | | reflexivity].
    intros L a b Ha Hb. simpl. now rewrite Ha, Hb.
  - apply (Hpair VInterfaceMethodRef cl nt InterfaceMethodRef); [reflexivity | discriminate | | reflexivity].
    intros L a b Ha Hb. simpl. now rewrite Ha, Hb.
  - unfold add_utf8. simpl nt_name. simpl nt_descriptor.
    destruct (add pool (Str n)) as [i pool1] eqn:E1.
    destruct (add pool1 (Str d)) as [j pool2] eqn:E2.
    destruct (pack_HH i j) as [data |] eqn:Ep; [| discriminate].
    simpl. intros [= <- <-].
    destruct (pack_HH_range _ _ _ Ep) as [Hi Hj].
    add_facts Hs E1 Hi Hs1 Hlook1 Hkeep1.
    add_facts Hs1 E2 Hj Hs2 Hlook2 Hkeep2.
    split; [assumption |]. split; [auto |].
    exists VNameAndType, data, (Info2 i j). repeat split; auto.
    + intros rest. apply Variant_read_packed_HH; [reflexivity | discriminate | exact Ep].
    + simpl. rewrite (Hkeep2 _ _ Hlook1), Hlook2. reflexivity.
  - simpl in Hc.
    assert (Hi : is_Index (coerce (Const reference)) = false)
      by (destruct reference; try discriminate Hc; reflexivity).
    destruct (add pool (Const reference)) as [i pool1] eqn:E1.
    destruct (pack_BH kind i) as [data |] eqn:Ep; [| discriminate].
    simpl. intros [= <- <-].
    pose proof (pack_BH_range _ _ _ Ep) as Hle.
    pose proof (add_sound_lookup pool (Const reference) Hs Hi) as Hadd.
    rewrite E1 in Hadd. simpl in Hadd.
    destruct Hadd as (Hs1 & Hlook & Hkeep); [lia |].
    split; [assumption |]. split; [auto |].
    exists VMethodHandle, data, (Info2 kind i). repeat split; auto.
    + intros rest. now apply Variant_read_packed_BH.
    + simpl. rewrite Hlook. destruct reference; try discriminate Hc; reflexivity.
  - apply (Hutf8 VMethodType descriptor MethodType); [reflexivity | | reflexivity].
    intros L i H. simpl. now rewrite H.
  - apply (Hdyn VDynamic b nt Dynamic); [reflexivity | discriminate | | reflexivity].
    intros L j Hj. simpl. now rewrite Hj.
  - apply (Hdyn VInvokeDynamic b nt InvokeDynamic); [reflexivity | discriminate | | reflexivity].
    intros L j Hj. simpl. now rewrite Hj.
  - apply (Hutf8 VModule name Module_); [reflexivity | | reflexivity].
    intros L i H. simpl. now rewrite H.
  - apply (Hutf8 VPackage name Package); [reflexivity | | reflexivity].
    intros L i H. simpl. now rewrite H.
Qed.

(** X18: a reference-bearing constant written into a pool built without
    [__setitem__] is rebuilt by [dereference] from the bytes it wrote and
    the pool it wrote them against. *)
Theorem reference_write_dereference c pool buffer pool' out :
  pool_sound pool ->
  reference_bearing c = true ->
  constant_write c pool buffer = Ok (pool', out) ->
  pool_sound pool'
  /\ (forall k y, _forward_entries pool !! k = Some y ->
                  _forward_entries pool' !! k = Some y)
  /\ exists v data info,
       variant_of c = Some v
       /\ out = buffer ++ data
       /\ (forall rest, Variant_read v (data ++ rest) = Ok (inr info, rest))
       /\ dereference v (_forward_entries pool') info = Ok (Some c).
Proof. apply reference_written. Qed.

Lemma primitive_write_read_witness :
  Variant_read VInteger ([255; 255; 255; 254] ++ [9]) = Ok (inl (Integer (-2)), [9]).
Proof.
  destruct (primitive_write_read (Integer (-2)) ConstantPool_init []
              ConstantPool_init [255; 255; 255; 254] I eq_refl)
    as (_ & v & data & Hv & Hout & Hread).
  injection Hv as <-. simpl in Hout. subst data. apply Hread.
Defined.

Lemma reference_write_dereference_witness :
  exists pool' out info,
    constant_write (FieldRef (mkClass [65]) (mkNameAndType [120] [73]))
                   ConstantPool_init [] = Ok (pool', out)
    /\ Variant_read VFieldRef out = Ok (inr info, [])
    /\ dereference VFieldRef (_forward_entries pool') info
         = Ok (Some (FieldRef (mkClass [65]) (mkNameAndType [120] [73]))).
Proof.
  destruct (constant_write (FieldRef (mkClass [65]) (mkNameAndType [120] [73]))
              ConstantPool_init []) as [[pool' out] | e] eqn:E;
    [| vm_compute in E; discriminate E].
  destruct (reference_write_dereference
              (FieldRef (mkClass [65]) (mkNameAndType [120] [73]))
              ConstantPool_init [] pool' out pool_sound_init eq_refl E)
    as (_ & _ & v & data & info & Hv & Hout & Hread & Hderef).
  injection Hv as <-. simpl in Hout. subst out.
  exists pool', data, info. split; [reflexivity |]. split; [| exact Hderef].
  rewrite <- (app_nil_r data). apply Hread.
Defined.

(** X1: in a pool built by the constructor, [read], [add] and [clear],
    [_index] is at least 1, the occupied indices lie in [1, _index) (index 0
    is never occupied), and every constant of the backward dictionary sits at
    its index in the forward dictionary. *)
Theorem built_pool_layout pool :
  built pool ->
  1 <= _index pool
  /\ (forall k c, _forward_entries pool !! k = Some c -> 1 <= k < _index pool)
  /\ _forward_entries pool !! 0 = None
  /\ (forall c i, _backward_entries pool !! c = Some i ->
        _forward_entries pool !! i = Some c).
Proof.
  intros Hb. destruct (built_sound pool Hb) as (Hone & Hkeys & Hcons).
  repeat split; auto; try (apply (Hkeys _ _ H)).
  destruct (_forward_entries pool !! 0) eqn:E; [| reflexivity].
  apply Hkeys in E. lia.
Qed.

Lemma built_pool_layout_witness : _forward_entries pool_5 !! 0 = None.
Proof.
  assert (Hb : built pool_5) by (unfold pool_5;
        repeat (apply built_add; [| vm_compute; reflexivity]); apply built_init).
  destruct (built_pool_layout pool_5 Hb) as (_ & _ & H & _). exact H.
Defined.

(** X2: in such a pool, the index [add] returns for a constant (a [str]
    counting as its [UTF8]) holds that constant: [pool[i]] and
    [get(i, do_raise=True)] give it back, and both the index and the constant
    are [in] the pool. *)
Theorem add_then_lookup pool c :
  built pool ->
  is_Index (coerce c) = false ->
  let i := fst (add pool c) in
  let pool' := snd (add pool c) in
  getitem pool' i = Ok (coerce c)
  /\ get pool' i None true = Ok (coerce c)
  /\ contains pool' (KInt i) = true
  /\ contains pool' (KConst (coerce c)) = true.
Proof.
  intros Hb Hi. cbv zeta.
  destruct (add_lookup pool c (built_sound pool Hb) Hi) as (Hlook & _).
  pose proof (add_records pool c Hi) as Hrec.
  unfold getitem, get, contains. rewrite Hlook, Hrec.
  repeat split; apply bool_decide_eq_true; eauto.
Qed.

Lemma add_then_lookup_witness :
  getitem (snd (add pool_5 (Const (Long 9)))) (fst (add pool_5 (Const (Long 9))))
    = Ok (Long 9).
Proof.
  assert (Hb : built pool_5) by (unfold pool_5;
        repeat (apply built_add; [| vm_compute; reflexivity]); apply built_init).
  apply (proj1 (add_then_lookup pool_5 (Const (Long 9)) Hb ltac:(reflexivity))).
Defined.

(** X3: in such a pool, [get_utf8] of the index [add_utf8] returned gives the
    string back, with or without a default, and the indices [add_class] and
    [add_string] return hold the [Class] and the [String] of that name (for
    [add_class], a name that is not handed to the descriptor parser). *)
Theorem convenience_adders_lookup pool s :
  built pool ->
  (forall d, get_utf8 (snd (add_utf8 pool s)) (fst (add_utf8 pool s)) d = Returns s)
  /\ (plain_class_name s = true ->
      getitem (snd (add_class pool s)) (fst (add_class pool s))
        = Ok (Class_ (mkClass s)))
  /\ getitem (snd (add_string pool s)) (fst (add_string pool s)) = Ok (String_ s).
Proof.
  intros Hb. pose proof (built_sound pool Hb) as Hs.
  unfold add_utf8, add_class, add_string, get_utf8, getitem.
  destruct (add_lookup pool (Str s) Hs eq_refl) as (H1 & _).
  destruct (add_lookup pool (Const (Class_ (mkClass s))) Hs eq_refl) as (H2 & _).
  destruct (add_lookup pool (Const (String_ s)) Hs eq_refl) as (H3 & _).
  rewrite H1, H2, H3. auto.
Qed.

Lemma convenience_adders_lookup_witness :
  get_utf8 (snd (add_utf8 pool_a hello)) (fst (add_utf8 pool_a hello)) None
    = Returns hello.
Proof.
  assert (Hb : built pool_a) by (apply built_add; [apply built_init | vm_compute; reflexivity]).
  apply (proj1 (convenience_adders_lookup pool_a hello Hb)).
Defined.

(** X4: in every pool, whatever its history, [pool[c]] after [add(c)] is the
    index [add] returned; this holds for the [Index] sentinel too. *)
Theorem lookup_by_value_after_add pool c :
  getitem_key (snd (add pool c)) (KConst (coerce c))
    = Returns (inr (fst (add pool c))).
Proof.
  destruct (is_Index (coerce c)) eqn:Hi.
  - destruct c as [s | k]; [discriminate |]. destruct k; try discriminate. reflexivity.
  - pose proof (add_records pool c Hi) as Hrec. unfold getitem_key.
    destruct (coerce c); try discriminate Hi; now rewrite Hrec.
Qed.

Lemma setitem_returned pool index i pool' :
  setitem pool index i = Ok pool' -> pool' = fst (setitem_run pool index i).
Proof.
  unfold setitem. destruct (snd (setitem_run pool index i)); simpl; [| discriminate].
  now intros [= <-].
Qed.

Lemma setitem_entries pool index c pool' :
  is_Index c = false ->
  setitem pool index (Const c) = Ok pool' ->
  _forward_entries pool' = <[index := c]> (_forward_entries pool)
  /\ _backward_entries pool' = <[c := index]> (_backward_entries pool).
Proof.
  intros Hc Hset. apply setitem_returned in Hset. subst pool'.
  now apply setitem_run_entries.
Qed.

(** X5: [__setitem__] does not detach the constant it replaces: after
    [pool[index] = a] and then [pool[index] = b] the slot holds [b], yet [a]
    is still [in] the pool and [add(a)] returns [index] without adding
    anything. *)
Theorem setitem_leaves_stale_entry pool index a b pool1 pool2 :
  is_Index a = false -> is_Index b = false -> a <> b ->
  setitem pool index (Const a) = Ok pool1 ->
  setitem pool1 index (Const b) = Ok pool2 ->
  getitem pool2 index = Ok b
  /\ contains pool2 (KConst a) = true
  /\ add pool2 (Const a) = (index, pool2).
Proof.
  intros Ha Hb Hne H1 H2.
  destruct (setitem_entries pool index a pool1 Ha H1) as (_ & Hback1).
  destruct (setitem_entries pool1 index b pool2 Hb H2) as (Hfw2 & Hback2).
  assert (Hstale : _backward_entries pool2 !! a = Some index).
  { rewrite Hback2, lookup_insert_ne by congruence. rewrite Hback1.
    apply lookup_insert_eq. }
  split; [unfold getitem; rewrite Hfw2, lookup_insert_eq; reflexivity |].
  split; [unfold contains; apply bool_decide_eq_true; rewrite Hstale; eauto |].
  rewrite (add_not_Index pool2 (Const a) Ha). simpl coerce. now rewrite Hstale.
Qed.

Lemma setitem_leaves_stale_entry_witness :
  exists pool2,
    setitem pool_a 1 (Const (UTF8 [98])) = Ok pool2
    /\ getitem pool2 1 = Ok (UTF8 [98])
    /\ fst (add pool2 (Const (UTF8 [97]))) = 1.
Proof.
  eexists. split; [reflexivity |].
  destruct (setitem_leaves_stale_entry ConstantPool_init 1 (UTF8 [97]) (UTF8 [98])
              pool_a _ ltac:(reflexivity) ltac:(reflexivity) ltac:(discriminate)
              ltac:(reflexivity) ltac:(reflexivity)) as (H1 & _ & H3).
  split; [exact H1 | now rewrite H3].
Defined.

(** ** The sentinel, the length and the next index *)

Lemma reachable_no_Index pool :
  reachable pool ->
  forall k c, _forward_entries pool !! k = Some c -> is_Index c = false.
Proof.
  induction 1 as [| fuel version buffer pool Hread | pool constant _ IH
                  | pool index i _ IH | pool _ _]; intros k c H.
  - simpl in H. now rewrite lookup_empty in H.
  - pose proof (ConstantPool_read_result fuel version buffer) as Hr.
    rewrite Hread in Hr. destruct (Hr k c H) as (v & Hv & _). now destruct c.
  - destruct (is_Index (coerce constant)) eqn:Hi.
    + destruct constant as [s | x]; [discriminate |].
      destruct x; try discriminate. simpl in H. eauto.
    + rewrite add_not_Index in H by exact Hi.
      destruct (_backward_entries pool !! coerce constant); simpl in H; [eauto |].
      destruct (decide (_index pool = k)) as [<- | Hne].
      * rewrite lookup_insert_eq in H. now injection H as <-.
      * rewrite lookup_insert_ne in H by exact Hne. eauto.
  - destruct i as [s | x]; [simpl in H; eauto |].
    destruct (is_Index x) eqn:Hx.
    + unfold setitem_run in H. rewrite Hx in H. simpl in H. eauto.
    + destruct (setitem_run_entries pool index x Hx) as (Hfw & _).
      rewrite Hfw in H. destruct (decide (index = k)) as [<- | Hne].
      * rewrite lookup_insert_eq in H. now injection H as <-.
      * rewrite lookup_insert_ne in H by exact Hne. eauto.
  - simpl in H. now rewrite lookup_empty in H.
Qed.

(** X6: no operation ever binds an [Index].  In every pool a program can
    hold, a constant that [pool[i]] returns is an [Index] exactly when slot
    [i] is empty; on an empty slot [pool[i]] returns [Index(i)] when [i]
    fits the C [int] of [Index] and raises [OverflowError] when it does
    not; and [get(i, do_raise=True)] never returns an [Index]. *)
Theorem sentinel_means_empty pool :
  reachable pool ->
  (forall i c, getitem pool i = Ok c ->
     (is_Index c = true <-> _forward_entries pool !! i = None))
  /\ (forall i, _forward_entries pool !! i = None ->
        getitem pool i = if fits_int i then Ok (Index i) else Err Overflow)
  /\ (forall i c, get pool i None true = Ok c -> is_Index c = false).
Proof.
  intros Hr. pose proof (reachable_no_Index pool Hr) as Hno.
  split; [| split].
  - intros i c. unfold getitem, Index_init, as_int.
    destruct (_forward_entries pool !! i) as [c' |] eqn:E.
    + intros [= <-]. rewrite (Hno _ _ E). split; discriminate.
    + destruct (fits_int i); simpl; [| discriminate]. intros [= <-]. tauto.
  - intros i E. unfold getitem, Index_init, as_int. rewrite E.
    now destruct (fits_int i).
  - intros i c. unfold get.
    destruct (_forward_entries pool !! i) as [c' |] eqn:E; [| discriminate].
    intros [= <-]. eauto.
Qed.

Lemma sentinel_means_empty_witness :
  getitem pool_5 6 = Ok (Index 6)
  /\ getitem pool_5 (2 ^ 31) = Err Overflow.
Proof.
  assert (Hr : reachable pool_5) by (repeat apply reachable_add; apply reachable_init).
  destruct (sentinel_means_empty pool_5 Hr) as (_ & H & _).
  split; [apply (H 6) | apply (H (2 ^ 31))]; reflexivity.
Defined.

(** X7: in a pool whose occupied indices lie below [_index] (every pool
    built without [__setitem__] is one), [add] makes [len(pool)] grow by one
    when it records a new constant and leaves it alone when the constant was
    known (or is an [Index]). *)
Theorem add_len pool c :
  pool_wf pool ->
  ConstantPool_len (snd (add pool c)) =
    if is_Index (coerce c) then ConstantPool_len pool
    else match _backward_entries pool !! coerce c with
         | Some _ => ConstantPool_len pool
         | None => S (ConstantPool_len pool)
         end.
Proof.
  intros Hwf.
  destruct (is_Index (coerce c)) eqn:Hi.
  - destruct c as [s | x]; [discriminate |]. destruct x; try discriminate. reflexivity.
  - rewrite add_not_Index by exact Hi.
    destruct (_backward_entries pool !! coerce c); [reflexivity |].
    unfold ConstantPool_len. simpl. apply map_size_insert_None.
    destruct (_forward_entries pool !! _index pool) eqn:E; [| reflexivity].
    apply Hwf in E. lia.
Qed.

Lemma add_len_witness :
  ConstantPool_len (snd (add pool_5 (Const (Long 9)))) = 5%nat.
Proof.
  assert (Hwf : pool_wf pool_5)
    by (unfold pool_5;
        repeat (apply pool_wf_add;
                [| vm_compute; discriminate | vm_compute; reflexivity]);
        apply pool_wf_init).
  rewrite (add_len pool_5 (Const (Long 9)) Hwf). reflexivity.
Defined.

(** X8: [_index] does not move back under [add] and [__setitem__] as long
    as it stays within the C [int]: under an [add] from an [_index] below
    2^31 - 2, and under an assignment that returns for an index below
    2^31 - 2; in a pool built without [__setitem__] it is at least 1. *)
Theorem next_index_never_decreases :
  (forall pool c,
     - 2 ^ 31 <= _index pool -> _index pool + 2 < 2 ^ 31 ->
     _index pool <= _index (snd (add pool c)))
  /\ (forall pool index x pool',
        - 2 ^ 31 <= _index pool -> index + 2 < 2 ^ 31 ->
        setitem pool index x = Ok pool' -> _index pool <= _index pool')
  /\ (forall pool, built pool -> 1 <= _index pool).
Proof.
  split; [| split].
  - intros pool c Hlo Hhi. destruct (is_Index (coerce c)) eqn:Hi.
    + destruct c as [s | x]; [discriminate |]. destruct x; try discriminate. simpl. lia.
    + rewrite add_in_range by assumption.
      destruct (_backward_entries pool !! coerce c); simpl; [lia |].
      destruct (constant_wide (coerce c)); lia.
  - intros pool index x pool' Hlo Hhi Hset.
    apply setitem_returned in Hset. subst pool'.
    destruct x as [s | x]; [simpl; lia |].
    destruct (is_Index x) eqn:Hx.
    + unfold setitem_run. rewrite Hx. simpl. lia.
    + rewrite setitem_run_Const by exact Hx.
      destruct (Z.leb_spec (_index pool) index); [| simpl; lia].
      rewrite as_int_fits by lia. simpl.
      destruct (constant_wide x); [rewrite wrap_int_fits by lia |]; lia.
  - intros pool Hb. now destruct (built_sound pool Hb).
Qed.

Lemma next_index_never_decreases_witness :
  _index pool_5 <= _index (snd (add pool_5 (Const (Long 9)))).
Proof.
  destruct next_index_never_decreases as (H & _ & _).
  apply H; [vm_compute; discriminate | vm_compute; reflexivity].
Defined.

(** ** What [read] returns and raises *)

(** X9: a pool read from a file of version [version] holds constants of the
    seventeen classes only, each of a class that [version] has: no slot
    holds a constant introduced by a later version. *)
Theorem read_pool_supported fuel version buffer pool :
  ConstantPool_read fuel version buffer = Some (Ok pool) ->
  forall k c, _forward_entries pool !! k = Some c ->
    exists v, variant_of c = Some v /\ Version_gt (since v) version = false.
Proof.
  intros Hread. pose proof (ConstantPool_read_result fuel version buffer) as Hr.
  rewrite Hread in Hr. exact Hr.
Qed.

Lemma read_pool_supported_witness :
  exists v, variant_of (UTF8 [70; 111; 111]) = Some v
            /\ Version_gt (since v) (mkVersion 52 0) = false.
Proof.
  destruct (ConstantPool_read 3 (mkVersion 52 0)
              [0; 3; 7; 0; 2; 1; 0; 3; 70; 111; 111]) as [[pool | e] |] eqn:E.
  - apply (read_pool_supported 3 (mkVersion 52 0) _ pool E 2).
    vm_compute in E. injection E as <-. reflexivity.
  - vm_compute in E. discriminate E.
  - vm_compute in E. discriminate E.
Defined.

(** X10: the exceptions of [read] are four: the error of a short read, the
    unknown-tag error (for a tag that is not one of the seventeen), the
    version error (for a class above the version) and the kind error of
    [dereference].  In particular the queue never holds a class whose
    [dereference] raises "Tried to dereference".  What the descriptor parser
    may raise inside [Class.__init__] lies outside the sources and is not
    counted. *)
Theorem read_raises_only fuel version buffer e :
  ConstantPool_read fuel version buffer = Some (Err e) ->
  e = Truncated
  \/ (exists t, e = UnknownConstantTag t /\ forall v, tag v <> t)
  \/ (exists v version', e = VersionTooLow v version'
                         /\ Version_gt (since v) version' = true)
  \/ e = KindMismatch.
Proof.
  intros Hread. pose proof (ConstantPool_read_result fuel version buffer) as Hr.
  rewrite Hread in Hr. exact Hr.
Qed.

Lemma read_raises_only_witness :
  exists e, ConstantPool_read 1 (mkVersion 52 0) [0; 2; 2] = Some (Err e)
            /\ (e = Truncated
                \/ (exists t, e = UnknownConstantTag t /\ forall v, tag v <> t)
                \/ (exists v version', e = VersionTooLow v version'
                                       /\ Version_gt (since v) version' = true)
                \/ e = KindMismatch).
Proof.
  exists (UnknownConstantTag 2). split; [reflexivity |].
  apply (read_raises_only 1 (mkVersion 52 0) [0; 2; 2]). reflexivity.
Defined.

Lemma known_tags_spec t : t ∈ known_tags <-> exists v, tag v = t.
Proof.
  unfold known_tags. rewrite list_elem_of_fmap. split.
  - intros (v & -> & _). eauto.
  - intros (v & <-). exists v. split; [reflexivity |].
    apply list_elem_of_In. destruct v; simpl; tauto.
Qed.

(** X11: the loop body of [read] raises the unknown-tag error exactly for the
    tag bytes outside 1, 3-12 and 15-20, whatever follows the tag and
    whatever the version. *)
Theorem unknown_tag_exactly version s t rest :
  rs_buffer s = t :: rest ->
  (read_entry version s = Err (UnknownConstantTag t) <-> t ∉ known_tags)
  /\ known_tags = [1; 3; 4; 5; 6; 7; 8; 9; 10; 11; 12; 15; 16; 17; 18; 19; 20].
Proof.
  intros Hbuf. split; [| reflexivity].
  rewrite known_tags_spec. unfold read_entry. rewrite Hbuf.
  change (buffer_read 1 (t :: rest)) with ([t], rest). cbv iota beta.
  destruct (_constant_map t) as [constant |] eqn:Et.
  - assert (Htag : tag constant = t).
    { unfold _constant_map in Et. apply find_some in Et as [_ Et].
      now apply Z.eqb_eq in Et. }
    split; [| intros Hno; exfalso; eauto].
    destruct (Version_gt (since constant) version); [discriminate |].
    pose proof (Variant_read_result constant rest) as Hr.
    destruct (Variant_read constant rest) as [[[c | i] b] | e];
      simpl; try discriminate. subst e. discriminate.
  - split; [| reflexivity]. intros _ (v & Hv).
    exact (proj1 (tag_known_iff t) Et v Hv).
Qed.

Lemma unknown_tag_exactly_witness :
  read_entry (mkVersion 52 0) (mkReadState ConstantPool_init [] 1 [13; 0; 1])
    = Err (UnknownConstantTag 13).
Proof.
  destruct (unknown_tag_exactly (mkVersion 52 0)
              (mkReadState ConstantPool_init [] 1 [13; 0; 1]) 13 [0; 1] eq_refl)
    as [H _].
  apply H. intros Hin. apply list_elem_of_In in Hin. simpl in Hin.
  repeat destruct Hin as [Hin | Hin]; try discriminate Hin. exact Hin.
Defined.

Lemma unpack_by_length :
  (forall d, if decide (length d = 2%nat)
             then exists x, unpack_H d = Ok x else unpack_H d = Err Truncated)
  /\ (forall d, if decide (length d = 4%nat)
                then exists x, unpack_HH d = Ok x else unpack_HH d = Err Truncated)
  /\ (forall d, if decide (length d = 3%nat)
                then exists x, unpack_BH d = Ok x else unpack_BH d = Err Truncated)
  /\ (forall d, if decide (length d = 4%nat)
                then exists x, unpack_i d = Ok x else unpack_i d = Err Truncated)
  /\ (forall d, if decide (length d = 8%nat)
                then exists x, unpack_q d = Ok x else unpack_q d = Err Truncated)
  /\ (forall d, if decide (length d = 4%nat)
                then exists x, unpack_f d = Ok x else unpack_f d = Err Truncated)
  /\ (forall d, if decide (length d = 8%nat)
                then exists x, unpack_d d = Ok x else unpack_d d = Err Truncated).
Proof.
  repeat split; intros d; case_decide as H;
    try (do 9 (try destruct d as [| ? d]); simpl in H; try lia; simpl; eauto; fail);
    unfold unpack_i, unpack_q, unpack_f, unpack_d;
    try (rewrite H; simpl; eauto; fail);
    try (apply Nat.eqb_neq in H; rewrite H; reflexivity).
Qed.

Lemma fixed_width_read {A} (n : nat) (unpack : list byte -> result A)
    (make : A -> ConstantInfo + Info) (buffer : list byte) :
  (forall d, if decide (length d = n)
             then exists x, unpack d = Ok x else unpack d = Err Truncated) ->
  let r := (let '(data, buffer') := buffer_read (Z.of_nat n) buffer in
            do x <- unpack data; Ok (make x, buffer')) in
  ((length buffer < n)%nat -> r = Err Truncated)
  /\ ((n <= length buffer)%nat -> exists x, r = Ok (x, drop n buffer)).
Proof.
  intros Hun. cbv zeta. unfold buffer_read. rewrite Nat2Z.id.
  specialize (Hun (take n buffer)). rewrite length_take in Hun. split; intros Hlen.
  - case_decide as H; [lia |]. now rewrite Hun.
  - case_decide as H; [| lia]. destruct Hun as [x ->]. simpl. eauto.
Qed.

(** X12: [read] of a class with a fixed payload takes exactly that many
    bytes: it raises the error of a short read when fewer remain, and
    otherwise returns with the buffer advanced by the width.  A [UTF8]
    entry needs its two length bytes only: when fewer payload bytes remain
    than the length announces, it is decoded from those that remain, without
    an error. *)
Theorem Variant_read_consumes v buffer :
  match payload_width v with
  | Some n =>
      ((length buffer < n)%nat -> Variant_read v buffer = Err Truncated)
      /\ ((n <= length buffer)%nat ->
          exists x, Variant_read v buffer = Ok (x, drop n buffer))
  | None =>
      ((length buffer < 2)%nat -> Variant_read v buffer = Err Truncated)
      /\ (forall hi lo rest,
            buffer = hi :: lo :: rest ->
            Variant_read v buffer =
              Ok (inl (UTF8 (decode_mutf8 (take (Z.to_nat (hi * 256 + lo)) rest))),
                  drop (Z.to_nat (hi * 256 + lo)) rest))
  end.
Proof.
  destruct unpack_by_length as (HH1 & HH2 & HH3 & HH4 & HH5 & HH6 & HH7).
  destruct v; simpl payload_width; cbv iota.
  - split.
    + intros Hlen. destruct buffer as [| ? [| ? ?]]; simpl in Hlen; try lia; reflexivity.
    + intros hi lo rest ->. reflexivity.
  - exact (fixed_width_read 4 unpack_i _ buffer HH4).
  - exact (fixed_width_read 4 unpack_f _ buffer HH6).
  - exact (fixed_width_read 8 unpack_q _ buffer HH5).
  - exact (fixed_width_read 8 unpack_d _ buffer HH7).
  - exact (fixed_width_read 2 unpack_H _ buffer HH1).
  - exact (fixed_width_read 2 unpack_H _ buffer HH1).
  - exact (fixed_width_read 4 unpack_HH _ buffer HH2).
  - exact (fixed_width_read 4 unpack_HH _ buffer HH2).
  - exact (fixed_width_read 4 unpack_HH _ buffer HH2).
  - exact (fixed_width_read 4 unpack_HH _ buffer HH2).
  - exact (fixed_width_read 3 unpack_BH _ buffer HH3).
  - exact (fixed_width_read 2 unpack_H _ buffer HH1).
  - exact (fixed_width_read 4 unpack_HH _ buffer HH2).
  - exact (fixed_width_read 4 unpack_HH _ buffer HH2).
  - exact (fixed_width_read 2 unpack_H _ buffer HH1).
  - exact (fixed_width_read 2 unpack_H _ buffer HH1).
Qed.

Lemma Variant_read_consumes_witness :
  Variant_read VInteger [0; 0; 1] = Err Truncated
  /\ Variant_read VUTF8 [0; 9; 104; 105]
     = Ok (inl (UTF8 [104; 105]), []).
Proof.
  split.
  - apply (proj1 (Variant_read_consumes VInteger [0; 0; 1])). simpl. lia.
  - apply (proj2 (Variant_read_consumes VUTF8 [0; 9; 104; 105]) 0 9 [104; 105]).
    reflexivity.
Defined.

Lemma ranked_fixup_ends pool uncomputed rank :
  ranked pool uncomputed rank ->
  exists fuel r, fixup_loop fuel pool uncomputed = Some r.
Proof.
  remember (length uncomputed) as n eqn:Hn. revert pool uncomputed rank Hn.
  induction n as [n IHn] using lt_wf_ind. intros pool q rank Hn Hr.
  rewrite <- (app_nil_r q).
  apply (fixup_loop_pass n) with (rank := rank).
  - intros pool' q' rank' Hlt Hr'. eapply (IHn (length q')); eauto.
  - rewrite app_nil_r. auto.
  - now rewrite app_nil_r.
  - constructor.
Qed.

(** X13: the fix-up loop ends, with a pool or with an exception, whenever
    the references of the queue are well founded: each index a queued entry
    requires is bound already or is the offset of a queued entry of strictly
    smaller rank. *)
Theorem fixup_loop_terminates pool uncomputed rank :
  ranked pool uncomputed rank ->
  exists fuel r, fixup_loop fuel pool uncomputed = Some r.
Proof. apply ranked_fixup_ends. Qed.

Lemma fixup_loop_terminates_witness :
  exists fuel r,
    fixup_loop fuel pool_a [(3, VString, Info1 2); (2, VClass, Info1 1)] = Some r.
Proof.
  apply (fixup_loop_terminates pool_a _
           (fun o => if o =? 3 then 1%nat else 0%nat)).
  intros e He i Hi.
  apply elem_of_cons in He as [-> | He].
  - right. exists (2, VClass, Info1 1).
    apply list_elem_of_singleton in Hi. subst i.
    split; [apply elem_of_cons; right; apply elem_of_cons; now left |].
    split; [reflexivity | simpl; lia].
  - apply list_elem_of_singleton in He. subst e.
    apply list_elem_of_singleton in Hi. subst i.
    left. vm_compute. eauto.
Defined.

(** ** InsnBlock: items *)

Section BlockItemProperties.
Context {IS : Block.InstructionSet}.
Implicit Types (b : Block.InsnBlock) (x : Block.Instruction).

Lemma set_instructions_id b : Block.set_instructions b (Block._instructions b) = b.
Proof. now destruct b. Qed.

Lemma set_instructions_twice b l l' :
  Block.set_instructions (Block.set_instructions b l) l' = Block.set_instructions b l'.
Proof. reflexivity. Qed.

Lemma list_index_in_range (n : nat) (k : Z) :
  0 <= k < Z.of_nat n -> BlockItems.list_index n k = Some (Z.to_nat k).
Proof.
  intros H. unfold BlockItems.list_index.
  destruct (Z.leb_spec 0 k); [| lia]. destruct (Z.ltb_spec k (Z.of_nat n)); [| lia].
  reflexivity.
Qed.

Lemma list_index_last (n : nat) : BlockItems.list_index (S n) (-1) = Some n.
Proof.
  unfold BlockItems.list_index.
  destruct (Z.leb_spec 0 (-1)); [lia |]. simpl andb.
  destruct (Z.leb_spec (- Z.of_nat (S n)) (-1)); [| lia].
  destruct (Z.ltb_spec (-1) 0); [| lia]. simpl. f_equal. lia.
Qed.

Lemma list_index_Some (n : nat) (i : Z) (k : nat) :
  BlockItems.list_index n i = Some k -> (k < n)%nat.
Proof.
  unfold BlockItems.list_index.
  destruct (Z.leb_spec 0 i), (Z.ltb_spec i (Z.of_nat n)); simpl;
    try (intros [= <-]; lia);
    destruct (Z.leb_spec (- Z.of_nat n) i), (Z.ltb_spec i 0); simpl;
    try discriminate; intros [= <-]; lia.
Qed.

(** X15: [block[key] = x] has no [do_raise] override: for a jump, a return
    or [athrow] it raises for every key, in range or not.  For any other
    instruction and a key in range (negative keys counting from the end) it
    replaces that one position: the length is unchanged, [block[key]] is [x]
    afterwards and every other position reads as before; a key out of range
    raises [IndexError]. *)
Theorem setitem_assigns b arg x key :
  Block.as_instruction arg = Ok x ->
  if Block.terminates_control_flow x
  then BlockItems.setitem b key arg = Raises (Core IllegalInstruction)
  else
    match BlockItems.list_index (BlockItems.len b) key with
    | Some k =>
        exists b',
          BlockItems.setitem b key arg = Returns b'
          /\ BlockItems.len b' = BlockItems.len b
          /\ BlockItems.getitem b' key = Returns x
          /\ Block.label b' = Block.label b
          /\ forall key' k',
               BlockItems.list_index (BlockItems.len b) key' = Some k' ->
               k' <> k ->
               BlockItems.getitem b' key' = BlockItems.getitem b key'
    | None => BlockItems.setitem b key arg = Raises ListIndexError
    end.
Proof.
  intros Harg. destruct (Block.terminates_control_flow x) eqn:Hterm.
  { apply _check_instruction_terminating in Hterm.
    unfold BlockItems.setitem. now rewrite Harg, Hterm. }
  assert (Hcheck : Block._check_instruction x = Ok tt).
  { unfold Block.terminates_control_flow in Hterm. unfold Block._check_instruction.
    destruct (Block.is_JumpInstruction x); [discriminate |].
    destruct (Block.is_ReturnInstruction x); [discriminate |].
    destruct (Block.eq_athrow x); [discriminate | reflexivity]. }
  unfold BlockItems.setitem. rewrite Harg, Hcheck.
  destruct (BlockItems.list_index (BlockItems.len b) key) as [k |] eqn:Ek; [| reflexivity].
  pose proof (list_index_Some _ _ _ Ek) as Hk. unfold BlockItems.len in *.
  eexists. split; [reflexivity |].
  unfold BlockItems.getitem, BlockItems.len. simpl.
  rewrite length_insert, Ek. split; [reflexivity |].
  rewrite list_lookup_insert_eq by exact Hk. split; [reflexivity |].
  split; [reflexivity |].
  intros key' k' Ek' Hne. rewrite Ek'.
  now rewrite list_lookup_insert_ne by congruence.
Qed.

(** X16: [pop] undoes [insert] and [append]: after [insert(k, x)] with
    [0 <= k <= len(block)] (an index of a list, which fits the [Py_ssize_t]
    of [list.insert]), [pop(k)] returns [x] and leaves the block as it was
    before the insertion; after [append(x)], [block[-1]] is [x] and
    [pop(-1)] returns [x] and leaves the block as it was. *)
Theorem pop_undoes_insert b arg x k (do_raise : bool) :
  Block.as_instruction arg = Ok x ->
  (if do_raise then Block.terminates_control_flow x else false) = false ->
  0 <= k <= Z.of_nat (BlockItems.len b) ->
  (k < 2 ^ 63 ->
   exists b',
     Block.insert b k arg do_raise = Ok (x, b')
     /\ BlockItems.len b' = S (BlockItems.len b)
     /\ BlockItems.getitem b' k = Returns x
     /\ BlockItems.pop b' k = Returns (x, b))
  /\ (exists b',
        Block.append b arg do_raise = Ok (x, b')
        /\ BlockItems.len b' = S (BlockItems.len b)
        /\ BlockItems.getitem b' (-1) = Returns x
        /\ BlockItems.pop b' (-1) = Returns (x, b)).
Proof.
  intros Harg Hraise Hk.
  assert (Hcheck : (if do_raise then Block._check_instruction x else Ok tt) = Ok tt).
  { destruct do_raise; [| reflexivity].
    unfold Block.terminates_control_flow in Hraise. unfold Block._check_instruction.
    destruct (Block.is_JumpInstruction x); [discriminate |].
    destruct (Block.is_ReturnInstruction x); [discriminate |].
    destruct (Block.eq_athrow x); [discriminate | reflexivity]. }
  unfold Block.insert, Block.append. rewrite Harg. simpl. rewrite Hcheck. simpl.
  unfold BlockItems.len in *.
  set (l := Block._instructions b) in *.
  assert (Hkn : (Z.to_nat k <= length l)%nat) by lia.
  split.
  - intros Hfit.
    assert (Hins : Block.list_insert_py k x l
                   = Ok (take (Z.to_nat k) l ++ x :: drop (Z.to_nat k) l)).
    { unfold Block.list_insert_py. rewrite fits_ssize_spec by lia.
      destruct (Z.ltb_spec k 0); [lia |].
      now rewrite Z.min_l by lia. }
    rewrite Hins. simpl.
    set (l' := take (Z.to_nat k) l ++ x :: drop (Z.to_nat k) l).
    assert (Hlen : length l' = S (length l)).
    { unfold l'. rewrite length_app. simpl. rewrite length_take, length_drop. lia. }
    eexists. split; [reflexivity |].
    unfold BlockItems.getitem, BlockItems.pop, BlockItems.len. simpl.
    rewrite fits_ssize_spec by lia. rewrite Hlen.
    rewrite list_index_in_range by lia.
    assert (Hlook : l' !! Z.to_nat k = Some x).
    { unfold l'. apply list_lookup_middle. rewrite length_take. lia. }
    assert (Hdel : delete (Z.to_nat k) l' = l).
    { unfold l'. rewrite delete_take_drop.
      rewrite take_app_length' by (rewrite length_take; lia).
      rewrite (cons_middle x), app_assoc.
      rewrite drop_app_length' by (rewrite length_app, length_take; simpl; lia).
      apply take_drop. }
    rewrite Hlook, Hdel. repeat split. subst l. now destruct b.
  - eexists. split; [reflexivity |].
    unfold BlockItems.getitem, BlockItems.pop, BlockItems.len. simpl. fold l.
    rewrite length_app. simpl length.
    replace (length l + 1)%nat with (S (length l)) by lia.
    rewrite list_index_last.
    assert (Hlook : (l ++ [x]) !! length l = Some x)
      by (apply list_lookup_middle; reflexivity).
    assert (Hdel : delete (length l) (l ++ [x]) = l).
    { rewrite delete_take_drop.
      rewrite take_app_length, drop_ge by (rewrite length_app; simpl; lia).
      apply app_nil_r. }
    rewrite Hlook, Hdel. repeat split. subst l. now destruct b.
Qed.

End BlockItemProperties.

Lemma setitem_assigns_witness :
  exists b',
    BlockItems.setitem sample_block (-1) (@Block.Insn sample_instructions nop)
      = Returns b'
    /\ BlockItems.getitem b' (-1) = Returns (nop : @Block.Instruction sample_instructions).
Proof.
  destruct (@setitem_assigns sample_instructions sample_block
              (@Block.Insn sample_instructions nop) nop (-1) eq_refl)
    as (b' & H1 & _ & H3 & _).
  exists b'. split; [exact H1 | exact H3].
Defined.

Lemma pop_undoes_insert_witness :
  exists b',
    Block.insert sample_block 1 (@Block.Insn sample_instructions (goto 3)) false
      = Ok (goto 3, b')
    /\ BlockItems.pop b' 1 = Returns (goto 3, sample_block).
Proof.
  destruct (@pop_undoes_insert sample_instructions sample_block
              (@Block.Insn sample_instructions (goto 3)) (goto 3) 1 false
              ltac:(reflexivity) ltac:(reflexivity)
              ltac:(unfold BlockItems.len; simpl; lia))
    as (Hins & _).
  destruct Hins as (b' & H1 & _ & _ & H4); [lia |].
  exists b'. split; [exact H1 | exact H4].
Defined.

(** ** ConstantPool.write *)

Lemma dereference_not_wide constant lookups info c :
  dereference constant lookups info = Ok (Some c) -> constant_wide c = false.
Proof.
  intros H. pose proof (dereference_variant _ _ _ _ H) as Hv.
  unfold constant_wide. rewrite Hv.
  destruct constant; try reflexivity; discriminate H.
Qed.

Lemma layout_bound_step forward queued next c :
  layout forward queued next ->
  layout (<[next := c]> forward) queued
         (next + 1 + (if constant_wide c then 1 else 0)).
Proof.
  intros (Hk & Hq & H1).
  set (next' := next + 1 + (if constant_wide c then 1 else 0)).
  assert (Hmove : forall n,
    n = next \/ is_Some (forward !! n) \/ n ∈ queued ->
    n = next' \/ is_Some (<[next := c]> forward !! n) \/ n ∈ queued).
  { intros n [-> | [Hn | Hn]]; [| | auto].
    - right; left. rewrite lookup_insert_eq. eauto.
    - right; left. destruct (decide (next = n)) as [-> | Hne].
      + rewrite lookup_insert_eq. eauto.
      + now rewrite lookup_insert_ne. }
  split; [| split].
  - intros k c' H. cbv zeta. destruct (decide (next = k)) as [<- | Hne].
    + rewrite lookup_insert_eq in H. injection H as <-. now left.
    + rewrite lookup_insert_ne in H by exact Hne. apply Hmove, (Hk _ _ H).
  - intros q Hin. apply Hmove, (Hq _ Hin).
  - apply Hmove, H1.
Qed.

Lemma layout_queue_step forward queued next :
  layout forward queued next -> layout forward (queued ++ [next]) (next + 1).
Proof.
  intros (Hk & Hq & H1).
  assert (Hmove : forall n,
    n = next \/ is_Some (forward !! n) \/ n ∈ queued ->
    n = next + 1 \/ is_Some (forward !! n) \/ n ∈ queued ++ [next]).
  { intros n [-> | [Hn | Hn]]; [| auto |].
    - right; right. apply elem_of_app. right. now apply list_elem_of_singleton.
    - right; right. apply elem_of_app. now left. }
  split; [| split].
  - intros k c H. apply Hmove, (Hk _ _ H).
  - intros q Hin. apply elem_of_app in Hin as [Hin | Hin].
    + apply Hmove, (Hq _ Hin).
    + apply list_elem_of_singleton in Hin. subst q. now left.
  - apply Hmove, H1.
Qed.

Lemma layout_resolve_step forward offset queued next c :
  layout forward (offset :: queued) next ->
  constant_wide c = false ->
  layout (<[offset := c]> forward) queued next.
Proof.
  intros (Hk & Hq & H1) Hw.
  assert (Hmove : forall n,
    n = next \/ is_Some (forward !! n) \/ n ∈ offset :: queued ->
    n = next \/ is_Some (<[offset := c]> forward !! n) \/ n ∈ queued).
  { intros n [-> | [Hn | Hn]]; [auto | |].
    - right; left. destruct (decide (offset = n)) as [-> | Hne].
      + rewrite lookup_insert_eq. eauto.
      + now rewrite lookup_insert_ne.
    - apply elem_of_cons in Hn as [-> | Hn]; [| auto].
      right; left. rewrite lookup_insert_eq. eauto. }
  split; [| split].
  - intros k c' H. cbv zeta. destruct (decide (offset = k)) as [<- | Hne].
    + rewrite lookup_insert_eq in H. injection H as <-. rewrite Hw.
      replace (offset + 1 + 0) with (offset + 1) by lia.
      apply Hmove, Hq. apply elem_of_cons. now left.
    + rewrite lookup_insert_ne in H by exact Hne. apply Hmove, (Hk _ _ H).
  - intros q Hin. apply Hmove, Hq. apply elem_of_cons. now right.
  - apply Hmove, H1.
Qed.

Lemma layout_rotate forward offset queued next :
  layout forward (offset :: queued) next ->
  layout forward (queued ++ [offset]) next.
Proof.
  intros (Hk & Hq & H1).
  assert (Hsame : forall n, n ∈ offset :: queued <-> n ∈ queued ++ [offset]).
  { intros n. rewrite elem_of_cons, elem_of_app, list_elem_of_singleton. tauto. }
  assert (Hmove : forall n,
    n = next \/ is_Some (forward !! n) \/ n ∈ offset :: queued ->
    n = next \/ is_Some (forward !! n) \/ n ∈ queued ++ [offset]).
  { intros n [H | [H | H]]; auto. right; right. now apply Hsame. }
  split; [| split].
  - intros k c H. apply Hmove, (Hk _ _ H).
  - intros q Hin. apply Hmove, Hq. now apply Hsame.
  - apply Hmove, H1.
Qed.

Lemma read_entry_layout version s s' :
  layout (_forward_entries (rs_pool s)) (queued_offsets (rs_uncomputed s)) (rs_offset s) ->
  read_entry version s = Ok s' ->
  layout (_forward_entries (rs_pool s')) (queued_offsets (rs_uncomputed s'))
         (rs_offset s').
Proof.
  intros Hl. unfold read_entry.
  destruct (buffer_read 1 (rs_buffer s)) as [[| t [| ? ?]] buffer1]; try discriminate.
  destruct (_constant_map t) as [constant |]; [| discriminate].
  destruct (Version_gt (since constant) version); [discriminate |].
  pose proof (Variant_read_result constant buffer1) as Hr.
  destruct (Variant_read constant buffer1) as [[[c | info] buffer2] | e];
    [| | discriminate]; simpl; intros [= <-]; simpl.
  - replace (wide constant) with (constant_wide c)
      by (unfold constant_wide; now rewrite Hr).
    now apply layout_bound_step.
  - replace (wide constant) with false
      by (destruct constant, info; try discriminate Hr; reflexivity).
    unfold queued_offsets. rewrite map_app. simpl.
    replace (rs_offset s + 1 + 0) with (rs_offset s + 1) by lia.
    now apply layout_queue_step.
Qed.

Lemma read_loop_layout fuel version constants_count s s' :
  layout (_forward_entries (rs_pool s)) (queued_offsets (rs_uncomputed s)) (rs_offset s) ->
  read_loop fuel version constants_count s = Some (Ok s') ->
  layout (_forward_entries (rs_pool s')) (queued_offsets (rs_uncomputed s'))
         (rs_offset s').
Proof.
  revert s. induction fuel as [| fuel IH]; intros s Hl; simpl.
  - destruct (rs_offset s <? constants_count); [discriminate |]. now intros [= <-].
  - destruct (rs_offset s <? constants_count); [| now intros [= <-]].
    destruct (read_entry version s) as [s1 | e] eqn:E; [| discriminate].
    apply IH. eapply read_entry_layout; eauto.
Qed.

Lemma fixup_loop_layout fuel pool uncomputed pool' :
  layout (_forward_entries pool) (queued_offsets uncomputed) (_index pool) ->
  fixup_loop fuel pool uncomputed = Some (Ok pool') ->
  layout (_forward_entries pool') [] (_index pool').
Proof.
  revert pool uncomputed.
  induction fuel as [| fuel IH]; intros pool uncomputed Hl; simpl.
  - destruct uncomputed as [| [[offset constant] info] rest]; [| discriminate].
    now intros [= <-].
  - destruct uncomputed as [| [[offset constant] info] rest]; [now intros [= <-] |].
    destruct (dereference constant (_forward_entries pool) info) as [[value |] | e] eqn:E;
      [| | discriminate].
    + apply IH. simpl in *. eapply layout_resolve_step; [exact Hl |].
      eapply dereference_not_wide; eauto.
    + apply IH. unfold queued_offsets in *. rewrite map_app. simpl in *.
      now apply layout_rotate.
Qed.

Lemma layout_init : layout (_forward_entries ConstantPool_init) [] (_index ConstantPool_init).
Proof.
  split; [| split]; simpl.
  - intros k c H. now rewrite lookup_empty in H.
  - intros q H. now apply elem_of_nil in H.
  - now left.
Qed.

Lemma layout_read fuel version buffer pool :
  ConstantPool_read fuel version buffer = Some (Ok pool) ->
  layout (_forward_entries pool) [] (_index pool).
Proof.
  unfold ConstantPool_read.
  destruct (buffer_read 2 buffer) as [hdr buffer1].
  destruct (unpack_H hdr) as [constants_count | e]; [| discriminate].
  destruct (read_loop fuel version constants_count
              (mkReadState ConstantPool_init [] 1 buffer1)) as [[s | e] |] eqn:E;
    try discriminate.
  apply read_loop_layout in E; [| exact layout_init].
  apply fixup_loop_layout. exact E.
Qed.

Lemma layout_add pool constant :
  pool_sound pool -> _index pool + 2 < 2 ^ 31 ->
  layout (_forward_entries pool) [] (_index pool) ->
  layout (_forward_entries (snd (add pool constant))) []
         (_index (snd (add pool constant))).
Proof.
  intros Hs Hhi Hl. destruct (is_Index (coerce constant)) eqn:Hi.
  { destruct constant as [s | x]; [discriminate |]. destruct x; try discriminate.
    exact Hl. }
  rewrite add_in_range by (try exact Hi; destruct Hs; lia).
  destruct (_backward_entries pool !! coerce constant); simpl; [exact Hl |].
  now apply layout_bound_step.
Qed.

Lemma built_layout pool :
  built pool -> layout (_forward_entries pool) [] (_index pool).
Proof.
  induction 1 as [| fuel version buffer pool Hread | pool constant Hb IH Hhi | pool _ _].
  - exact layout_init.
  - eapply layout_read; eauto.
  - apply layout_add; [now apply built_sound | exact Hhi | exact IH].
  - exact layout_init.
Qed.

Lemma built_reachable pool : built pool -> reachable pool.
Proof.
  induction 1; [apply reachable_init | eapply reachable_read; eauto
                | now apply reachable_add | now apply reachable_clear].
Qed.

Lemma grown_trans pool pool1 pool2 :
  grown pool pool1 -> grown pool1 pool2 -> grown pool pool2.
Proof. intros H1 H2. induction H2; [exact H1 | now apply grown_add]. Qed.

(** An [add] whose index fits 16 bits is one of [grown]. *)
Lemma grown_add_small pool pool' x :
  pool_sound pool' -> grown pool pool' -> fst (add pool' x) <= 65535 ->
  grown pool (snd (add pool' x)).
Proof.
  intros Hs Hg Hle. destruct (add_found_or_new pool' x) as [-> | Heq]; [exact Hg |].
  apply grown_add; [exact Hg | lia].
Qed.

Lemma grown_sound pool pool' :
  pool_sound pool -> grown pool pool' ->
  pool_sound pool'
  /\ (forall k y, _forward_entries pool !! k = Some y ->
                  _forward_entries pool' !! k = Some y)
  /\ _index pool <= _index pool'
  /\ (forall g, g < _index pool -> _forward_entries pool !! g = None ->
                _forward_entries pool' !! g = None).
Proof.
  intros Hs. induction 1 as [| pool' constant _ (Hs' & Hkeep & Hle & Hfree) Hhi].
  - split; [exact Hs |]. split; [auto |]. split; [lia | auto].
  - destruct (is_Index (coerce constant)) eqn:Hi.
    { destruct constant as [s | x]; [discriminate |]. destruct x; try discriminate.
      simpl. auto. }
    split; [now apply pool_sound_add |].
    destruct (add_lookup pool' constant Hs' Hi) as (_ & Hkeep').
    split; [auto |].
    rewrite add_in_range by (try exact Hi; destruct Hs'; lia).
    destruct (_backward_entries pool' !! coerce constant); simpl; [auto |].
    split; [destruct (constant_wide (coerce constant)); lia |].
    intros g Hg Hnone. rewrite lookup_insert_ne by lia. auto.
Qed.

Lemma grown_built pool pool' :
  built pool -> grown pool pool' ->
  built pool'
  /\ (forall k y, _forward_entries pool !! k = Some y ->
                  _forward_entries pool' !! k = Some y)
  /\ (_index pool' = _index pool \/ is_Some (_forward_entries pool' !! _index pool)).
Proof.
  intros Hb. induction 1 as [| pool' constant _ (Hb' & Hkeep & Hidx) Hhi].
  - repeat split; auto.
  - split; [now apply built_add |].
    pose proof (built_sound pool' Hb') as Hs.
    destruct (is_Index (coerce constant)) eqn:Hi.
    { destruct constant as [s | x]; [discriminate |]. destruct x; try discriminate.
      simpl. auto. }
    destruct (add_lookup pool' constant Hs Hi) as (Hlook & Hkeep').
    split; [auto |].
    destruct Hidx as [Heq | [y Hy]]; [| right; eauto].
    rewrite add_not_Index in * by exact Hi.
    destruct (_backward_entries pool' !! coerce constant); simpl in *; [now left |].
    right. rewrite <- Heq. eauto.
Qed.

Lemma constant_write_grown constant pool buffer :
  pool_sound pool ->
  match constant_write constant pool buffer with
  | Ok (pool', out) => grown pool pool' /\ exists data, out = buffer ++ data
  | Err e => e = PackRange \/ e = UnicodeEncodeError
  end.
Proof.
  intros Hs.
  assert (Hpack : forall n, match pack_H n with Ok _ => True | Err e => e = PackRange end).
  { intros n. unfold pack_H. now destruct (_ && _). }
  assert (Hemit : forall (packed : result (list byte)),
    match packed with Ok _ => True | Err e => e = PackRange end ->
    match (do data <- packed; Ok (pool, buffer ++ data)) with
    | Ok (pool'', out) => grown pool pool'' /\ exists data, out = buffer ++ data
    | Err e => e = PackRange \/ e = UnicodeEncodeError
    end).
  { intros [data | e] He; simpl; [split; [constructor | eauto] | auto]. }
  assert (HHH : forall a b, match pack_HH a b with Ok _ => True | Err e => e = PackRange end).
  { intros a b. unfold pack_HH.
    pose proof (Hpack a). pose proof (Hpack b).
    destruct (pack_H a), (pack_H b); simpl; auto. }
  assert (HBH : forall k a, match pack_BH k a with Ok _ => True | Err e => e = PackRange end).
  { intros k a. unfold pack_BH. pose proof (Hpack a).
    destruct (_ && _); [| reflexivity]. destruct (pack_H a); simpl; auto. }
  assert (Hone : forall x,
    match (let '(i, pool1) := add pool x in
           do data <- pack_H i; Ok (pool1, buffer ++ data)) with
    | Ok (pool', out) => grown pool pool' /\ exists data, out = buffer ++ data
    | Err e => e = PackRange \/ e = UnicodeEncodeError
    end).
  { intros x. pose proof (grown_add_small pool pool x Hs (grown_refl pool)) as Hg.
    destruct (add pool x) as [i pool1]. simpl in Hg.
    pose proof (Hpack i) as Hp.
    destruct (pack_H i) as [data | e] eqn:Ep; simpl; [| auto].
    split; [| eauto]. apply Hg. apply pack_H_range in Ep. lia. }
  assert (Htwo : forall x y,
    match (let '(i, pool1) := add pool x in
           let '(j, pool2) := add pool1 y in
           do data <- pack_HH i j; Ok (pool2, buffer ++ data)) with
    | Ok (pool', out) => grown pool pool' /\ exists data, out = buffer ++ data
    | Err e => e = PackRange \/ e = UnicodeEncodeError
    end).
  { intros x y. pose proof (grown_add_small pool pool x Hs (grown_refl pool)) as Hg1.
    destruct (add pool x) as [i pool1]. simpl in Hg1.
    pose proof (fun Hs1 Hg => grown_add_small pool pool1 y Hs1 Hg) as Hg2.
    destruct (add pool1 y) as [j pool2]. simpl in Hg2.
    pose proof (HHH i j) as Hp.
    destruct (pack_HH i j) as [data | e] eqn:Ep; simpl; [| auto].
    destruct (pack_HH_range _ _ _ Ep) as [Hi Hj].
    split; [| eauto]. assert (Hg : grown pool pool1) by (apply Hg1; lia).
    apply Hg2; [| exact Hg | lia].
    now destruct (grown_sound pool pool1 Hs Hg). }
  assert (Hsecond : forall b y,
    match (let '(j, pool1) := add pool y in
           do data <- pack_HH b j; Ok (pool1, buffer ++ data)) with
    | Ok (pool', out) => grown pool pool' /\ exists data, out = buffer ++ data
    | Err e => e = PackRange \/ e = UnicodeEncodeError
    end).
  { intros b y. pose proof (grown_add_small pool pool y Hs (grown_refl pool)) as Hg.
    destruct (add pool y) as [j pool1]. simpl in Hg.
    pose proof (HHH b j) as Hp.
    destruct (pack_HH b j) as [data | e] eqn:Ep; simpl; [| auto].
    destruct (pack_HH_range _ _ _ Ep) as [_ Hj].
    split; [| eauto]. apply Hg. lia. }
  destruct constant as [| | | | | | [cn] | | cl nt | cl nt | cl nt | [n d]
                        | kind reference | | b nt | b nt | |];
    cbn [constant_write class_name nt_name nt_descriptor]; unfold add_utf8;
    try apply Hone; try apply Htwo; try apply Hsecond;
    try (apply Hemit;
         first [ unfold pack_i; now destruct (_ && _)
               | unfold pack_q; now destruct (_ && _)
               | unfold pack_f; now destruct (_ && _)
               | unfold pack_d; now destruct (_ && _)]).
  - split; [constructor |]. exists []. now rewrite app_nil_r.
  - unfold UTF8_write, encode_mutf8.
    destruct (str_encode_utf8 value) as [raw | e] eqn:E; simpl.
    + pose proof (Hpack (Z.of_nat (length (bytes_replace [0] [192; 128] raw)))) as Hp.
      destruct (pack_H _); simpl; [split; [constructor | eauto] | auto].
    + right. revert e E. induction value as [| c value IH]; intros e; simpl; [discriminate |].
      destruct (utf8_encode_cp c) as [bs | e'] eqn:Ec; simpl.
      * destruct (str_encode_utf8 value) as [tl | e'']; simpl; [discriminate |].
        intros [= <-]. now apply IH.
      * intros [= <-]. unfold utf8_encode_cp in Ec.
        repeat match type of Ec with
               | (if ?b then _ else _) = _ => destruct b
               end; congruence.
  - pose proof (grown_add_small pool pool (Const reference) Hs (grown_refl pool)) as Hg.
    destruct (add pool (Const reference)) as [i pool1]. simpl in Hg.
    pose proof (HBH kind i) as Hp.
    destruct (pack_BH kind i) as [data | e] eqn:Ep; simpl; [| auto].
    split; [| eauto]. apply Hg. apply pack_BH_range in Ep. lia.
Qed.

Lemma write_loop_built fuel pool offset buffer :
  built pool ->
  offset = _index pool \/ is_Some (_forward_entries pool !! offset) ->
  match write_loop fuel pool offset buffer with
  | Some (Returns (pool', offset', out)) =>
      built pool' /\ grown pool pool' /\ offset' = _index pool'
      /\ exists body, out = buffer ++ body
  | Some (Raises e) => e = Core PackRange \/ e = Core UnicodeEncodeError
  | None => True
  end.
Proof.
  revert pool offset buffer.
  induction fuel as [| fuel IH]; intros pool offset buffer Hb Hoff; simpl.
  - destruct (Z.ltb_spec offset (_index pool)); [exact I |].
    split; [exact Hb |]. split; [apply grown_refl |]. split.
    + destruct Hoff as [-> | [c Hc]]; [reflexivity |].
      destruct (built_sound pool Hb) as (_ & Hkeys & _). apply Hkeys in Hc. lia.
    + exists []. now rewrite app_nil_r.
  - destruct (Z.ltb_spec offset (_index pool)) as [Hlt | Hge].
    2:{ split; [exact Hb |]. split; [apply grown_refl |]. split.
        - destruct Hoff as [-> | [c Hc]]; [reflexivity |].
          destruct (built_sound pool Hb) as (_ & Hkeys & _). apply Hkeys in Hc. lia.
        - exists []. now rewrite app_nil_r. }
    destruct Hoff as [-> | [c Hc]]; [lia |]. rewrite Hc.
    pose proof (reachable_no_Index pool (built_reachable pool Hb) _ _ Hc) as Hno.
    unfold tag_byte.
    destruct (variant_of c) as [v |] eqn:Ev; [| destruct c; discriminate].
    pose proof (constant_write_grown c pool (buffer ++ [tag v])
                  (built_sound pool Hb)) as Hw.
    destruct (constant_write c pool (buffer ++ [tag v])) as [[pool1 buffer1] | e].
    2:{ destruct Hw as [-> | ->]; auto. }
    destruct Hw as (Hg & data & ->).
    destruct (grown_built pool pool1 Hb Hg) as (Hb1 & Hkeep & Hidx).
    pose proof (built_layout pool Hb) as (Hk & _ & _).
    specialize (Hk _ _ Hc). cbv zeta in Hk.
    set (n := offset + 1 + (if constant_wide c then 1 else 0)) in *.
    assert (Hn : n = _index pool1 \/ is_Some (_forward_entries pool1 !! n)).
    { destruct Hk as [Hk | [[y Hy] | Hk]].
      - destruct Hidx as [Hidx | Hidx]; [left; congruence | right; now rewrite Hk].
      - right. eauto.
      - now apply elem_of_nil in Hk. }
    specialize (IH pool1 n ((buffer ++ [tag v]) ++ data) Hb1 Hn).
    destruct (write_loop fuel pool1 n ((buffer ++ [tag v]) ++ data))
      as [[[[pool' offset'] out] | e] |]; [| exact IH | exact I].
    destruct IH as (Hb' & Hg' & Hoff' & body & ->).
    split; [exact Hb' |]. split; [eapply grown_trans; eauto |]. split; [exact Hoff' |].
    exists ([tag v] ++ data ++ body). now rewrite <- !app_assoc.
Qed.

(** X19: writing a pool built without [__setitem__] never fails on a missing
    slot or on an [Index]: the only exceptions of [write] are those of a
    value that does not fit its field (an index or a length above 65535, a
    number outside its format) and of a string that holds a surrogate. *)
Theorem write_raises_only fuel pool buffer e :
  built pool ->
  ConstantPool_write fuel pool buffer = Some (Raises e) ->
  e = Core PackRange \/ e = Core UnicodeEncodeError.
Proof.
  intros Hb. unfold ConstantPool_write.
  pose proof (write_loop_built fuel pool 1 (buffer ++ [0; 0]) Hb) as Hw.
  destruct (built_layout pool Hb) as (_ & _ & H1).
  assert (Hstart : 1 = _index pool \/ is_Some (_forward_entries pool !! 1)).
  { destruct H1 as [H1 | [H1 | H1]]; auto. now apply elem_of_nil in H1. }
  specialize (Hw Hstart).
  destruct (write_loop fuel pool 1 (buffer ++ [0; 0])) as [[[[pool' offset] out] | e'] |];
    [| now intros [= <-] | discriminate].
  destruct (pack_H offset) as [count | e'] eqn:Ep; [discriminate |].
  intros [= <-]. left. f_equal. unfold pack_H in Ep.
  destruct (_ && _); congruence.
Qed.

Lemma write_raises_only_witness :
  exists e,
    ConstantPool_write 2 (snd (add ConstantPool_init (Str [0xD800]))) []
      = Some (Raises e)
    /\ (e = Core PackRange \/ e = Core UnicodeEncodeError).
Proof.
  exists (Core UnicodeEncodeError). split; [reflexivity |].
  apply (write_raises_only 2 (snd (add ConstantPool_init (Str [0xD800]))) []).
  - apply built_add; [apply built_init | vm_compute; reflexivity].
  - reflexivity.
Defined.

(** ** Writing a pool and reading it back *)

Lemma read_loop_invariant (J : read_state -> Prop) fuel version constants_count s s' :
  (forall s1 s2, J s1 -> read_entry version s1 = Ok s2 -> J s2) ->
  J s ->
  read_loop fuel version constants_count s = Some (Ok s') ->
  J s'.
Proof.
  intros Hstep. revert s. induction fuel as [| fuel IH]; intros s HJ; simpl.
  - destruct (rs_offset s <? constants_count); [discriminate |]. now intros [= <-].
  - destruct (rs_offset s <? constants_count); [| now intros [= <-]].
    destruct (read_entry version s) as [s1 | e] eqn:E; [| discriminate].
    apply IH. eapply Hstep; eauto.
Qed.

Lemma fixup_loop_invariant (J : ConstantPool -> list entry -> Prop)
    fuel pool uncomputed pool' :
  (forall pool offset constant info rest value,
     J pool ((offset, constant, info) :: rest) ->
     dereference constant (_forward_entries pool) info = Ok (Some value) ->
     J (bind_entry pool offset value) rest) ->
  (forall pool e rest, J pool (e :: rest) -> J pool (rest ++ [e])) ->
  J pool uncomputed ->
  fixup_loop fuel pool uncomputed = Some (Ok pool') ->
  J pool' [].
Proof.
  intros Hres Hrot. revert pool uncomputed.
  induction fuel as [| fuel IH]; intros pool uncomputed HJ; simpl.
  - destruct uncomputed as [| [[offset constant] info] rest]; [| discriminate].
    now intros [= <-].
  - destruct uncomputed as [| [[offset constant] info] rest]; [now intros [= <-] |].
    destruct (dereference constant (_forward_entries pool) info) as [[value |] | e] eqn:E;
      [| | discriminate].
    + apply IH. eapply Hres; eauto.
    + apply IH. now apply Hrot.
Qed.

Lemma on_chain_mono forward queued forward' queued' :
  (forall j c, forward !! j = Some c -> forward' !! j = Some c) ->
  (forall q, q ∈ queued -> q ∈ queued'
             \/ exists c, forward' !! q = Some c /\ constant_wide c = false) ->
  forall k, on_chain forward queued k -> on_chain forward' queued' k.
Proof.
  intros Hfw Hq k. induction 1 as [| k c _ IH Hc | k _ IH Hin].
  - constructor.
  - eapply on_chain_bound; eauto.
  - destruct (Hq _ Hin) as [Hin' | (c & Hc & Hw)].
    + now apply on_chain_queued.
    + replace (k + 1) with (k + 1 + (if constant_wide c then 1 else 0))
        by (rewrite Hw; lia).
      eapply on_chain_bound; eauto.
Qed.

Lemma chained_bound_step forward queued next c :
  forward !! next = None ->
  chained forward queued next ->
  chained (<[next := c]> forward) queued
          (next + 1 + (if constant_wide c then 1 else 0)).
Proof.
  intros Hfree [Hnext Hall].
  assert (Hmono : forall k, on_chain forward queued k ->
                            on_chain (<[next := c]> forward) queued k).
  { apply on_chain_mono; [| auto]. intros j c' Hj.
    rewrite lookup_insert_ne by congruence. exact Hj. }
  split.
  - eapply on_chain_bound; [apply Hmono, Hnext | apply lookup_insert_eq].
  - intros k [[c' Hk] | Hk].
    + destruct (decide (next = k)) as [<- | Hne]; [apply Hmono, Hnext |].
      rewrite lookup_insert_ne in Hk by exact Hne. apply Hmono, Hall. eauto.
    + apply Hmono, Hall. auto.
Qed.

Lemma chained_queue_step forward queued next :
  chained forward queued next -> chained forward (queued ++ [next]) (next + 1).
Proof.
  intros [Hnext Hall].
  assert (Hmono : forall k, on_chain forward queued k ->
                            on_chain forward (queued ++ [next]) k).
  { apply on_chain_mono; [auto |]. intros q Hq. left. apply elem_of_app. now left. }
  split.
  - apply on_chain_queued; [apply Hmono, Hnext |].
    apply elem_of_app. right. now apply list_elem_of_singleton.
  - intros k [Hk | Hk]; [apply Hmono, Hall; auto |].
    apply elem_of_app in Hk as [Hk | Hk]; [apply Hmono, Hall; auto |].
    apply list_elem_of_singleton in Hk. subst k. apply Hmono, Hnext.
Qed.

Lemma chained_resolve_step forward offset queued next c :
  forward !! offset = None ->
  constant_wide c = false ->
  chained forward (offset :: queued) next ->
  chained (<[offset := c]> forward) queued next.
Proof.
  intros Hfree Hw [Hnext Hall].
  assert (Hmono : forall k, on_chain forward (offset :: queued) k ->
                            on_chain (<[offset := c]> forward) queued k).
  { apply on_chain_mono.
    - intros j c' Hj. rewrite lookup_insert_ne by congruence. exact Hj.
    - intros q Hq. apply elem_of_cons in Hq as [-> | Hq]; [| now left].
      right. exists c. split; [apply lookup_insert_eq | exact Hw]. }
  split; [apply Hmono, Hnext |].
  intros k [[c' Hk] | Hk].
  - destruct (decide (offset = k)) as [<- | Hne].
    + apply Hmono, Hall. right. apply elem_of_cons. now left.
    + rewrite lookup_insert_ne in Hk by exact Hne. apply Hmono, Hall. eauto.
  - apply Hmono, Hall. right. apply elem_of_cons. now right.
Qed.

Lemma chained_rotate forward offset queued next :
  chained forward (offset :: queued) next ->
  chained forward (queued ++ [offset]) next.
Proof.
  intros [Hnext Hall].
  assert (Hsame : forall n, n ∈ offset :: queued <-> n ∈ queued ++ [offset]).
  { intros n. rewrite elem_of_cons, elem_of_app, list_elem_of_singleton. tauto. }
  assert (Hmono : forall k, on_chain forward (offset :: queued) k ->
                            on_chain forward (queued ++ [offset]) k).
  { apply on_chain_mono; [auto |]. intros q Hq. left. now apply Hsame. }
  split; [apply Hmono, Hnext |].
  intros k [Hk | Hk]; apply Hmono, Hall; [auto |]. right. now apply Hsame.
Qed.

Lemma read_entry_chained version s s' :
  read_state_chained s -> read_entry version s = Ok s' -> read_state_chained s'.
Proof.
  intros [Hs Hc] Hread. split; [eapply read_entry_sound; eauto |].
  assert (Hfree : _forward_entries (rs_pool s) !! rs_offset s = None).
  { destruct Hs as [Hs _]. apply (pool_sound_free _ _ Hs). simpl. lia. }
  revert Hread. unfold read_entry.
  destruct (buffer_read 1 (rs_buffer s)) as [[| t [| ? ?]] buffer1]; try discriminate.
  destruct (_constant_map t) as [constant |]; [| discriminate].
  destruct (Version_gt (since constant) version); [discriminate |].
  pose proof (Variant_read_result constant buffer1) as Hr.
  destruct (Variant_read constant buffer1) as [[[c | info] buffer2] | e];
    [| | discriminate]; simpl; intros [= <-]; simpl.
  - replace (wide constant) with (constant_wide c)
      by (unfold constant_wide; now rewrite Hr).
    now apply chained_bound_step.
  - replace (wide constant) with false
      by (destruct constant, info; try discriminate Hr; reflexivity).
    unfold queued_offsets. rewrite map_app. simpl.
    replace (rs_offset s + 1 + 0) with (rs_offset s + 1) by lia.
    now apply chained_queue_step.
Qed.

Lemma chained_read fuel version buffer pool :
  ConstantPool_read fuel version buffer = Some (Ok pool) ->
  chained (_forward_entries pool) [] (_index pool).
Proof.
  unfold ConstantPool_read.
  destruct (buffer_read 2 buffer) as [hdr buffer1].
  destruct (unpack_H hdr) as [constants_count | e]; [| discriminate].
  destruct (read_loop fuel version constants_count
              (mkReadState ConstantPool_init [] 1 buffer1)) as [[s | e] |] eqn:E;
    try discriminate.
  apply (read_loop_invariant read_state_chained) in E;
    [| intros s1 s2; apply read_entry_chained |].
  2:{ split; [split; [exact pool_sound_init | split; constructor] |].
      split; [constructor |]. simpl. intros k [[c Hk] | Hk].
      - now rewrite lookup_empty in Hk.
      - now apply elem_of_nil in Hk. }
  destruct E as [[Hs Hq] Hc]. intros Hfix.
  apply (fixup_loop_invariant fixup_chained) in Hfix.
  - exact (proj2 Hfix).
  - intros p offset constant info rest value [[Hsp [Hqf Hnd]] Hcp] Hd.
    apply Forall_cons in Hqf as [[Hoff Hfree] Htl].
    simpl in Hoff, Hfree, Hnd. apply NoDup_cons in Hnd as [Hnotin Hnd].
    split; [split |].
    + rewrite <- set_index_bind_entry.
      apply pool_sound_bind; [exact Hsp | exact Hfree | lia | lia].
    + split; [| exact Hnd]. simpl.
      rewrite Forall_forall in Htl |- *. intros e He.
      destruct (Htl e He) as [He1 He2]. split; [exact He1 |].
      rewrite lookup_insert_ne; [exact He2 |].
      intros ->. apply Hnotin. apply list_elem_of_fmap. eauto.
    + simpl in *. apply chained_resolve_step; [exact Hfree | | exact Hcp].
      eapply dereference_not_wide; eauto.
  - intros p e rest [[Hsp Hqf] Hcp]. split; [split; [exact Hsp |] |].
    + now apply queue_fresh_rotate.
    + unfold queued_offsets in *. rewrite map_app. simpl in *.
      now apply chained_rotate.
  - split; [split; [exact Hs | exact Hq] | exact Hc].
Qed.

Lemma chained_add pool constant :
  pool_sound pool -> _index pool + 2 < 2 ^ 31 ->
  chained (_forward_entries pool) [] (_index pool) ->
  chained (_forward_entries (snd (add pool constant))) []
          (_index (snd (add pool constant))).
Proof.
  intros Hs Hhi Hc. destruct (is_Index (coerce constant)) eqn:Hi.
  { destruct constant as [s | x]; [discriminate |]. destruct x; try discriminate.
    exact Hc. }
  rewrite add_in_range by (try exact Hi; destruct Hs; lia).
  destruct (_backward_entries pool !! coerce constant); simpl; [exact Hc |].
  apply chained_bound_step; [| exact Hc].
  apply pool_sound_free; [exact Hs | lia].
Qed.

Lemma built_chained pool :
  built pool -> chained (_forward_entries pool) [] (_index pool).
Proof.
  induction 1 as [| fuel version buffer pool Hread | pool constant Hb IH Hhi | pool _ _].
  - split; [constructor |]. simpl. intros k [[c Hk] | Hk].
    + now rewrite lookup_empty in Hk.
    + now apply elem_of_nil in Hk.
  - eapply chained_read; eauto.
  - apply chained_add; [now apply built_sound | exact Hhi | exact IH].
  - split; [constructor |]. simpl. intros k [[c Hk] | Hk].
    + now rewrite lookup_empty in Hk.
    + now apply elem_of_nil in Hk.
Qed.

Lemma constant_wide_variant c v :
  variant_of c = Some v -> constant_wide c = wide v.
Proof. intros H. unfold constant_wide. now rewrite H. Qed.

Lemma constant_written c pool buffer pool' out :
  pool_sound pool -> writable c ->
  constant_write c pool buffer = Ok (pool', out) ->
  exists v data r,
    variant_of c = Some v
    /\ out = buffer ++ data
    /\ (forall rest, Variant_read v (data ++ rest) = Ok (r, rest))
    /\ (r = inl c
        \/ exists info, r = inr info
             /\ dereference v (_forward_entries pool') info = Ok (Some c)).
Proof.
  intros Hs [Hp | Hr] Hw.
  - destruct (primitive_written c pool buffer pool' out Hp Hw)
      as (_ & v & data & Hv & Hout & Hread).
    exists v, data, (inl c). auto.
  - destruct (reference_written c pool buffer pool' out Hs Hr Hw)
      as (_ & _ & v & data & info & Hv & Hout & Hread & Hd).
    exists v, data, (inr info). repeat split; eauto.
Qed.

Lemma dereference_mono constant lookups lookups' info c :
  (forall k y, lookups !! k = Some y -> lookups' !! k = Some y) ->
  dereference constant lookups info = Ok (Some c) ->
  dereference constant lookups' info = Ok (Some c).
Proof.
  intros Hsub.
  destruct constant, info as [i | a b]; simpl; try discriminate;
    repeat match goal with
           | |- context [lookups !! ?k] =>
               let E := fresh "E" in
               destruct (lookups !! k) as [[] |] eqn:E; try discriminate;
               apply Hsub in E; rewrite E; simpl
           end; auto.
Qed.

(** Against a part of [lookups'] that has all its [UTF8] constants, an info
    is either not dereferenceable yet or dereferences as against
    [lookups']. *)
Lemma dereference_sub constant lookups lookups' info c :
  (forall k y, lookups !! k = Some y -> lookups' !! k = Some y) ->
  (forall k s, lookups' !! k = Some (UTF8 s) -> lookups !! k = Some (UTF8 s)) ->
  dereference constant lookups' info = Ok (Some c) ->
  dereference constant lookups info = Ok None
  \/ dereference constant lookups info = Ok (Some c).
Proof.
  intros Hsub Hutf8.
  destruct constant, info as [i | a b]; simpl; try discriminate;
    repeat match goal with
           | |- context [lookups' !! ?k] =>
               let E := fresh "E" in
               destruct (lookups' !! k) as [[] |] eqn:E; try discriminate;
               try (apply Hutf8 in E; rewrite E; simpl)
           end;
    repeat match goal with
           | E : lookups' !! ?k = Some ?y |- context [lookups !! ?k] =>
               let F := fresh "F" in
               destruct (lookups !! k) as [z |] eqn:F;
               [apply Hsub in F; rewrite E in F; injection F as <- | ]; simpl
           end; auto.
Qed.

Lemma dereference_lower constant lookups info c i :
  dereference constant lookups info = Ok (Some c) ->
  i ∈ map fst (required_referents constant info) ->
  exists r v, lookups !! i = Some r /\ variant_of r = Some v
              /\ (variant_level v < variant_level constant)%nat.
Proof.
  intros Hd Hi.
  destruct constant, info as [j | a b]; simpl in Hd, Hi; try discriminate Hd;
    repeat (apply elem_of_cons in Hi as [-> | Hi]);
    try (now apply elem_of_nil in Hi);
    repeat match type of Hd with
           | context [lookups !! ?k] =>
               let E := fresh "E" in
               destruct (lookups !! k) as [[] |] eqn:E; try discriminate Hd
           end;
    (eexists _, _; split; [reflexivity |]; split; [reflexivity | simpl; lia]).
Qed.

Lemma dereference_level constant lookups info c :
  dereference constant lookups info = Ok (Some c) ->
  variant_of c = Some constant /\ (1 <= variant_level constant)%nat.
Proof.
  intros Hd. split; [eapply dereference_variant; eauto |].
  destruct constant; simpl in *; try discriminate Hd; lia.
Qed.

Lemma write_loop_encoded fuel :
  forall pool offset buffer pool' offset' out,
    built pool ->
    offset = _index pool \/ is_Some (_forward_entries pool !! offset) ->
    write_loop fuel pool offset buffer = Some (Returns (pool', offset', out)) ->
    (forall k c, _forward_entries pool' !! k = Some c -> writable c) ->
    exists slots body,
      out = buffer ++ body
      /\ encoded (_forward_entries pool') (_index pool') offset slots body.
Proof.
  assert (Hend : forall pool offset,
            built pool ->
            offset = _index pool \/ is_Some (_forward_entries pool !! offset) ->
            _index pool <= offset -> offset = _index pool).
  { intros pool offset Hb [-> | [c Hc]] Hge; [reflexivity |].
    destruct (built_sound pool Hb) as (_ & Hkeys & _). apply Hkeys in Hc. lia. }
  induction fuel as [| fuel IH];
    intros pool offset buffer pool' offset' out Hb Hoff Hw Hall.
  - simpl in Hw. destruct (Z.ltb_spec offset (_index pool)) as [| Hge]; [discriminate |].
    injection Hw as <- <- <-. exists [], []. split; [now rewrite app_nil_r |].
    rewrite (Hend pool offset Hb Hoff Hge). constructor.
  - pose proof (write_loop_built (S fuel) pool offset buffer Hb Hoff) as Hall0.
    rewrite Hw in Hall0. destruct Hall0 as (Hb' & Hg' & _ & _).
    simpl in Hw. destruct (Z.ltb_spec offset (_index pool)) as [Hlt | Hge].
    2:{ injection Hw as <- <- <-. exists [], []. split; [now rewrite app_nil_r |].
        rewrite (Hend pool offset Hb Hoff Hge). constructor. }
    destruct Hoff as [-> | [c Hc]]; [lia |]. rewrite Hc in Hw.
    unfold tag_byte in Hw.
    destruct (variant_of c) as [v |] eqn:Ev; [| discriminate].
    destruct (constant_write c pool (buffer ++ [tag v])) as [[pool1 buffer1] | e] eqn:Ew;
      [| discriminate].
    destruct (grown_built pool pool' Hb Hg') as (_ & Hkeep' & _).
    pose proof (Hkeep' _ _ Hc) as Hc'.
    destruct (constant_written c pool _ pool1 buffer1 (built_sound _ Hb)
                (Hall _ _ Hc') Ew) as (v0 & data & r & Hv0 & -> & Hread & Hr).
    rewrite Ev in Hv0. injection Hv0 as <-.
    pose proof (constant_write_grown c pool (buffer ++ [tag v])
                  (built_sound pool Hb)) as Hg.
    rewrite Ew in Hg. destruct Hg as [Hg _].
    destruct (grown_built pool pool1 Hb Hg) as (Hb1 & Hkeep & Hidx).
    pose proof (built_layout pool Hb) as (Hk & _ & _).
    specialize (Hk _ _ Hc). cbv zeta in Hk.
    set (n := offset + 1 + (if constant_wide c then 1 else 0)) in *.
    assert (Hn : n = _index pool1 \/ is_Some (_forward_entries pool1 !! n)).
    { destruct Hk as [Hk | [[y Hy] | Hk]].
      - destruct Hidx as [Hidx | Hidx]; [left; congruence | right; now rewrite Hk].
      - right. eauto.
      - now apply elem_of_nil in Hk. }
    pose proof (write_loop_built fuel pool1 n ((buffer ++ [tag v]) ++ data) Hb1 Hn) as H1.
    rewrite Hw in H1. destruct H1 as (_ & Hg1 & _ & _).
    destruct (grown_built pool1 pool' Hb1 Hg1) as (_ & Hkeep1 & _).
    destruct (IH pool1 n _ pool' offset' out Hb1 Hn Hw Hall)
      as (slots & body & -> & Henc).
    exists (offset :: slots), ([tag v] ++ data ++ body).
    split; [now rewrite <- !app_assoc |].
    simpl. eapply encoded_entry; eauto.
    + destruct (built_sound pool' Hb') as (_ & Hkeys & _). apply Hkeys in Hc'. lia.
    + destruct Hr as [-> | (info & -> & Hd)]; [now left |].
      right. exists info. split; [reflexivity |]. eapply dereference_mono; eauto.
Qed.

Lemma encoded_head forward next offset slots body :
  encoded forward next offset slots body -> offset = next \/ offset ∈ slots.
Proof. destruct 1; [now left | right; apply elem_of_cons; now left]. Qed.

Lemma encoded_next forward next offset slots body k c :
  encoded forward next offset slots body ->
  k ∈ slots -> forward !! k = Some c ->
  k + 1 + (if constant_wide c then 1 else 0) = next
  \/ k + 1 + (if constant_wide c then 1 else 0) ∈ slots.
Proof.
  induction 1 as [| offset c0 v data r slots body Hlt Hc Hv Hread Hr Henc IH];
    intros Hin Hk.
  - now apply elem_of_nil in Hin.
  - apply elem_of_cons in Hin as [-> | Hin].
    + rewrite Hc in Hk. injection Hk as <-.
      destruct (encoded_head _ _ _ _ _ Henc) as [H | H]; [now left |].
      right. apply elem_of_cons. now right.
    + destruct (IH Hin Hk) as [H | H]; [now left |].
      right. apply elem_of_cons. now right.
Qed.

(** The entries of a pool whose slots follow one another cover all of its
    slots. *)
Lemma encoded_covers forward next slots body :
  encoded forward next 1 slots body ->
  (forall j c, forward !! j = Some c -> j < next) ->
  forall k, on_chain forward [] k -> k = next \/ k ∈ slots.
Proof.
  intros Henc Hkeys k. induction 1 as [| k c _ IH Hc | k _ _ Hin].
  - eapply encoded_head; eauto.
  - destruct IH as [-> | Hin]; [apply Hkeys in Hc; lia |].
    eapply encoded_next; eauto.
  - now apply elem_of_nil in Hin.
Qed.

Lemma read_loop_done fuel version constants_count s :
  rs_offset s = constants_count ->
  read_loop fuel version constants_count s = Some (Ok s).
Proof. intros <-. destruct fuel; simpl; now rewrite Z.ltb_irrefl. Qed.

Lemma fixup_loop_fuel_le fuel fuel' pool uncomputed r :
  (fuel <= fuel')%nat ->
  fixup_loop fuel pool uncomputed = Some r ->
  fixup_loop fuel' pool uncomputed = Some r.
Proof.
  induction 1 as [| fuel' _ IH]; [auto |].
  intros H. apply fixup_loop_more_fuel. auto.
Qed.

Lemma read_encoded version forward next offset slots body :
  encoded forward next offset slots body ->
  (forall k c, forward !! k = Some c -> supported version c) ->
  forall s tail,
    rs_offset s = offset -> rs_buffer s = body ++ tail ->
    agrees forward (rs_pool s) (rs_uncomputed s) ->
    exists n s',
      reads_to version next s n s'
      /\ rs_offset s' = next /\ rs_buffer s' = tail
      /\ agrees forward (rs_pool s') (rs_uncomputed s')
      /\ (forall k, held (rs_pool s) (rs_uncomputed s) k \/ k ∈ slots ->
                    held (rs_pool s') (rs_uncomputed s') k).
Proof.
  intros Henc Hsup.
  induction Henc as [| offset c v data r slots body Hlt Hc Hv Hread Hr Henc IH];
    intros s tail Hoff Hbuf Hag.
  - exists 0%nat, s. split; [constructor |].
    split; [exact Hoff |]. split; [exact Hbuf |]. split; [exact Hag |].
    intros k [Hk | Hk]; [exact Hk | now apply elem_of_nil in Hk].
  - destruct (Hsup _ _ Hc) as (v' & Hv' & Hver). rewrite Hv in Hv'. injection Hv' as <-.
    assert (Hentry : read_entry version s
              = Ok match r with
                   | inl c' =>
                       mkReadState (bind_entry (rs_pool s) offset c') (rs_uncomputed s)
                         (offset + 1 + (if wide v then 1 else 0)) (body ++ tail)
                   | inr i =>
                       mkReadState (rs_pool s) (rs_uncomputed s ++ [(offset, v, i)])
                         (offset + 1 + (if wide v then 1 else 0)) (body ++ tail)
                   end).
    { unfold read_entry. rewrite Hbuf.
      change (buffer_read 1 ((tag v :: data ++ body) ++ tail))
        with ([tag v], (data ++ body) ++ tail).
      cbv beta iota. rewrite _constant_map_tag, Hver, <- app_assoc, Hread. simpl. rewrite Hoff.
      now destruct r. }
    rewrite <- (constant_wide_variant c v Hv) in Hentry.
    destruct Hag as [Hsub Hq].
    destruct Hr as [-> | (info & -> & Hd)]; cbv beta iota in Hentry;
      match type of Hentry with
      | _ = Ok ?s1 => specialize (IH s1 tail eq_refl eq_refl)
      end; simpl in IH.
    + destruct IH as (n & s' & Hreads & Ho & Hb & Hag' & Hheld).
      { split; [| exact Hq]. simpl. intros k y.
        destruct (decide (offset = k)) as [<- | Hne].
        - rewrite lookup_insert_eq. now intros [= <-].
        - rewrite lookup_insert_ne by exact Hne. apply Hsub. }
      exists (S n), s'. split; [eapply reads_to_next; eauto; lia |].
      split; [exact Ho |]. split; [exact Hb |]. split; [exact Hag' |].
      intros k Hk. apply Hheld. unfold held in *. simpl.
      destruct Hk as [[[y Hy] | Hk] | Hk].
      * left. left. destruct (decide (offset = k)) as [<- | Hne];
          [rewrite lookup_insert_eq | rewrite lookup_insert_ne by exact Hne]; eauto.
      * left. now right.
      * apply elem_of_cons in Hk as [-> | Hk]; [| now right].
        left. left. rewrite lookup_insert_eq. eauto.
    + destruct IH as (n & s' & Hreads & Ho & Hb & Hag' & Hheld).
      { split; [exact Hsub |]. simpl. apply Forall_app. split; [exact Hq |].
        constructor; [| constructor]. exists c. auto. }
      exists (S n), s'. split; [eapply reads_to_next; eauto; lia |].
      split; [exact Ho |]. split; [exact Hb |]. split; [exact Hag' |].
      intros k Hk. apply Hheld. unfold held, queued_offsets in *. simpl.
      rewrite map_app. simpl.
      destruct Hk as [[Hy | Hk] | Hk].
      * left. now left.
      * left. right. apply elem_of_app. now left.
      * apply elem_of_cons in Hk as [-> | Hk]; [| now right].
        left. right. apply elem_of_app. right. now apply list_elem_of_singleton.
Qed.

Lemma agrees_fully_utf8 forward pool q k s :
  agrees_fully forward pool q ->
  forward !! k = Some (UTF8 s) ->
  _forward_entries pool !! k = Some (UTF8 s).
Proof.
  intros [[Hsub Hq] Hheld] Hk.
  destruct (Hheld k) as [[c Hc] | Hin]; [eauto | |].
  - rewrite Hc. apply Hsub in Hc. congruence.
  - exfalso. apply list_elem_of_In, in_map_iff in Hin as ([[o v] info] & Ho & He).
    simpl in Ho. subst o. apply list_elem_of_In in He.
    rewrite Forall_forall in Hq. destruct (Hq _ He) as (c & Hc & Hd). simpl in Hc, Hd.
    rewrite Hk in Hc. injection Hc as <-.
    destruct (dereference_level _ _ _ _ Hd) as [Hv Hl].
    simpl in Hv. injection Hv as <-. simpl in Hl. lia.
Qed.

Lemma fixup_loop_agrees forward fuel :
  forall pool q r,
    agrees_fully forward pool q ->
    fixup_loop fuel pool q = Some r ->
    exists pool', r = Ok pool' /\ agrees_fully forward pool' []
                  /\ _index pool' = _index pool.
Proof.
  induction fuel as [| fuel IH]; intros pool q r Hag; simpl.
  - destruct q as [| [[o v] info] rest]; [| discriminate]. intros [= <-]. eauto.
  - destruct q as [| [[o v] info] rest]; [intros [= <-]; eauto |].
    pose proof Hag as [[Hsub Hq] Hheld].
    apply Forall_cons in Hq as [(c & Hc & Hd) Hrest]. simpl in Hc, Hd.
    destruct (dereference_sub v (_forward_entries pool) forward info c Hsub
                (fun k s => agrees_fully_utf8 _ _ _ k s Hag) Hd) as [E | E]; rewrite E.
    + apply IH. split; [split; [exact Hsub |] |].
      * apply Forall_app. split; [exact Hrest |].
        constructor; [| constructor]. exists c. auto.
      * intros k Hk. destruct (Hheld k Hk) as [Hb | Hin]; [now left | right].
        unfold queued_offsets in *. rewrite map_app. simpl in *.
        apply elem_of_app.
        apply elem_of_cons in Hin as [-> | Hin];
          [right; now apply list_elem_of_singleton | now left].
    + intros H.
      destruct (IH (bind_entry pool o c) rest r) as (pool' & -> & Hag' & Hidx);
        [| exact H | eauto].
      split; [split; [| exact Hrest] |].
      * simpl. intros k y. destruct (decide (o = k)) as [<- | Hne].
        -- rewrite lookup_insert_eq. now intros [= <-].
        -- rewrite lookup_insert_ne by exact Hne. apply Hsub.
      * intros k Hk. destruct (Hheld k Hk) as [[y Hy] | Hin].
        -- left. simpl. destruct (decide (o = k)) as [<- | Hne];
             [rewrite lookup_insert_eq | rewrite lookup_insert_ne by exact Hne]; eauto.
        -- unfold queued_offsets in Hin. simpl in Hin.
           apply elem_of_cons in Hin as [-> | Hin]; [| now right].
           left. simpl. rewrite lookup_insert_eq. eauto.
Qed.

Lemma agrees_fully_ranked forward pool q :
  agrees_fully forward pool q -> ranked pool q (slot_rank forward).
Proof.
  intros [[Hsub Hq] Hheld] [[o v] info] He i Hi.
  rewrite Forall_forall in Hq. destruct (Hq _ He) as (c & Hc & Hd).
  simpl in Hc, Hd.
  destruct (dereference_lower v forward info c i Hd Hi) as (r & v' & Hr & Hv' & Hlt).
  destruct (Hheld i) as [Hb | Hin]; [eauto | now left |]. right.
  apply list_elem_of_In, in_map_iff in Hin as (e' & Ho & He').
  apply list_elem_of_In in He'.
  exists e'. split; [exact He' |]. split; [exact Ho |].
  unfold slot_rank. simpl. rewrite Hr, Hv', Hc.
  now rewrite (proj1 (dereference_level _ _ _ _ Hd)).
Qed.

(** X20: when [write] returns for such a pool, the bytes before the cursor
    are untouched, the two bytes after them hold the final [_index] (after
    the referents that the constants added while being written), and the
    pool has only grown: every slot still holds its constant.  The bytes
    that follow the count are the entries of the pool, slot after slot from
    1 to [_index]: when the constants of the final pool are integers, longs,
    strings of code points and reference-bearing constants, each entry is
    the tag of its constant and a payload that the [read] of its class
    turns back into that constant, or into the indices of the constants it
    is made of, and no occupied slot is left out. *)
Theorem write_returns fuel pool buffer pool' out :
  built pool ->
  ConstantPool_write fuel pool buffer = Some (Returns (pool', out)) ->
  built pool'
  /\ (forall k c, _forward_entries pool !! k = Some c ->
                  _forward_entries pool' !! k = Some c)
  /\ exists count body,
       out = buffer ++ count ++ body
       /\ unpack_H count = Ok (_index pool')
       /\ ((forall k c, _forward_entries pool' !! k = Some c -> writable c) ->
           exists slots,
             encoded (_forward_entries pool') (_index pool') 1 slots body
             /\ forall k, is_Some (_forward_entries pool' !! k) -> k ∈ slots).
Proof.
  intros Hb. unfold ConstantPool_write.
  destruct (built_layout pool Hb) as (_ & _ & H1).
  assert (Hstart : 1 = _index pool \/ is_Some (_forward_entries pool !! 1)).
  { destruct H1 as [H1 | [H1 | H1]]; auto. now apply elem_of_nil in H1. }
  pose proof (write_loop_built fuel pool 1 (buffer ++ [0; 0]) Hb Hstart) as Hw.
  destruct (write_loop fuel pool 1 (buffer ++ [0; 0]))
    as [[[[pool1 offset] written] | e'] |] eqn:Eloop; [| discriminate | discriminate].
  destruct Hw as (Hb1 & Hg & -> & body & ->).
  destruct (pack_H (_index pool1)) as [count | e'] eqn:Ep; [| discriminate].
  intros [= <- <-].
  destruct (grown_built pool pool1 Hb Hg) as (_ & Hkeep & _).
  split; [exact Hb1 |]. split; [exact Hkeep |].
  exists count, body. split; [| split].
  - rewrite take_app3_length.
    rewrite (drop_app_length' (buffer ++ [0; 0]) body)
      by (rewrite length_app; reflexivity).
    reflexivity.
  - now destruct (unpack_pack_H _ _ Ep).
  - intros Hall.
    destruct (write_loop_encoded fuel pool 1 _ pool1 _ _ Hb Hstart Eloop Hall)
      as (slots & body' & Heq & Henc).
    apply app_inv_head in Heq. subst body'.
    exists slots. split; [exact Henc |].
    destruct (built_sound pool1 Hb1) as (Hidx & Hkeys & _).
    intros k [c Hk].
    destruct (encoded_covers _ _ _ _ Henc) with (k := k) as [-> | Hin]; auto.
    + intros j y Hj. apply Hkeys in Hj. lia.
    + apply (built_chained pool1 Hb1). left. eauto.
    + apply Hkeys in Hk. lia.
Qed.

Lemma write_returns_witness :
  exists pool' out count body slots,
    ConstantPool_write 3 (snd (add_class ConstantPool_init [70])) []
      = Some (Returns (pool', out))
    /\ out = [] ++ count ++ body
    /\ unpack_H count = Ok (_index pool')
    /\ encoded (_forward_entries pool') (_index pool') 1 slots body
    /\ 1 ∈ slots /\ 2 ∈ slots.
Proof.
  assert (Hb : built (snd (add_class ConstantPool_init [70])))
    by (apply built_add; [apply built_init | vm_compute; reflexivity]).
  assert (E : ConstantPool_write 3 (snd (add_class ConstantPool_init [70])) []
              = Some (Returns
                        (snd (add_utf8 (snd (add_class ConstantPool_init [70])) [70]),
                         [0; 3; 7; 0; 2; 1; 0; 1; 70])))
    by (vm_compute; reflexivity).
  destruct (write_returns 3 _ [] _ _ Hb E)
    as (_ & _ & count & body & H1 & H2 & H3).
  destruct H3 as (slots & Henc & Hcov).
  { apply map_Forall_to_list.
    set (l := map_to_list _). vm_compute in l. subst l.
    repeat (apply Forall_cons; split;
            [first [right; reflexivity | left; simpl; repeat constructor; lia] |]).
    constructor. }
  exists (snd (add_utf8 (snd (add_class ConstantPool_init [70])) [70])),
         [0; 3; 7; 0; 2; 1; 0; 1; 70], count, body, slots.
  split; [exact E |]. split; [exact H1 |]. split; [exact H2 |].
  split; [exact Henc |].
  split; apply Hcov; vm_compute; eauto.
Defined.

(** X22: a pool built without [__setitem__] that [write] has written is read
    back as it stands after the write (with the referents the write added),
    when its constants are integers, longs, strings of code points and
    reference-bearing constants of classes that the version has: [read],
    started where [write] started, returns a pool with the same constants at
    the same indices and the same [_index]. *)
Theorem write_then_read fuel pool buffer pool' out version :
  built pool ->
  ConstantPool_write fuel pool buffer = Some (Returns (pool', out)) ->
  (forall k c, _forward_entries pool' !! k = Some c ->
               writable c /\ supported version c) ->
  exists fuel' pool'',
    ConstantPool_read fuel' version (drop (length buffer) out) = Some (Ok pool'')
    /\ _forward_entries pool'' = _forward_entries pool'
    /\ _index pool'' = _index pool'.
Proof.
  intros Hb Hwrite Hall. revert Hwrite. unfold ConstantPool_write.
  destruct (built_layout pool Hb) as (_ & _ & H1).
  assert (Hstart : 1 = _index pool \/ is_Some (_forward_entries pool !! 1)).
  { destruct H1 as [H1 | [H1 | H1]]; auto. now apply elem_of_nil in H1. }
  pose proof (write_loop_built fuel pool 1 (buffer ++ [0; 0]) Hb Hstart) as Hw.
  destruct (write_loop fuel pool 1 (buffer ++ [0; 0]))
    as [[[[pool1 offset] written] | e'] |] eqn:Eloop; [| discriminate | discriminate].
  destruct Hw as (Hb1 & _ & -> & _).
  destruct (pack_H (_index pool1)) as [count | e'] eqn:Ep; [| discriminate].
  intros [= <- <-].
  destruct (write_loop_encoded fuel pool 1 _ pool1 _ written Hb Hstart Eloop)
    as (slots & body & -> & Henc); [intros k c Hk; exact (proj1 (Hall k c Hk)) |].
  rewrite take_app3_length.
  rewrite (drop_app_length' (buffer ++ [0; 0]) body)
    by (rewrite length_app; reflexivity).
  rewrite drop_app_length.
  destruct (unpack_pack_H _ _ Ep) as [Hlen Hcount].
  destruct (built_sound pool1 Hb1) as (Hidx & Hkeys & _).
  destruct (read_encoded version _ _ _ _ _ Henc (fun k c Hk => proj2 (Hall k c Hk))
              (mkReadState ConstantPool_init [] 1 body) [])
    as (n & s & Hreads & Ho & _ & Hag & Hheld);
    [reflexivity | simpl; now rewrite app_nil_r | |].
  { split; [| constructor]. simpl. intros k c Hk. now rewrite lookup_empty in Hk. }
  assert (Hfull : agrees_fully (_forward_entries pool1)
                    (set_index (rs_pool s) (rs_offset s)) (rs_uncomputed s)).
  { split; [exact Hag |]. intros k [c Hk]. apply Hheld. right.
    destruct (encoded_covers _ _ _ _ Henc) with (k := k) as [-> | Hin]; auto.
    - intros j y Hj. apply Hkeys in Hj. lia.
    - apply (built_chained pool1 Hb1). left. eauto.
    - apply Hkeys in Hk. lia. }
  destruct (ranked_fixup_ends _ _ _ (agrees_fully_ranked _ _ _ Hfull))
    as (fuel2 & r & Hfix).
  destruct (fixup_loop_agrees _ _ _ _ _ Hfull Hfix)
    as (pool2 & -> & [[Hsub _] Hheld2] & Hidx2).
  exists (n + fuel2)%nat, pool2. split; [| split].
  - unfold ConstantPool_read.
    rewrite buffer_read_app by (rewrite Hlen; reflexivity).
    rewrite Hcount.
    rewrite (read_loop_reads_to _ _ _ _ _ fuel2 Hreads).
    rewrite (read_loop_done _ _ _ _ Ho).
    eapply fixup_loop_fuel_le; [| exact Hfix]. lia.
  - apply map_eq. intros k.
    destruct (_forward_entries pool1 !! k) as [c |] eqn:Hk.
    + destruct (Hheld2 k) as [[y Hy] | Hin]; [eauto | |].
      * rewrite Hy. apply Hsub in Hy. congruence.
      * now apply elem_of_nil in Hin.
    + destruct (_forward_entries pool2 !! k) as [y |] eqn:Hy; [| reflexivity].
      apply Hsub in Hy. congruence.
  - rewrite Hidx2. simpl. exact Ho.
Qed.

Lemma write_then_read_witness :
  exists fuel' pool'',
    ConstantPool_read fuel' (mkVersion 52 0) [0; 3; 7; 0; 2; 1; 0; 1; 70]
      = Some (Ok pool'')
    /\ _forward_entries pool''
       = _forward_entries (snd (add_utf8 (snd (add_class ConstantPool_init [70])) [70]))
    /\ _index pool'' = 3.
Proof.
  apply (write_then_read 3 (snd (add_class ConstantPool_init [70])) []
           (snd (add_utf8 (snd (add_class ConstantPool_init [70])) [70]))
           [0; 3; 7; 0; 2; 1; 0; 1; 70] (mkVersion 52 0)).
  - apply built_add; [apply built_init | vm_compute; reflexivity].
  - vm_compute. reflexivity.
  - apply map_Forall_to_list.
    set (l := map_to_list _). vm_compute in l. subst l.
    repeat (apply Forall_cons; split;
            [split; [first [right; reflexivity
                           | left; simpl; repeat constructor; lia]
                    | eexists; split; reflexivity] |]).
    constructor.
Defined.

(** ** Writing a pool with a gap *)






(** At the last index but one of the C [int] a wide constant wraps the next
    free index around, and [write] then returns an empty pool image instead
    of stopping at the gap. *)
Example write_returns_after_wrap :
  exists pool',
    setitem ConstantPool_init 2147483646 (Const (Long 9)) = Ok pool'
    /\ _index pool' = - 2147483648
    /\ ConstantPool_write 1 pool' [] = Some (Returns (pool', [0; 1])).
Proof. eexists. split; [reflexivity |]. split; vm_compute; reflexivity. Qed.



(** ** Writing a pool that was read *)

Lemma dereference_referents constant lookups info c :
  dereference constant lookups info = Ok (Some c) ->
  forall r, r ∈ referents c -> exists i, lookups !! i = Some r.
Proof.
  destruct constant, info as [j | a b]; simpl; try discriminate;
    repeat match goal with
           | |- context [lookups !! ?k] =>
               let E := fresh "E" in
               destruct (lookups !! k) as [[] |] eqn:E; simpl; try discriminate
           end;
    intros [= <-] r Hr; simpl in Hr;
    repeat (apply elem_of_cons in Hr as [-> | Hr]);
    try (now apply elem_of_nil in Hr);
    try (destruct c; simpl); try (destruct nt; simpl); eauto.
Qed.

Lemma Variant_read_primitive constant buffer c buffer' :
  Variant_read constant buffer = Ok (inl c, buffer') -> referents c = [].
Proof.
  intros H. pose proof (Variant_read_result constant buffer) as Hv.
  rewrite H in Hv.
  destruct constant;
    try (destruct c; simpl in Hv; try discriminate Hv; reflexivity);
    exfalso; revert H; unfold Variant_read; simpl; unfold bind;
    repeat match goal with
           | |- context [match ?x with Ok _ => _ | Err _ => _ end] =>
               destruct x as [[] |]; simpl
           end;
    discriminate.
Qed.

Lemma closed_bind_entry pool offset c :
  closed pool ->
  (forall r, r ∈ referents c -> is_Some (_backward_entries pool !! r)) ->
  closed (bind_entry pool offset c).
Proof.
  intros Hcl Href.
  assert (Hup : forall r, is_Some (_backward_entries pool !! r) ->
                          is_Some (<[c := offset]> (_backward_entries pool) !! r)).
  { intros r Hr. destruct (decide (c = r)) as [-> | Hne];
      [rewrite lookup_insert_eq | rewrite lookup_insert_ne by exact Hne]; eauto. }
  intros k c' Hk r Hr. simpl in *.
  destruct (decide (offset = k)) as [<- | Hne].
  - rewrite lookup_insert_eq in Hk. injection Hk as <-.
    apply elem_of_cons in Hr as [-> | Hr]; [rewrite lookup_insert_eq; eauto |].
    apply Hup. now apply Href.
  - rewrite lookup_insert_ne in Hk by exact Hne. apply Hup. eapply Hcl; eauto.
Qed.

Lemma closed_read fuel version buffer pool :
  ConstantPool_read fuel version buffer = Some (Ok pool) -> closed pool.
Proof.
  unfold ConstantPool_read.
  destruct (buffer_read 2 buffer) as [hdr buffer1].
  destruct (unpack_H hdr) as [constants_count | e]; [| discriminate].
  destruct (read_loop fuel version constants_count
              (mkReadState ConstantPool_init [] 1 buffer1)) as [[s | e] |] eqn:E;
    try discriminate.
  apply (read_loop_invariant (fun s => closed (rs_pool s))) in E.
  - intros Hfix.
    apply (fixup_loop_invariant (fun pool _ => closed pool)) in Hfix; auto.
    intros p offset constant info rest value Hcl Hd.
    apply closed_bind_entry; [exact Hcl |]. intros r Hr.
    destruct (dereference_referents _ _ _ _ Hd r Hr) as [i Hi].
    apply (Hcl i r Hi). apply elem_of_cons. now left.
  - intros s1 s2 Hcl. unfold read_entry.
    destruct (buffer_read 1 (rs_buffer s1)) as [[| t [| ? ?]] buffer2]; try discriminate.
    destruct (_constant_map t) as [constant |]; [| discriminate].
    destruct (Version_gt (since constant) version); [discriminate |].
    destruct (Variant_read constant buffer2) as [[[c | info] buffer3] | e'] eqn:Er;
      [| | discriminate]; simpl; intros [= <-]; simpl; [| exact Hcl].
    apply closed_bind_entry; [exact Hcl |].
    rewrite (Variant_read_primitive _ _ _ _ Er). intros r Hr.
    now apply elem_of_nil in Hr.
  - intros k c Hk. simpl in Hk. now rewrite lookup_empty in Hk.
Qed.

Lemma add_known pool x :
  is_Some (_backward_entries pool !! coerce x) -> snd (add pool x) = pool.
Proof.
  intros [i Hi]. unfold add. rewrite Hi. destruct x as [s | []]; reflexivity.
Qed.

Lemma constant_write_same c pool buffer pool' out :
  (forall r, r ∈ referents c -> is_Some (_backward_entries pool !! r)) ->
  constant_write c pool buffer = Ok (pool', out) -> pool' = pool.
Proof.
  intros Href.
  destruct c as [| | | | | | [cn] | | cl nt | cl nt | cl nt | [n d]
                 | kind reference | | b nt | b nt | |];
    cbn [constant_write class_name nt_name nt_descriptor]; unfold add_utf8;
    simpl in Href;
    repeat match goal with
           | |- context [add ?p ?x] =>
               let H := fresh "H" in
               assert (H : snd (add p x) = p)
                 by (apply add_known, Href, list_elem_of_In; simpl; tauto);
               destruct (add p x) as [? ?]; simpl in H; subst
           end;
    unfold bind;
    repeat match goal with
           | |- context [match ?x with Ok _ => _ | Err _ => _ end] =>
               destruct x; simpl
           end;
    try discriminate; intros [=]; congruence.
Qed.

Lemma write_loop_same fuel :
  forall pool offset buffer pool' offset' out,
    closed pool ->
    write_loop fuel pool offset buffer = Some (Returns (pool', offset', out)) ->
    pool' = pool.
Proof.
  induction fuel as [| fuel IH]; intros pool offset buffer pool' offset' out Hcl; simpl.
  - destruct (offset <? _index pool); [discriminate | now intros [= <- _ _]].
  - destruct (offset <? _index pool); [| now intros [= <- _ _]].
    destruct (_forward_entries pool !! offset) as [c |] eqn:Hc; [| discriminate].
    destruct (tag_byte c) as [t | e]; [| discriminate].
    destruct (constant_write c pool (buffer ++ t)) as [[pool1 buffer1] | e] eqn:Ew;
      [| discriminate].
    assert (pool1 = pool) as ->.
    { eapply constant_write_same; [| exact Ew]. intros r Hr.
      apply (Hcl offset c Hc). apply elem_of_cons. now right. }
    now apply IH.
Qed.

(** X23: [write] leaves a pool that [read] returned as it is.  The constants
    a read pool refers to are in the pool already, so the [add] calls of the
    [write] methods find them and add nothing. *)
Theorem write_keeps_read_pool fuel version bytes pool fuel' buffer pool' out :
  ConstantPool_read fuel version bytes = Some (Ok pool) ->
  ConstantPool_write fuel' pool buffer = Some (Returns (pool', out)) ->
  pool' = pool.
Proof.
  intros Hread. apply closed_read in Hread. unfold ConstantPool_write.
  destruct (write_loop fuel' pool 1 (buffer ++ [0; 0]))
    as [[[[pool1 offset] written] | e] |] eqn:E; try discriminate.
  apply write_loop_same in E; [| exact Hread]. subst pool1.
  destruct (pack_H offset); [| discriminate]. now intros [= <- _].
Qed.

Lemma write_keeps_read_pool_witness :
  exists pool' out,
    ConstantPool_write 3
      (bind_entry (set_index (bind_entry ConstantPool_init 2 (UTF8 [70; 111; 111])) 3)
                  1 (Class_ (mkClass [70; 111; 111]))) []
      = Some (Returns (pool', out))
    /\ pool' = bind_entry (set_index (bind_entry ConstantPool_init 2
                                        (UTF8 [70; 111; 111])) 3)
                          1 (Class_ (mkClass [70; 111; 111])).
Proof.
  eexists _, _. split; [vm_compute; reflexivity |].
  apply (write_keeps_read_pool 3 (mkVersion 52 0)
           [0; 3; 7; 0; 2; 1; 0; 3; 70; 111; 111] _ 3 [] _
           [0; 3; 7; 0; 2; 1; 0; 3; 70; 111; 111]);
    vm_compute; reflexivity.
Defined.

(** ** InsnBlock: what the checks keep out *)

Section BlockInvariant.
Context {IS : Block.InstructionSet}.

Lemma _check_instruction_passed (x : Block.Instruction) :
  Block._check_instruction x = Ok tt ->
  Block.terminates_control_flow x = false.
Proof.
  unfold Block.terminates_control_flow, Block._check_instruction.
  destruct (Block.is_JumpInstruction x); [discriminate |].
  destruct (Block.is_ReturnInstruction x); [discriminate |].
  destruct (Block.eq_athrow x); [discriminate | reflexivity].
Qed.

(** X14: a block created empty and changed only through [append] and
    [insert] with [do_raise=True], item assignment, item deletion, [pop] and
    [clear] never holds a jump, a return or [athrow]. *)
Theorem checked_block_holds_no_terminator b :
  checked b ->
  Forall (fun i => Block.terminates_control_flow i = false)
         (Block._instructions b).
Proof.
  induction 1 as [label | b arg i b' _ IH Happ | b index arg i b' _ IH Hins
                  | b key arg b' _ IH Hset | b item b' _ IH Hdel
                  | b index i b' _ IH Hpop | b _ IH]; simpl.
  - constructor.
  - revert Happ. unfold Block.append.
    destruct (Block.as_instruction arg) as [x | e]; [| discriminate]. simpl.
    destruct (Block._check_instruction x) as [[] | e] eqn:E; [| discriminate].
    simpl. intros [= <- <-]. simpl. apply Forall_app. split; [exact IH |].
    constructor; [now apply _check_instruction_passed | constructor].
  - revert Hins. unfold Block.insert.
    destruct (Block.as_instruction arg) as [x | e]; [| discriminate]. simpl.
    destruct (Block._check_instruction x) as [[] | e] eqn:E; [| discriminate].
    simpl. unfold Block.list_insert_py.
    destruct (Block.fits_ssize index); [| discriminate]. simpl.
    intros [= <- <-]. simpl.
    apply Forall_app. split; [now apply Forall_take |].
    constructor; [now apply _check_instruction_passed | now apply Forall_drop].
  - revert Hset. unfold BlockItems.setitem.
    destruct (Block.as_instruction arg) as [x | e]; [| discriminate].
    destruct (Block._check_instruction x) as [[] | e] eqn:E; [| discriminate].
    destruct (BlockItems.list_index _ key) as [k |]; [| discriminate].
    intros [= <-]. simpl. apply Forall_insert; [exact IH |].
    now apply _check_instruction_passed.
  - revert Hdel. unfold BlockItems.delitem.
    destruct (BlockItems.list_index _ item) as [k |]; [| discriminate].
    intros [= <-]. simpl. now apply Forall_delete.
  - revert Hpop. unfold BlockItems.pop.
    destruct (Block.fits_ssize index); [| discriminate].
    destruct (BlockItems.list_index _ index) as [k |]; [| discriminate].
    destruct (Block._instructions b !! k); [| discriminate].
    intros [= <- <-]. simpl. now apply Forall_delete.
  - constructor.
Qed.

End BlockInvariant.

Lemma checked_block_holds_no_terminator_witness :
  Forall (fun i => @Block.terminates_control_flow sample_instructions i = false)
         [nop; iload 1].
Proof.
  apply (@checked_block_holds_no_terminator sample_instructions sample_block).
  apply (checked_append
           (Block.mkInsnBlock sample_instructions 0 [nop] false)
           (@Block.Insn sample_instructions (iload 1)) (iload 1));
    [| reflexivity].
  apply (checked_append (InsnBlock_init 0 None)
           (@Block.Insn sample_instructions nop) nop); [| reflexivity].
  apply checked_init.
Defined.
